(** * ConjectureData: the recording layer of the Conjecture engine

    A shallow embedding of
    [hypothesis-python/src/hypothesis/internal/conjecture/data.py]:
    the [Example] and [Block] records, the [ConjectureData] recorder with
    its draw protocol ([start_example], [stop_example], [draw_bits],
    [write], [draw], [freeze], [conclude_test]) and the byte accounting
    invariants that hold on every record the public operations can build.

    Python integers are [Z]; positions inside Python lists (indices of
    examples and blocks, entries of the example stack) are [nat]; byte
    strings are [list byte]; the dictionary [block_starts] is a [gmap].
    Methods become functions in a state-and-exception monad over the
    record: a raised exception keeps the mutations made before it, as in
    Python. *)

From stdpp Require Import base numbers list strings gmap.
From Stdlib Require Import ZArith Lia Strings.Byte Sorting.Sorted.

Local Open Scope Z_scope.

(** ** Data model *)

Inductive Status := OVERRUN | INVALID | VALID | INTERESTING.

(** [Status] is an [IntEnum]: comparisons go through the integer value. *)
Definition status_value (s : Status) : Z :=
  match s with OVERRUN => 0 | INVALID => 1 | VALID => 2 | INTERESTING => 3 end.

(** [Example]: [ex_end] and [ex_discarded] default to [None]; [ex_children]
    holds the child examples.  The source appends the child object itself,
    which is the very object stored in [examples] at its [index]; the model
    stores that position, so a later mutation of the child is seen through
    the parent as it is in Python. *)
Record Example := mkExample {
  ex_depth : Z;
  ex_label : Z;
  ex_index : nat;
  ex_start : Z;
  ex_end : option Z;
  ex_trivial : bool;
  ex_discarded : option bool;
  ex_children : list nat
}.

Record Block := mkBlock {
  b_start : Z;
  b_end : Z;
  b_bits : Z;
  b_index : nat;
  b_forced : bool;
  b_all_zero : bool
}.

#[global] Instance Block_eq_dec : EqDecision Block.
Proof. solve_decision. Defined.

Definition bounds (b : Block) : Z * Z := (b_start b, b_end b).
Definition block_length (b : Block) : Z := b_end b - b_start b.
Definition block_trivial (b : Block) : bool := b_forced b || b_all_zero b.

(** The recorder.  [example_stack] is kept with its top first: the Python
    list [example_stack] is this list reversed ([append] is a cons, [pop]
    takes the head, [example_stack[-1]] is the head).  The byte source
    [_draw_bytes] is a closure over the record and is passed to the
    operations that call it; [output], [events] and the wall-clock fields
    ([start_time], [finish_time], [draw_times]) are read by no operation
    below and are left out. *)
Record ConjectureData := mkData {
  max_length : Z;
  is_find : bool;
  overdraw : Z;
  block_starts : gmap Z (list Z);
  blocks : list Block;
  buffer : list byte;
  status : Status;
  frozen : bool;
  testcounter : Z;
  interesting_origin : option Z;
  max_depth : Z;
  examples : list Example;
  example_stack : list nat;
  has_discards : bool
}.

(** Field updates. *)
Definition set_overdraw (v : Z) (d : ConjectureData) : ConjectureData :=
  mkData (max_length d) (is_find d) v (block_starts d) (blocks d) (buffer d)
    (status d) (frozen d) (testcounter d) (interesting_origin d) (max_depth d)
    (examples d) (example_stack d) (has_discards d).
Definition set_block_starts (v : gmap Z (list Z)) (d : ConjectureData) : ConjectureData :=
  mkData (max_length d) (is_find d) (overdraw d) v (blocks d) (buffer d)
    (status d) (frozen d) (testcounter d) (interesting_origin d) (max_depth d)
    (examples d) (example_stack d) (has_discards d).
Definition set_blocks (v : list Block) (d : ConjectureData) : ConjectureData :=
  mkData (max_length d) (is_find d) (overdraw d) (block_starts d) v (buffer d)
    (status d) (frozen d) (testcounter d) (interesting_origin d) (max_depth d)
    (examples d) (example_stack d) (has_discards d).
Definition set_buffer (v : list byte) (d : ConjectureData) : ConjectureData :=
  mkData (max_length d) (is_find d) (overdraw d) (block_starts d) (blocks d) v
    (status d) (frozen d) (testcounter d) (interesting_origin d) (max_depth d)
    (examples d) (example_stack d) (has_discards d).
Definition set_status (v : Status) (d : ConjectureData) : ConjectureData :=
  mkData (max_length d) (is_find d) (overdraw d) (block_starts d) (blocks d) (buffer d)
    v (frozen d) (testcounter d) (interesting_origin d) (max_depth d)
    (examples d) (example_stack d) (has_discards d).
Definition set_frozen (v : bool) (d : ConjectureData) : ConjectureData :=
  mkData (max_length d) (is_find d) (overdraw d) (block_starts d) (blocks d) (buffer d)
    (status d) v (testcounter d) (interesting_origin d) (max_depth d)
    (examples d) (example_stack d) (has_discards d).
Definition set_interesting_origin (v : option Z) (d : ConjectureData) : ConjectureData :=
  mkData (max_length d) (is_find d) (overdraw d) (block_starts d) (blocks d) (buffer d)
    (status d) (frozen d) (testcounter d) v (max_depth d)
    (examples d) (example_stack d) (has_discards d).
Definition set_max_depth (v : Z) (d : ConjectureData) : ConjectureData :=
  mkData (max_length d) (is_find d) (overdraw d) (block_starts d) (blocks d) (buffer d)
    (status d) (frozen d) (testcounter d) (interesting_origin d) v
    (examples d) (example_stack d) (has_discards d).
Definition set_examples (v : list Example) (d : ConjectureData) : ConjectureData :=
  mkData (max_length d) (is_find d) (overdraw d) (block_starts d) (blocks d) (buffer d)
    (status d) (frozen d) (testcounter d) (interesting_origin d) (max_depth d)
    v (example_stack d) (has_discards d).
Definition set_example_stack (v : list nat) (d : ConjectureData) : ConjectureData :=
  mkData (max_length d) (is_find d) (overdraw d) (block_starts d) (blocks d) (buffer d)
    (status d) (frozen d) (testcounter d) (interesting_origin d) (max_depth d)
    (examples d) v (has_discards d).
Definition set_has_discards (v : bool) (d : ConjectureData) : ConjectureData :=
  mkData (max_length d) (is_find d) (overdraw d) (block_starts d) (blocks d) (buffer d)
    (status d) (frozen d) (testcounter d) (interesting_origin d) (max_depth d)
    (examples d) (example_stack d) v.

(** Mutations of one [Example] object. *)
Definition ex_set_end (v : Z) (e : Example) : Example :=
  mkExample (ex_depth e) (ex_label e) (ex_index e) (ex_start e) (Some v)
    (ex_trivial e) (ex_discarded e) (ex_children e).
Definition ex_set_trivial (v : bool) (e : Example) : Example :=
  mkExample (ex_depth e) (ex_label e) (ex_index e) (ex_start e) (ex_end e)
    v (ex_discarded e) (ex_children e).
Definition ex_set_discarded (v : bool) (e : Example) : Example :=
  mkExample (ex_depth e) (ex_label e) (ex_index e) (ex_start e) (ex_end e)
    (ex_trivial e) (Some v) (ex_children e).
Definition ex_add_child (c : nat) (e : Example) : Example :=
  mkExample (ex_depth e) (ex_label e) (ex_index e) (ex_start e) (ex_end e)
    (ex_trivial e) (ex_discarded e) (ex_children e ++ [c]).

(** ** Exceptions and the recorder monad *)

Inductive exn :=
  | Frozen (name : string)     (* "Cannot call <name> on frozen ConjectureData" *)
  | StopTest (counter : Z)     (* the abort signal, tagged with [testcounter] *)
  | InvalidArgument
  | OverflowError
  | AssertionError
  | IndexError
  | External (tag : Z).        (* anything raised by caller-supplied code *)

Inductive result (A : Type) :=
  | Ok (a : A)
  | Raise (e : exn).
Arguments Ok {A} a.
Arguments Raise {A} e.

Definition M (A : Type) : Type := ConjectureData -> result A * ConjectureData.

Definition ret {A} (a : A) : M A := fun d => (Ok a, d).
Definition raise {A} (e : exn) : M A := fun d => (Raise e, d).
Definition bind {A B} (m : M A) (k : A -> M B) : M B :=
  fun d => match m d with
           | (Ok a, d') => k a d'
           | (Raise e, d') => (Raise e, d')
           end.
Definition get : M ConjectureData := fun d => (Ok d, d).
Definition modify (f : ConjectureData -> ConjectureData) : M unit :=
  fun d => (Ok tt, f d).
Definition when (b : bool) (m : M unit) : M unit := if b then m else ret tt.
(** [try: ... finally: fin]: [fin] runs on both exits; an exception of
    [fin] replaces the pending one. *)
Definition finally {A} (m : M A) (fin : M unit) : M A :=
  fun d => match m d with
           | (r, d') => match fin d' with
                        | (Ok _, d'') => (r, d'')
                        | (Raise e, d'') => (Raise e, d'')
                        end
           end.

Notation "'let!' x ':=' m 'in' k" := (bind m (fun x => k))
  (at level 10, x name, m at level 100, k at level 200,
   format "'[v' 'let!'  x  ':='  m  'in' '/' k ']'").
Notation "'run' m 'then' k" := (bind m (fun _ => k))
  (at level 10, m at level 100, k at level 200,
   format "'[v' 'run'  m  'then' '/' k ']'").

(** ** Helpers of [hypothesis.internal.compat] *)

Definition byte_to_Z (b : byte) : Z := Z.of_N (Byte.to_N b).
Definition byte_of_Z (z : Z) : byte :=
  match Byte.of_N (Z.to_N (z mod 256)) with
  | Some b => b
  | None => x00
  end.

(** Modelled from the spec: [bit_length] of [hypothesis.internal.compat]
    is not among the sources; it is Python's [int.bit_length], the number
    of binary digits of the absolute value. *)
Definition bit_length (v : Z) : Z :=
  if v =? 0 then 0 else Z.log2 (Z.abs v) + 1.

(** Modelled from the spec: [int_from_bytes] of
    [hypothesis.internal.compat] is not among the sources; the integer a
    byte string denotes in big-endian order, 0 for the empty string. *)
Definition int_from_bytes (bs : list byte) : Z :=
  fold_left (fun acc b => acc * 256 + byte_to_Z b) bs 0.

Fixpoint to_bytes_le (size : nat) (i : Z) : list byte :=
  match size with
  | O => []
  | S k => byte_of_Z (i mod 256) :: to_bytes_le k (i / 256)
  end.

(** Modelled from the spec: [int_to_bytes] of [hypothesis.internal.compat]
    is not among the sources; "the big-endian encoding of [forced]
    (left-padded to [n_bytes])".  As [int.to_bytes] does, it raises when the
    size is negative or the value is negative or does not fit. *)
Definition int_to_bytes (i size : Z) : result (list byte) :=
  if (size <? 0) || (i <? 0) || (256 ^ size <=? i) then Raise OverflowError
  else Ok (rev (to_bytes_le (Z.to_nat size) i)).

(** The slice [l[s:e]]: a negative offset counts from the end, and both
    offsets are clamped to the list. *)
Definition slice_offset (len i : Z) : Z :=
  if i <? 0 then Z.max 0 (i + len) else Z.min i len.
Definition slice {A} (l : list A) (s e : Z) : list A :=
  let len := Z.of_nat (length l) in
  let s' := slice_offset len s in
  let e' := slice_offset len e in
  take (Z.to_nat (e' - s')) (drop (Z.to_nat s') l).

(** A byte source: [(record, n) -> n raw bytes]; it is caller-supplied
    code and may raise. *)
Definition ByteSource : Type := ConjectureData -> Z -> result (list byte).

(** ** Operations of [ConjectureData] *)

Section Recorder.

(** [calc_label_from_name] of [hypothesis.internal.conjecture.utils] is not
    among the sources; labels are opaque integers and the function is a
    parameter of the development. *)
Variable calc_label_from_name : string -> Z.

Definition TOP_LABEL : Z := calc_label_from_name "top".
Definition DRAW_BYTES_LABEL : Z :=
  calc_label_from_name "draw_bytes() in ConjectureData".

Definition MAX_DEPTH : Z := 100.

Definition frozen_message (name : string) : string :=
  "Cannot call " ++ name ++ " on frozen ConjectureData".

Definition assert_not_frozen (name : string) : M unit :=
  fun d => if frozen d then (Raise (Frozen (frozen_message name)), d)
           else (Ok tt, d).

(** The properties [depth] and [index]. *)
Definition depth (d : ConjectureData) : Z :=
  Z.of_nat (length (example_stack d)) - 1.
Definition index (d : ConjectureData) : Z :=
  Z.of_nat (length (buffer d)).

Definition all_block_bounds (d : ConjectureData) : list (Z * Z) :=
  map bounds (blocks d).

(** [self.examples[i]], read: an [IndexError] outside the list. *)
Definition get_example (i : nat) : M Example :=
  fun d => match examples d !! i with
           | Some e => (Ok e, d)
           | None => (Raise IndexError, d)
           end.

(** A mutation of the object [self.examples[i]]. *)
Definition update_example (i : nat) (f : Example -> Example) : M unit :=
  run get_example i then
  modify (fun d => set_examples (alter f i (examples d)) d).

(** [start_example] returns the new [Example]; the caller's handle is the
    position of that object in [examples]. *)
Definition start_example (label : Z) : M nat :=
  run assert_not_frozen "start_example" then
  let! d := get in
  let i := length (examples d) in
  let new_depth := depth d + 1 in
  let ex := mkExample new_depth label i (index d) None true None [] in
  run modify (fun d => set_examples (examples d ++ [ex]) d) then
  run match example_stack d with
      | p :: _ => update_example p (ex_add_child i)
      | [] => ret tt
      end then
  run modify (fun d => set_example_stack (i :: example_stack d) d) then
  run modify (fun d => set_max_depth (Z.max (max_depth d) (depth d)) d) then
  ret i.

Definition stop_example (discard : bool) : M unit :=
  let! d0 := get in
  if frozen d0 then ret tt else
  match example_stack d0 with
  | [] => raise IndexError                       (* pop from empty list *)
  | k :: rest =>
    run modify (set_example_stack rest) then
    let! ex := get_example k in
    run update_example k (ex_set_end (index d0)) then
    run match rest with
        | p :: _ =>
          when (negb (ex_trivial ex)) (update_example p (ex_set_trivial false))
        | [] => ret tt
        end then
    let discard := if index d0 =? ex_start ex then false else discard in
    run update_example k (ex_set_discarded discard) then
    when discard (modify (set_has_discards true))
  end.

(** [while self.example_stack: self.stop_example()], with the number of
    iterations bounded by [fuel]; [freeze] supplies the height of the stack,
    which is enough ([freeze_loop_empties]). *)
Fixpoint freeze_loop (fuel : nat) : M unit :=
  let! d := get in
  match example_stack d, fuel with
  | [], _ => ret tt
  | _ :: _, O => ret tt
  | _ :: _, S fuel' => run stop_example false then freeze_loop fuel'
  end.

(** [freeze]: the [discards] list built for [status >= VALID] is local and
    never stored, and [hbytes(self.buffer)] keeps the bytes; neither changes
    the record. *)
Definition freeze : M unit :=
  let! d := get in
  if frozen d then ret tt else
  run freeze_loop (length (example_stack d)) then
  modify (set_frozen true).

Definition check_capacity (n : Z) : M unit :=
  let! d := get in
  if index d + n >? max_length d then
    run modify (set_overdraw (index d + n - max_length d)) then
    run modify (set_status OVERRUN) then
    run freeze then
    raise (StopTest (testcounter d))
  else ret tt.

Definition bits_to_bytes (n : Z) : Z :=
  let n_bytes := n / 8 in
  if negb (n mod 8 =? 0) then n_bytes + 1 else n_bytes.

(** Lifting of a pure, possibly failing computation. *)
Definition lift {A} (r : result A) : M A := fun d => (r, d).

Definition assert (b : bool) : M unit :=
  if b then ret tt else raise AssertionError.

(** [buf[0] &= mask] *)
Definition mask_first (mask : Z) (buf : list byte) : result (list byte) :=
  match buf with
  | [] => Raise IndexError
  | b0 :: rest => Ok (byte_of_Z (Z.land (byte_to_Z b0) mask) :: rest)
  end.

Definition draw_bits (src : ByteSource) (n : Z) (forced : option Z) : M Z :=
  run assert_not_frozen "draw_bits" then
  let n_bytes := bits_to_bytes n in
  run check_capacity n_bytes then
  let! buf := match forced with
              | Some f => lift (int_to_bytes f n_bytes)
              | None => fun d => (src d n_bytes, d)
              end in
  run assert (Z.of_nat (length buf) =? n_bytes) then
  let! buf := if negb (n mod 8 =? 0) then
                let mask := Z.shiftl 1 (n mod 8) - 1 in
                run assert (negb (mask =? 0)) then
                lift (mask_first mask buf)
              else ret buf in
  let result := int_from_bytes buf in
  let! ex := start_example DRAW_BYTES_LABEL in
  let! d := get in
  let initial := index d in
  let block := mkBlock initial (initial + n_bytes) n (length (blocks d))
                 (match forced with Some _ => true | None => false end)
                 (result =? 0) in
  run update_example ex (ex_set_trivial (block_trivial block)) then
  run modify (fun d => set_block_starts
                 (<[n_bytes := default [] (block_starts d !! n_bytes) ++ [b_start block]]>
                    (block_starts d)) d) then
  run modify (fun d => set_blocks (blocks d ++ [block]) d) then
  run (let! d := get in assert (bool_decide (blocks d !! b_index block = Some block))) then
  run (let! d := get in assert (index d =? initial)) then
  run modify (fun d => set_buffer (buffer d ++ buf) d) then
  run stop_example false then
  run assert (bit_length result <=? n) then
  ret result.

(** The order of the recording steps as the specification words it: the
    primitive example is opened, flagged and closed first, then the block
    is appended and indexed, then the bytes are appended.  It follows the
    specification, not the source, and exists to be compared with
    [draw_bits]. *)
Definition draw_bits_spec_order (src : ByteSource) (n : Z) (forced : option Z) : M Z :=
  run assert_not_frozen "draw_bits" then
  let n_bytes := bits_to_bytes n in
  run check_capacity n_bytes then
  let! buf := match forced with
              | Some f => lift (int_to_bytes f n_bytes)
              | None => fun d => (src d n_bytes, d)
              end in
  run assert (Z.of_nat (length buf) =? n_bytes) then
  let! buf := if negb (n mod 8 =? 0) then
                let mask := Z.shiftl 1 (n mod 8) - 1 in
                run assert (negb (mask =? 0)) then
                lift (mask_first mask buf)
              else ret buf in
  let result := int_from_bytes buf in
  let is_forced := match forced with Some _ => true | None => false end in
  let! ex := start_example DRAW_BYTES_LABEL in
  run update_example ex (ex_set_trivial (is_forced || (result =? 0))) then
  run stop_example false then
  let! d := get in
  let initial := index d in
  let block := mkBlock initial (initial + n_bytes) n (length (blocks d))
                 is_forced (result =? 0) in
  run modify (fun d => set_blocks (blocks d ++ [block]) d) then
  run modify (fun d => set_block_starts
                 (<[n_bytes := default [] (block_starts d !! n_bytes) ++ [b_start block]]>
                    (block_starts d)) d) then
  run modify (fun d => set_buffer (buffer d ++ buf) d) then
  ret result.

Definition draw_bytes (src : ByteSource) (n : Z) : M (list byte) :=
  if n =? 0 then ret [] else
  let! v := draw_bits src (8 * n) None in
  lift (int_to_bytes v n).

(** [write] returns [None] for an empty string and otherwise the tail
    [self.buffer[-len(string):]]. *)
Definition write (src : ByteSource) (string : list byte) : M (option (list byte)) :=
  run assert_not_frozen "write" then
  match string with
  | [] => ret None
  | _ :: _ =>
    let len := Z.of_nat (length string) in
    run draw_bits src (len * 8) (Some (int_from_bytes string)) then
    let! d := get in
    ret (Some (slice (buffer d) (- len) (index d)))
  end.

Definition is_None {A} (o : option A) : bool :=
  match o with None => true | Some _ => false end.

Definition conclude_test (st : Status) (origin : option Z) : M unit :=
  run assert (is_None origin || bool_decide (status_value st = status_value INTERESTING)) then
  run assert_not_frozen "conclude_test" then
  run modify (set_interesting_origin origin) then
  run modify (set_status st) then
  run freeze then
  let! d := get in
  raise (StopTest (testcounter d)).

Definition mark_interesting (origin : option Z) : M unit :=
  conclude_test INTERESTING origin.

Definition mark_invalid : M unit :=
  conclude_test INVALID None.

(** What [draw] uses of a strategy: [validate] may raise, [do_draw] runs
    caller-supplied code on the record. *)
Record Strategy (A : Type) := mkStrategy {
  supports_find : bool;
  is_empty : bool;
  strategy_label : Z;
  validate : result unit;
  do_draw : M A
}.
Arguments supports_find {A}.
Arguments is_empty {A}.
Arguments strategy_label {A}.
Arguments validate {A}.
Arguments do_draw {A}.

(** [__draw]: [mark_for_escalation] tags the exception and re-raises it
    unchanged; the timing appended to [draw_times] is not modelled. *)
Definition draw_inner {A} (strategy : Strategy A) (label : option Z) : M A :=
  let! d := get in
  let at_top_level := depth d =? 0 in
  let label := match label with None => strategy_label strategy | Some l => l end in
  run start_example label then
  finally
    (if negb at_top_level then do_draw strategy
     else run lift (validate strategy) then do_draw strategy)
    (stop_example false).

Definition draw {A} (strategy : Strategy A) (label : option Z) : M A :=
  let! d := get in
  run when (is_find d && negb (supports_find strategy)) (raise InvalidArgument) then
  run when (is_empty strategy) mark_invalid then
  let! d := get in
  run when (depth d >=? MAX_DEPTH) mark_invalid then
  draw_inner strategy label.



(** [__init__]: the fresh fields, then the top-level example is opened.
    The process-wide [global_test_counter] is read by the caller and
    passed in. *)
Definition fresh_fields (max_length testcounter : Z) : ConjectureData :=
  mkData max_length false 0 ∅ [] [] VALID false testcounter None 0 [] [] false.

Definition init : M unit :=
  let! top := start_example TOP_LABEL in
  let! e := get_example top in
  assert (ex_depth e =? 0).

Definition new_data (max_length testcounter : Z) : ConjectureData :=
  snd (init (fresh_fields max_length testcounter)).

(** [for_buffer]: the byte source of a replay slices the given buffer at
    the record's current index. *)
Definition replay_source (buf : list byte) : ByteSource :=
  fun d n => Ok (slice buf (index d) (index d + n)).

Definition for_buffer (buf : list byte) (testcounter : Z) : ConjectureData :=
  new_data (Z.of_nat (length buf)) testcounter.

(** ** Runs of the recorder

    The public operations a caller can apply to a record; [draw], [write]
    and [draw_bytes] change the record only through these.  A step keeps
    the record an operation leaves behind, whether it returned or raised. *)
Inductive Op :=
  | OpStartExample (label : Z)
  | OpStopExample (discard : bool)
  | OpDrawBits (src : ByteSource) (n : Z) (forced : option Z)
  | OpWrite (src : ByteSource) (string : list byte)
  | OpDrawBytes (src : ByteSource) (n : Z)
  | OpFreeze
  | OpConcludeTest (st : Status) (origin : option Z).

Definition apply_op (o : Op) (d : ConjectureData) : ConjectureData :=
  match o with
  | OpStartExample label => snd (start_example label d)
  | OpStopExample discard => snd (stop_example discard d)
  | OpDrawBits src n forced => snd (draw_bits src n forced d)
  | OpWrite src string => snd (write src string d)
  | OpDrawBytes src n => snd (draw_bytes src n d)
  | OpFreeze => snd (freeze d)
  | OpConcludeTest st origin => snd (conclude_test st origin d)
  end.

Inductive reachable : ConjectureData -> Prop :=
  | reachable_new (max_length testcounter : Z) :
      reachable (new_data max_length testcounter)
  | reachable_step (o : Op) (d : ConjectureData) :
      reachable d -> reachable (apply_op o d).

End Recorder.

Arguments supports_find {A}.
Arguments is_empty {A}.
Arguments strategy_label {A}.
Arguments validate {A}.
Arguments do_draw {A}.
Arguments mkStrategy {A}.

(** ** Runs on concrete records *)

Definition demo_label (name : string) : Z := Z.of_nat (String.length name).

Definition zero_source : ByteSource :=
  fun _ n => Ok (replicate (Z.to_nat n) x00).

(** A fresh record with room for 8 bytes, the same record frozen, a fresh
    record with no room at all, and the record after two draws of zero
    bits. *)
Definition fresh_demo : ConjectureData := new_data demo_label 8 0.

Definition frozen_demo : ConjectureData :=
  apply_op demo_label OpFreeze fresh_demo.

Definition full_demo : ConjectureData := new_data demo_label 0 0.


Definition top_demo : Example :=
  mkExample 0 (demo_label "top") 0 0 None true None [].

(** A strategy that draws nothing and returns 0. *)
Definition unit_strategy : Strategy Z := mkStrategy true false 7 (Ok tt) (ret 0).

(** A strategy with no values. *)
Definition empty_strategy : Strategy Z := mkStrategy true true 7 (Ok tt) (ret 0).

(** The fresh record after a forced draw of the byte 5, after an unforced
    draw of a zero byte, after opening an example, after closing the
    top-level example, and the full record after a draw that overruns. *)
Definition drawn_demo : ConjectureData :=
  apply_op demo_label (OpDrawBits zero_source 8 (Some 5)) fresh_demo.

Definition zero_drawn_demo : ConjectureData :=
  apply_op demo_label (OpDrawBits zero_source 8 None) fresh_demo.

Definition opened_demo : ConjectureData :=
  apply_op demo_label (OpStartExample 7) fresh_demo.

Definition closed_demo : ConjectureData :=
  apply_op demo_label (OpStopExample false) fresh_demo.

Definition overrun_demo : ConjectureData :=
  apply_op demo_label (OpDrawBits zero_source 8 None) full_demo.

(** The block and the top-level example of [drawn_demo]. *)
Definition drawn_block : Block := mkBlock 0 1 8 0 true false.

Definition drawn_top : Example :=
  mkExample 0 (demo_label "top") 0 0 None true None [1%nat].

(** A strategy that does not support find, a byte source of ones, and a
    record switched to find mode: [is_find] is assigned on the record by
    the caller that runs a find. *)
Definition no_find_strategy : Strategy Z :=
  mkStrategy false false 7 (Ok tt) (ret 0).


Definition one_source : ByteSource :=
  fun _ n => Ok (replicate (Z.to_nat n) x01).

Definition in_find_mode (d : ConjectureData) : ConjectureData :=
  mkData (max_length d) true (overdraw d) (block_starts d) (blocks d) (buffer d)
    (status d) (frozen d) (testcounter d) (interesting_origin d) (max_depth d)
    (examples d) (example_stack d) (has_discards d).

(** A full record with a second example open. *)
Definition opened_full_demo : ConjectureData :=
  apply_op demo_label (OpStartExample 7) full_demo.

(** A frozen record with nested examples: inside an example labelled 7 a
    byte 1 was drawn, then, at top level, a zero byte. *)
Definition nested_frozen_demo : ConjectureData :=
  apply_op demo_label OpFreeze
    (apply_op demo_label (OpDrawBits zero_source 8 None)
       (apply_op demo_label (OpStopExample false)
          (apply_op demo_label (OpDrawBits one_source 8 None)
             (apply_op demo_label (OpStartExample 7) fresh_demo)))).

(** A record replaying a buffer of two bytes. *)
Definition replay_input : list byte := [x01; x02].

Definition replay_demo : ConjectureData := for_buffer demo_label replay_input 0.

(** ** The records the operations leave behind

    The record after each operation that returns, written out as a
    function of the record before; the lemmas [start_example_ok],
    [stop_example_ok] and [draw_bits_ok] relate them to the operations. *)

Definition after_start (label : Z) (d : ConjectureData) : ConjectureData :=
  let i := length (examples d) in
  let ex := mkExample (depth d + 1) label i (index d) None true None [] in
  let exs := examples d ++ [ex] in
  let exs' := match example_stack d with
              | p :: _ => alter (ex_add_child i) p exs
              | [] => exs
              end in
  set_max_depth (Z.max (max_depth d) (Z.of_nat (length (example_stack d))))
    (set_example_stack (i :: example_stack d) (set_examples exs' d)).

Definition after_stop (discard : bool) (k : nat) (rest : list nat) (ex : Example)
    (d : ConjectureData) : ConjectureData :=
  let exs1 := alter (ex_set_end (index d)) k (examples d) in
  let exs2 := match rest with
              | p :: _ => if negb (ex_trivial ex)
                          then alter (ex_set_trivial false) p exs1 else exs1
              | [] => exs1
              end in
  let discard' := if index d =? ex_start ex then false else discard in
  let exs3 := alter (ex_set_discarded discard') k exs2 in
  set_has_discards (if discard' then true else has_discards d)
    (set_examples exs3 (set_example_stack rest d)).

Definition new_block (n n_bytes : Z) (is_forced : bool) (buf : list byte)
    (d : ConjectureData) : Block :=
  mkBlock (index d) (index d + n_bytes) n (length (blocks d)) is_forced
    (int_from_bytes buf =? 0).

(** The middle of [draw_bits]: the handle [ex] is flagged, the block is
    indexed and appended, the bytes are appended. *)
Definition record_block (n n_bytes : Z) (is_forced : bool) (buf : list byte)
    (ex : nat) (d : ConjectureData) : ConjectureData :=
  let block := new_block n n_bytes is_forced buf d in
  set_buffer (buffer d ++ buf)
    (set_blocks (blocks d ++ [block])
       (set_block_starts
          (<[n_bytes := default [] (block_starts d !! n_bytes) ++ [b_start block]]>
             (block_starts d))
          (set_examples
             (alter (ex_set_trivial (block_trivial block)) ex (examples d)) d))).

Definition is_Some_b {A} (o : option A) : bool :=
  match o with Some _ => true | None => false end.

Definition after_draw (label n : Z) (is_forced : bool) (buf : list byte)
    (d : ConjectureData) : ConjectureData :=
  let n_bytes := bits_to_bytes n in
  let i := length (examples d) in
  let d1 := after_start label d in
  let block := new_block n n_bytes is_forced buf d1 in
  let ex := mkExample (depth d + 1) label i (index d) None (block_trivial block)
              None [] in
  after_stop false i (example_stack d) ex
    (record_block n n_bytes is_forced buf i d1).

(** The masking step of [draw_bits] on the raw bytes. *)
Definition mask_bytes (n : Z) (buf : list byte) : result (list byte) :=
  if negb (n mod 8 =? 0) then
    let mask := Z.shiftl 1 (n mod 8) - 1 in
    if negb (mask =? 0) then mask_first mask buf else Raise AssertionError
  else Ok buf.

(** The raw bytes of a draw: the encoding of the forced value, or what
    the byte source returns. *)
Definition raw_bytes (src : ByteSource) (n_bytes : Z) (forced : option Z)
    (d : ConjectureData) : result (list byte) :=
  match forced with
  | Some f => int_to_bytes f n_bytes
  | None => src d n_bytes
  end.

(** The record [freeze] leaves behind when it was not frozen. *)
Definition after_freeze (d : ConjectureData) : ConjectureData :=
  set_frozen true (snd (freeze_loop (length (example_stack d)) d)).

Definition after_overrun (n_bytes : Z) (d : ConjectureData) : ConjectureData :=
  after_freeze
    (set_status OVERRUN (set_overdraw (index d + n_bytes - max_length d) d)).

(** The top of the example stack, when there is one, is an example. *)
Definition top_in_range (d : ConjectureData) : Prop :=
  forall p rest, example_stack d = p :: rest -> (p < length (examples d))%nat.

(** Every entry of the example stack is the position of an example. *)
Definition stack_in_range (d : ConjectureData) : Prop :=
  Forall (fun i => (i < length (examples d))%nat) (example_stack d).

(** The examples after [start_example]: the new one is appended and
    registered with the top of the stack. *)
Definition opened (exs : list Example) (stk : list nat) (ex : Example)
    : list Example :=
  match stk with
  | p :: _ => alter (ex_add_child (length exs)) p (exs ++ [ex])
  | [] => exs ++ [ex]
  end.

(** The examples after [stop_example], before [discarded] is written. *)
Definition closed (exs : list Example) (k : nat) (rest : list nat)
    (ek : Example) (len : Z) : list Example :=
  let exs1 := alter (ex_set_end len) k exs in
  match rest with
  | p :: _ => if negb (ex_trivial ek)
              then alter (ex_set_trivial false) p exs1 else exs1
  | [] => exs1
  end.

(** ** Invariants of a record

    Fields of the example stored at a position of [examples]. *)
Definition idx_of (exs : list Example) (i : nat) : option nat :=
  ex_index <$> exs !! i.
Definition start_of (exs : list Example) (i : nat) : option Z :=
  ex_start <$> exs !! i.
Definition end_of (exs : list Example) (i : nat) : option (option Z) :=
  ex_end <$> exs !! i.
Definition trivial_of (exs : list Example) (i : nat) : option bool :=
  ex_trivial <$> exs !! i.
Definition children_of (exs : list Example) (i : nat) : option (list nat) :=
  ex_children <$> exs !! i.

(** The example tree: [exs] are the examples, [stk] the stack of open ones
    (top first), [len] the current length of the buffer. *)
Record ExInv (exs : list Example) (stk : list nat) (len : Z) : Prop := {
  e_index : forall i x, idx_of exs i = Some x -> x = i;
  e_start : forall i s, start_of exs i = Some s -> 0 <= s <= len;
  e_end : forall i s en,
      start_of exs i = Some s -> end_of exs i = Some (Some en) -> s <= en <= len;
  e_open : forall i, i ∈ stk <-> end_of exs i = Some None;
  e_sorted : StronglySorted (fun a b => (b < a)%nat) stk;
  e_mono : forall i j si sj,
      (i <= j)%nat -> start_of exs i = Some si -> start_of exs j = Some sj ->
      si <= sj;
  e_child_lt : forall p cs c,
      children_of exs p = Some cs -> c ∈ cs -> (p < c < length exs)%nat;
  e_child_end : forall p cs c en,
      children_of exs p = Some cs -> c ∈ cs -> end_of exs p = Some (Some en) ->
      exists cn, end_of exs c = Some (Some cn) /\ cn <= en;
  e_siblings : forall p cs j1 j2 c1 c2,
      children_of exs p = Some cs -> (j1 < j2)%nat ->
      cs !! j1 = Some c1 -> cs !! j2 = Some c2 ->
      (c1 < c2)%nat
      /\ exists n1 s2, end_of exs c1 = Some (Some n1) /\ start_of exs c2 = Some s2
                       /\ n1 <= s2
}.

(** The spans of the blocks form a chain from [from] to [to]. *)
Fixpoint block_chain (from : Z) (bl : list Block) (to : Z) : Prop :=
  match bl with
  | [] => from = to
  | b :: rest =>
    b_start b = from /\ from <= b_end b /\ block_chain (b_end b) rest to
  end.

Record BlockInv (bl : list Block) (buf : list byte) : Prop := {
  b_chain : block_chain 0 bl (Z.of_nat (length buf));
  b_position : forall i b, bl !! i = Some b -> b_index b = i;
  b_bounds : forall b, b ∈ bl ->
      0 <= b_start b <= b_end b /\ b_end b <= Z.of_nat (length buf);
  b_zero : forall b, b ∈ bl -> b_start b = b_end b -> block_trivial b = true;
  b_width : forall b, b ∈ bl ->
      0 <= b_bits b
      /\ bit_length (int_from_bytes (slice buf (b_start b) (b_end b))) <= b_bits b
}.

(** Every block that starts at or after [s] is trivial. *)
Definition all_trivial_from (s : Z) (bl : list Block) : bool :=
  forallb (fun b => (b_start b <? s) || block_trivial b) bl.

(** Every block whose span lies within [[s, e]] is trivial. *)
Definition all_trivial_within (s e : Z) (bl : list Block) : bool :=
  forallb (fun b => negb ((s <=? b_start b) && (b_end b <=? e)) || block_trivial b) bl.

(** Open examples: walking the stack from its top, the conjunction of the
    flags met so far is the triviality of all blocks drawn since the
    example opened (a flag reaches the parent only when the child closes). *)
Fixpoint open_ok (exs : list Example) (bl : list Block) (acc : bool)
    (stk : list nat) : Prop :=
  match stk with
  | [] => True
  | i :: below =>
    exists s t, start_of exs i = Some s /\ trivial_of exs i = Some t
      /\ acc && t = all_trivial_from s bl
      /\ open_ok exs bl (acc && t) below
  end.

Record TrivInv (exs : list Example) (stk : list nat) (bl : list Block) : Prop := {
  t_closed : forall i s en t,
      start_of exs i = Some s -> end_of exs i = Some (Some en) ->
      trivial_of exs i = Some t -> t = all_trivial_within s en bl;
  t_open : open_ok exs bl true stk
}.

Record Inv (d : ConjectureData) : Prop := {
  inv_examples : ExInv (examples d) (example_stack d) (index d);
  inv_blocks : BlockInv (blocks d) (buffer d);
  inv_trivial : TrivInv (examples d) (example_stack d) (blocks d);
  inv_frozen : frozen d = true -> example_stack d = []
}.

(** [descendant exs p c]: the example at [c] lies strictly below the
    example at [p] in the tree the [children] lists describe. *)
Inductive descendant (exs : list Example) : nat -> nat -> Prop :=
  | descendant_child p c ep :
      exs !! p = Some ep -> c ∈ ex_children ep -> descendant exs p c
  | descendant_step p c q ep :
      exs !! p = Some ep -> c ∈ ex_children ep -> descendant exs c q ->
      descendant exs p q.

(** The bytes of a block and the integer they denote. *)
Definition block_bytes (buf : list byte) (b : Block) : list byte :=
  slice buf (b_start b) (b_end b).
Definition block_value (buf : list byte) (b : Block) : Z :=
  int_from_bytes (block_bytes buf b).

(** The status fields along the life of a record: an unfrozen record is
    [VALID] with no overdraw and no origin; an overdraw or an origin is only
    found on a frozen record, with the status that goes with it. *)
Definition LifeCycle (d : ConjectureData) : Prop :=
  (frozen d = false ->
     status d = VALID /\ overdraw d = 0 /\ interesting_origin d = None)
  /\ (overdraw d <> 0 -> status d = OVERRUN /\ 0 < overdraw d /\ frozen d = true)
  /\ (interesting_origin d <> None -> status d = INTERESTING /\ frozen d = true)
  /\ (frozen d = true -> example_stack d = [])
  /\ (Z.of_nat (length (buffer d)) = 0
      \/ Z.of_nat (length (buffer d)) <= max_length d)
  /\ is_find d = false.

(** ** Further invariants *)

Definition depth_of (exs : list Example) (i : nat) : option Z :=
  ex_depth <$> exs !! i.

(** The example at height [h] of the stack has depth [h]. *)
Fixpoint stack_depths (exs : list Example) (stk : list nat) : Prop :=
  match stk with
  | [] => True
  | i :: below =>
    depth_of exs i = Some (Z.of_nat (length below)) /\ stack_depths exs below
  end.

Record DepthInv (d : ConjectureData) : Prop := {
  dp_range : forall i x,
      depth_of (examples d) i = Some x -> 0 <= x <= max_depth d;
  dp_stack : stack_depths (examples d) (example_stack d);
  dp_child : forall p cs c dp dc,
      children_of (examples d) p = Some cs -> c ∈ cs ->
      depth_of (examples d) p = Some dp -> depth_of (examples d) c = Some dc ->
      dc = dp + 1;
  dp_root : forall x, depth_of (examples d) 0 = Some x -> x = 0;
  dp_max : 0 <= max_depth d
}.


(** The blocks of byte length [w]. *)
Definition blocks_of_width (w : Z) (bl : list Block) : list Block :=
  filter (fun b => block_length b = w) bl.

Record BlockShape (d : ConjectureData) : Prop := {
  bs_length : forall b, b ∈ blocks d -> block_length b = bits_to_bytes (b_bits b);
  bs_all_zero : forall b, b ∈ blocks d ->
      b_all_zero b = (block_value (buffer d) b =? 0);
  bs_index : forall w,
      default [] (block_starts d !! w) = b_start <$> blocks_of_width w (blocks d);
  bs_keys : forall w l, block_starts d !! w = Some l -> l <> []
}.

(** [extends d d']: the record [d'] continues the record [d].  The buffer,
    the blocks and the lists of [block_starts] have only grown; every
    example of [d] is still there with the same index, label, depth and
    start, possibly more children and possibly no longer trivial; an
    example that was closed in [d] is unchanged. *)
Record extends (d d' : ConjectureData) : Prop := {
  ext_buffer : buffer d `prefix_of` buffer d';
  ext_blocks : blocks d `prefix_of` blocks d';
  ext_examples : forall i e, examples d !! i = Some e ->
      exists e', examples d' !! i = Some e'
        /\ ex_index e' = ex_index e /\ ex_label e' = ex_label e
        /\ ex_depth e' = ex_depth e /\ ex_start e' = ex_start e
        /\ ex_children e `prefix_of` ex_children e'
        /\ (ex_trivial e = false -> ex_trivial e' = false)
        /\ (ex_end e <> None -> e' = e);
  ext_starts : forall w,
      default [] (block_starts d !! w) `prefix_of` default [] (block_starts d' !! w);
  ext_max_length : max_length d' = max_length d;
  ext_testcounter : testcounter d' = testcounter d;
  ext_max_depth : max_depth d <= max_depth d';
  ext_has_discards : has_discards d = true -> has_discards d' = true;
  ext_frozen : frozen d = true -> frozen d' = true
}.

(** * Properties *)

(** ** Bytes and integers *)

Lemma byte_to_Z_range (b : byte) : 0 <= byte_to_Z b < 256.
Proof.
  unfold byte_to_Z. pose proof (Byte.to_N_bounded b). lia.
Qed.

Lemma byte_to_of_Z (z : Z) : byte_to_Z (byte_of_Z z) = z mod 256.
Proof.
  unfold byte_of_Z, byte_to_Z.
  pose proof (Z.mod_pos_bound z 256 ltac:(lia)) as Hz.
  destruct (Byte.of_N (Z.to_N (z mod 256))) as [b|] eqn:Hb.
  - apply Byte.to_of_N in Hb. rewrite Hb. lia.
  - apply Byte.of_N_None_iff in Hb. lia.
Qed.

Lemma byte_of_to_Z (b : byte) : byte_of_Z (byte_to_Z b) = b.
Proof.
  unfold byte_of_Z, byte_to_Z.
  pose proof (Byte.to_N_bounded b).
  rewrite Z.mod_small by lia. rewrite N2Z.id, Byte.of_to_N. reflexivity.
Qed.

Lemma fold_bytes_acc (bs : list byte) (acc : Z) :
  fold_left (fun a b => a * 256 + byte_to_Z b) bs acc
  = acc * 256 ^ Z.of_nat (length bs) + int_from_bytes bs.
Proof.
  unfold int_from_bytes. revert acc.
  induction bs as [|b bs IH]; intros acc.
  - simpl. lia.
  - cbn [fold_left length]. rewrite IH, (IH (0 * 256 + byte_to_Z b)).
    rewrite Nat2Z.inj_succ, Z.pow_succ_r by lia. lia.
Qed.

Lemma int_from_bytes_nil : int_from_bytes [] = 0.
Proof. reflexivity. Qed.

Lemma int_from_bytes_cons (b : byte) (bs : list byte) :
  int_from_bytes (b :: bs)
  = byte_to_Z b * 256 ^ Z.of_nat (length bs) + int_from_bytes bs.
Proof.
  unfold int_from_bytes at 1. cbn [fold_left]. rewrite fold_bytes_acc. lia.
Qed.

Lemma int_from_bytes_snoc (bs : list byte) (b : byte) :
  int_from_bytes (bs ++ [b]) = int_from_bytes bs * 256 + byte_to_Z b.
Proof.
  unfold int_from_bytes. rewrite fold_left_app. reflexivity.
Qed.

Lemma int_from_bytes_range (bs : list byte) :
  0 <= int_from_bytes bs < 256 ^ Z.of_nat (length bs).
Proof.
  induction bs as [|b bs IH].
  - cbn. lia.
  - rewrite int_from_bytes_cons. cbn [length].
    rewrite Nat2Z.inj_succ, Z.pow_succ_r by lia.
    pose proof (byte_to_Z_range b). nia.
Qed.

Lemma to_bytes_le_length (k : nat) (i : Z) : length (to_bytes_le k i) = k.
Proof.
  revert i. induction k as [|k IH]; intros i; cbn; [reflexivity|].
  now rewrite IH.
Qed.

Lemma int_from_to_bytes_le (k : nat) (i : Z) :
  int_from_bytes (rev (to_bytes_le k i)) = i mod 256 ^ Z.of_nat k.
Proof.
  revert i. induction k as [|k IH]; intros i.
  - cbn. now rewrite Z.mod_1_r.
  - cbn [to_bytes_le rev]. rewrite int_from_bytes_snoc, IH, byte_to_of_Z.
    rewrite Nat2Z.inj_succ, Z.pow_succ_r by lia.
    rewrite Z.rem_mul_r by lia. rewrite Z.mod_mod by lia. lia.
Qed.

Lemma int_to_bytes_Ok (i size : Z) (bs : list byte) :
  int_to_bytes i size = Ok bs ->
  0 <= size /\ 0 <= i < 256 ^ size /\ Z.of_nat (length bs) = size
  /\ int_from_bytes bs = i.
Proof.
  unfold int_to_bytes.
  destruct (size <? 0) eqn:H1; [discriminate|].
  destruct (i <? 0) eqn:H2; [discriminate|].
  destruct (256 ^ size <=? i) eqn:H3; [discriminate|].
  cbn [orb]. intros [= <-].
  rewrite length_rev, to_bytes_le_length, int_from_to_bytes_le.
  rewrite Z2Nat.id by lia. rewrite Z.mod_small by lia. lia.
Qed.

Lemma int_to_bytes_fits (i size : Z) :
  0 <= size -> 0 <= i < 256 ^ size ->
  int_to_bytes i size = Ok (rev (to_bytes_le (Z.to_nat size) i)).
Proof.
  intros Hs Hi. unfold int_to_bytes.
  replace (size <? 0) with false by lia.
  replace (i <? 0) with false by lia.
  replace (256 ^ size <=? i) with false by lia.
  reflexivity.
Qed.

Lemma bit_length_nonneg (v : Z) : 0 <= bit_length v.
Proof.
  unfold bit_length. destruct (v =? 0); [lia|].
  pose proof (Z.log2_nonneg (Z.abs v)). lia.
Qed.

Lemma bit_length_le (v n : Z) :
  0 <= v -> 0 <= n -> (bit_length v <= n <-> v < 2 ^ n).
Proof.
  intros Hv Hn. unfold bit_length.
  destruct (v =? 0) eqn:E.
  - assert (v = 0) by lia. subst. pose proof (Z.pow_pos_nonneg 2 n). lia.
  - assert (0 < v) by lia. rewrite Z.abs_eq by lia.
    rewrite (Z.log2_lt_pow2 v n) by lia. lia.
Qed.

Lemma pow256 (k : Z) : 0 <= k -> 256 ^ k = 2 ^ (8 * k).
Proof.
  intros Hk. rewrite Z.pow_mul_r by lia. reflexivity.
Qed.

(** [bits_to_bytes n] is the ceiling of [n / 8]. *)
Lemma bits_to_bytes_spec (n : Z) :
  (n mod 8 = 0 /\ n = 8 * bits_to_bytes n)
  \/ (0 < n mod 8 < 8 /\ n = 8 * (bits_to_bytes n - 1) + n mod 8).
Proof.
  unfold bits_to_bytes.
  pose proof (Z.div_mod n 8 ltac:(lia)).
  pose proof (Z.mod_pos_bound n 8 ltac:(lia)).
  destruct (n mod 8 =? 0) eqn:E; cbn [negb]; [left|right]; lia.
Qed.

Lemma bits_to_bytes_0 : bits_to_bytes 0 = 0.
Proof. reflexivity. Qed.

Lemma bits_to_bytes_nonneg (n : Z) : 0 <= n -> 0 <= bits_to_bytes n.
Proof.
  intros Hn. destruct (bits_to_bytes_spec n) as [[? ?]|[? ?]]; [lia|].
  pose proof (Z.div_pos n 8 Hn ltac:(lia)). unfold bits_to_bytes in *.
  destruct (n mod 8 =? 0); cbn [negb] in *; lia.
Qed.

Lemma bits_to_bytes_zero_iff (n : Z) : 0 <= n -> (bits_to_bytes n = 0 <-> n = 0).
Proof.
  intros Hn. destruct (bits_to_bytes_spec n) as [[? ?]|[? ?]]; [lia|].
  pose proof (Z.div_pos n 8 Hn ltac:(lia)). unfold bits_to_bytes in *.
  destruct (n mod 8 =? 0); cbn [negb] in *; lia.
Qed.

(** ** Stepping through the monad *)

Lemma bind_Ok {A B} (m : M A) (k : A -> M B) d a d' :
  m d = (Ok a, d') -> bind m k d = k a d'.
Proof. intros H. unfold bind. now rewrite H. Qed.

Lemma bind_Raise {A B} (m : M A) (k : A -> M B) d e d' :
  m d = (Raise e, d') -> bind m k d = (Raise e, d').
Proof. intros H. unfold bind. now rewrite H. Qed.

Lemma assert_not_frozen_unfrozen name d :
  frozen d = false -> assert_not_frozen name d = (Ok tt, d).
Proof. intros H. unfold assert_not_frozen. now rewrite H. Qed.

Lemma assert_not_frozen_frozen name d :
  frozen d = true ->
  assert_not_frozen name d = (Raise (Frozen (frozen_message name)), d).
Proof. intros H. unfold assert_not_frozen. now rewrite H. Qed.

Lemma get_example_Some i e d :
  examples d !! i = Some e -> get_example i d = (Ok e, d).
Proof. intros H. unfold get_example. now rewrite H. Qed.

Lemma update_example_Some i f e d :
  examples d !! i = Some e ->
  update_example i f d = (Ok tt, set_examples (alter f i (examples d)) d).
Proof.
  intros H. unfold update_example.
  rewrite (bind_Ok _ _ _ _ _ (get_example_Some _ _ _ H)). reflexivity.
Qed.

Lemma update_example_lt i f d :
  (i < length (examples d))%nat ->
  update_example i f d = (Ok tt, set_examples (alter f i (examples d)) d).
Proof.
  intros H. destruct (lookup_lt_is_Some_2 _ _ H) as [e He].
  eapply update_example_Some; eauto.
Qed.

Lemma start_example_ok label d :
  frozen d = false -> top_in_range d ->
  start_example label d = (Ok (length (examples d)), after_start label d).
Proof.
  intros Hf Htop. unfold start_example.
  rewrite (bind_Ok _ _ _ _ _ (assert_not_frozen_unfrozen _ _ Hf)).
  unfold get at 1. unfold bind at 1. unfold modify at 1. unfold bind at 1.
  unfold after_start. destruct (example_stack d) as [|p rest] eqn:Hs.
  - destruct d; cbn in *. subst. reflexivity.
  - specialize (Htop p rest Hs).
    rewrite (bind_Ok _ _ _ tt
      (set_examples (alter (ex_add_child (length (examples d))) p
         (examples d ++ [mkExample (depth d + 1) label (length (examples d))
            (index d) None true None []]))
         (set_examples (examples d ++ [mkExample (depth d + 1) label
            (length (examples d)) (index d) None true None []]) d))).
    + destruct d; cbn in *. subst. unfold bind, modify, ret, depth; cbn.
      do 3 f_equal. lia.
    + rewrite update_example_lt.
      * reflexivity.
      * destruct d; cbn in *. rewrite length_app. cbn. lia.
Qed.

Lemma stop_example_frozen discard d :
  frozen d = true -> stop_example discard d = (Ok tt, d).
Proof.
  intros H. unfold stop_example, bind, get. now rewrite H.
Qed.

Lemma stop_example_empty discard d :
  frozen d = false -> example_stack d = [] ->
  stop_example discard d = (Raise IndexError, d).
Proof.
  intros H Hs. unfold stop_example, bind, get. now rewrite H, Hs.
Qed.

Lemma stop_example_ok discard d k rest ex :
  frozen d = false -> example_stack d = k :: rest ->
  examples d !! k = Some ex ->
  (forall p r, rest = p :: r -> (p < length (examples d))%nat) ->
  stop_example discard d = (Ok tt, after_stop discard k rest ex d).
Proof.
  intros Hf Hs Hk Hrest. unfold stop_example.
  unfold get at 1. unfold bind at 1. rewrite Hf, Hs.
  unfold modify at 1. unfold bind at 1.
  rewrite (bind_Ok _ _ _ ex (set_example_stack rest d))
    by (apply get_example_Some; destruct d; exact Hk).
  rewrite (bind_Ok _ _ _ tt
    (set_examples (alter (ex_set_end (index d)) k (examples d))
       (set_example_stack rest d)))
    by (erewrite update_example_Some by (destruct d; exact Hk);
        destruct d; reflexivity).
  unfold after_stop.
  set (d1 := set_examples (alter (ex_set_end (index d)) k (examples d))
               (set_example_stack rest d)).
  assert (Hlen : length (examples d1) = length (examples d))
    by (destruct d; cbn; apply length_alter).
  assert (Hk1 : (k < length (examples d))%nat) by (eapply lookup_lt_Some; eauto).
  destruct rest as [|p r].
  - unfold ret at 1. unfold bind at 1.
    rewrite (bind_Ok _ _ _ tt
      (set_examples (alter (ex_set_discarded
         (if index d =? ex_start ex then false else discard)) k (examples d1)) d1))
      by (apply update_example_lt; lia).
    destruct (if index d =? ex_start ex then false else discard);
      destruct d; reflexivity.
  - specialize (Hrest p r eq_refl).
    destruct (ex_trivial ex) eqn:Ht; cbn [negb when].
    + unfold ret at 1. unfold bind at 1.
      rewrite (bind_Ok _ _ _ tt
        (set_examples (alter (ex_set_discarded
           (if index d =? ex_start ex then false else discard)) k (examples d1)) d1))
        by (apply update_example_lt; lia).
      destruct (if index d =? ex_start ex then false else discard);
        destruct d; reflexivity.
    + rewrite (bind_Ok _ _ _ tt
        (set_examples (alter (ex_set_trivial false) p (examples d1)) d1))
        by (apply update_example_lt; lia).
      rewrite (bind_Ok _ _ _ tt
        (set_examples (alter (ex_set_discarded
           (if index d =? ex_start ex then false else discard)) k
           (alter (ex_set_trivial false) p (examples d1)))
           (set_examples (alter (ex_set_trivial false) p (examples d1)) d1))).
      * destruct (if index d =? ex_start ex then false else discard);
          destruct d; reflexivity.
      * rewrite update_example_lt; [destruct d; reflexivity|].
        destruct d; cbn in *. rewrite !length_alter. lia.
Qed.


Lemma after_stop_examples_length discard k rest ex d :
  length (examples (after_stop discard k rest ex d)) = length (examples d).
Proof.
  unfold after_stop. destruct d; cbn.
  rewrite length_alter. destruct rest; [|destruct (negb (ex_trivial ex))];
    rewrite ?length_alter; reflexivity.
Qed.

Lemma after_stop_stack discard k rest ex d :
  example_stack (after_stop discard k rest ex d) = rest.
Proof. reflexivity. Qed.

Lemma after_stop_frozen discard k rest ex d :
  frozen (after_stop discard k rest ex d) = frozen d.
Proof. reflexivity. Qed.

Lemma stop_example_step discard d k rest :
  frozen d = false -> stack_in_range d -> example_stack d = k :: rest ->
  exists ex, examples d !! k = Some ex
    /\ stop_example discard d = (Ok tt, after_stop discard k rest ex d).
Proof.
  intros Hf Hr Hs. unfold stack_in_range in Hr. rewrite Hs in Hr.
  inversion Hr as [|? ? Hk Hrest]; subst.
  destruct (lookup_lt_is_Some_2 _ _ Hk) as [ex Hex].
  exists ex. split; [exact Hex|].
  apply stop_example_ok; auto.
  intros p r ->. inversion Hrest; subst. assumption.
Qed.

Lemma freeze_loop_spec fuel d :
  frozen d = false -> stack_in_range d ->
  (length (example_stack d) <= fuel)%nat ->
  exists d', freeze_loop fuel d = (Ok tt, d')
    /\ example_stack d' = [] /\ frozen d' = false
    /\ buffer d' = buffer d /\ blocks d' = blocks d
    /\ block_starts d' = block_starts d /\ status d' = status d
    /\ overdraw d' = overdraw d /\ max_length d' = max_length d
    /\ testcounter d' = testcounter d
    /\ length (examples d') = length (examples d).
Proof.
  revert d. induction fuel as [|fuel IH]; intros d Hf Hr Hlen.
  - destruct (example_stack d) eqn:Hs; [|cbn in Hlen; lia].
    exists d. cbn [freeze_loop]. unfold bind, get. rewrite Hs.
    repeat split; auto.
  - destruct (example_stack d) as [|k rest] eqn:Hs.
    + exists d. cbn [freeze_loop]. unfold bind at 1, get at 1. rewrite Hs.
      repeat split; auto.
    + destruct (stop_example_step false d k rest Hf Hr Hs) as (ex & Hex & Hstop).
      destruct (IH (after_stop false k rest ex d)) as (d' & Hd' & Hrest).
      * exact Hf.
      * unfold stack_in_range. rewrite after_stop_examples_length.
        cbn [after_stop]. unfold stack_in_range in Hr. rewrite Hs in Hr.
        inversion Hr; subst. rewrite after_stop_stack. assumption.
      * rewrite after_stop_stack. cbn in Hlen. lia.
      * exists d'. split.
        -- cbn [freeze_loop]. unfold bind at 1, get at 1. rewrite Hs.
           rewrite (bind_Ok _ _ _ _ _ Hstop). exact Hd'.
        -- rewrite after_stop_examples_length in Hrest.
           destruct Hrest as (? & ? & ? & ? & ? & ? & ? & ? & ? & ?).
           destruct d; cbn in *. repeat split; assumption.
Qed.

(** The loop of [freeze] ends with the stack empty: the height of the
    stack is enough fuel. *)
Lemma freeze_loop_empties d :
  frozen d = false -> stack_in_range d ->
  example_stack (snd (freeze_loop (length (example_stack d)) d)) = [].
Proof.
  intros Hf Hr.
  destruct (freeze_loop_spec (length (example_stack d)) d Hf Hr (le_n _))
    as (d' & Hd' & Hs & _).
  now rewrite Hd'.
Qed.

Lemma freeze_frozen d : frozen d = true -> freeze d = (Ok tt, d).
Proof. intros H. unfold freeze, bind, get. now rewrite H. Qed.

Lemma freeze_unfrozen d :
  frozen d = false -> stack_in_range d -> freeze d = (Ok tt, after_freeze d).
Proof.
  intros Hf Hr. unfold freeze. unfold get at 1, bind at 1. rewrite Hf.
  destruct (freeze_loop_spec (length (example_stack d)) d Hf Hr (le_n _))
    as (d' & Hd' & _).
  rewrite (bind_Ok _ _ _ _ _ Hd'). unfold after_freeze. now rewrite Hd'.
Qed.

Lemma check_capacity_fits n d :
  index d + n <= max_length d -> check_capacity n d = (Ok tt, d).
Proof.
  intros H. unfold check_capacity, bind, get.
  replace (index d + n >? max_length d) with false by lia. reflexivity.
Qed.

Lemma check_capacity_overrun n d :
  frozen d = false -> stack_in_range d -> index d + n > max_length d ->
  check_capacity n d = (Raise (StopTest (testcounter d)), after_overrun n d).
Proof.
  intros Hf Hr H. unfold check_capacity. unfold get at 1, bind at 1.
  replace (index d + n >? max_length d) with true by lia.
  unfold modify at 1, bind at 1. unfold modify at 1, bind at 1.
  rewrite (bind_Ok _ _ _ tt (after_overrun n d)).
  - reflexivity.
  - apply freeze_unfrozen; destruct d; assumption.
Qed.

(** ** The masking step *)

Lemma mask_bytes_spec n raw buf :
  Z.of_nat (length raw) = bits_to_bytes n -> mask_bytes n raw = Ok buf ->
  0 <= n /\ length buf = length raw /\ 0 <= int_from_bytes buf < 2 ^ n.
Proof.
  intros Hlen Hm. unfold mask_bytes in Hm.
  destruct (bits_to_bytes_spec n) as [[Hr Hn]|[Hr Hn]].
  - replace (n mod 8 =? 0) with true in Hm by lia. cbn in Hm.
    injection Hm as <-. pose proof (int_from_bytes_range raw) as Hrange.
    rewrite pow256 in Hrange by lia.
    replace (8 * Z.of_nat (length raw)) with n in Hrange by lia.
    split; [lia|]. split; [reflexivity|]. exact Hrange.
  - replace (n mod 8 =? 0) with false in Hm by lia. cbn [negb] in Hm.
    rewrite Z.shiftl_1_l in Hm.
    assert (Hp : 2 <= 2 ^ (n mod 8)).
    { change 2 with (2 ^ 1) at 1. apply Z.pow_le_mono_r; lia. }
    replace (2 ^ (n mod 8) - 1 =? 0) with false in Hm by lia. cbn [negb] in Hm.
    destruct raw as [|b0 rest]; [discriminate|]. cbn in Hm. injection Hm as <-.
    cbn [length] in *.
    assert (Hn' : n = 8 * Z.of_nat (length rest) + n mod 8) by lia.
    split; [lia|]. split; [reflexivity|].
    rewrite int_from_bytes_cons, byte_to_of_Z.
    replace (2 ^ (n mod 8) - 1) with (Z.ones (n mod 8))
      by (rewrite Z.ones_equiv; lia).
    rewrite Z.land_ones by lia.
    pose proof (Z.mod_pos_bound (byte_to_Z b0) (2 ^ (n mod 8)) ltac:(lia)) as Hb.
    assert (Hp2 : 2 ^ (n mod 8) <= 2 ^ 8) by (apply Z.pow_le_mono_r; lia).
    change (2 ^ 8) with 256 in Hp2.
    rewrite Z.mod_small by lia.
    pose proof (int_from_bytes_range rest) as Hrest.
    assert (Hpow : 2 ^ n = 2 ^ (n mod 8) * 256 ^ Z.of_nat (length rest)).
    { rewrite Hn' at 1. rewrite Z.pow_add_r by lia.
      rewrite pow256 by lia. lia. }
    rewrite Hpow. nia.
Qed.

Lemma mask_bytes_total n raw :
  0 <= n -> Z.of_nat (length raw) = bits_to_bytes n ->
  exists buf, mask_bytes n raw = Ok buf.
Proof.
  intros Hn Hlen. unfold mask_bytes.
  destruct (bits_to_bytes_spec n) as [[Hr Hn']|[Hr Hn']].
  - replace (n mod 8 =? 0) with true by lia. cbn. eauto.
  - replace (n mod 8 =? 0) with false by lia. cbn [negb].
    rewrite Z.shiftl_1_l.
    assert (Hp : 2 <= 2 ^ (n mod 8)).
    { change 2 with (2 ^ 1) at 1. apply Z.pow_le_mono_r; lia. }
    replace (2 ^ (n mod 8) - 1 =? 0) with false by lia. cbn [negb].
    destruct raw as [|b0 rest]; cbn; [|eauto].
    cbn in Hlen. pose proof (Z.div_pos n 8 Hn ltac:(lia)).
    unfold bits_to_bytes in Hlen.
    replace (n mod 8 =? 0) with false in Hlen by lia. cbn in Hlen. lia.
Qed.

(** Bytes whose value already fits in [n] bits pass the mask unchanged. *)
Lemma mask_bytes_id n raw buf :
  Z.of_nat (length raw) = bits_to_bytes n -> int_from_bytes raw < 2 ^ n ->
  mask_bytes n raw = Ok buf -> buf = raw.
Proof.
  intros Hlen Hv Hm. unfold mask_bytes in Hm.
  destruct (bits_to_bytes_spec n) as [[Hr Hn]|[Hr Hn]].
  - replace (n mod 8 =? 0) with true in Hm by lia. cbn in Hm. congruence.
  - replace (n mod 8 =? 0) with false in Hm by lia. cbn [negb] in Hm.
    rewrite Z.shiftl_1_l in Hm.
    assert (Hp : 2 <= 2 ^ (n mod 8)).
    { change 2 with (2 ^ 1) at 1. apply Z.pow_le_mono_r; lia. }
    replace (2 ^ (n mod 8) - 1 =? 0) with false in Hm by lia. cbn [negb] in Hm.
    destruct raw as [|b0 rest]; [discriminate|]. cbn in Hm. injection Hm as <-.
    cbn [length] in *.
    assert (Hn' : n = 8 * Z.of_nat (length rest) + n mod 8) by lia.
    f_equal.
    replace (2 ^ (n mod 8) - 1) with (Z.ones (n mod 8))
      by (rewrite Z.ones_equiv; lia).
    rewrite Z.land_ones by lia.
    rewrite int_from_bytes_cons in Hv.
    pose proof (int_from_bytes_range rest) as Hrest.
    pose proof (byte_to_Z_range b0) as Hb0.
    assert (Hpow : 2 ^ n = 2 ^ (n mod 8) * 256 ^ Z.of_nat (length rest)).
    { rewrite Hn' at 1. rewrite Z.pow_add_r by lia.
      rewrite pow256 by lia. lia. }
    rewrite Hpow in Hv.
    assert (Hlt : byte_to_Z b0 < 2 ^ (n mod 8)) by nia.
    rewrite Z.mod_small by lia. apply byte_of_to_Z.
Qed.

Lemma mask_step n raw buf d :
  mask_bytes n raw = Ok buf ->
  (if negb (n mod 8 =? 0)
   then run assert (negb (Z.shiftl 1 (n mod 8) - 1 =? 0)) then
        lift (mask_first (Z.shiftl 1 (n mod 8) - 1) raw)
   else ret raw) d = (Ok buf, d).
Proof.
  unfold mask_bytes. intros H.
  destruct (negb (n mod 8 =? 0)); [|unfold ret; congruence].
  destruct (negb (Z.shiftl 1 (n mod 8) - 1 =? 0)); [|discriminate].
  unfold assert, bind, ret, lift. now rewrite H.
Qed.

Lemma mask_step_Raise n raw e d :
  mask_bytes n raw = Raise e ->
  (if negb (n mod 8 =? 0)
   then run assert (negb (Z.shiftl 1 (n mod 8) - 1 =? 0)) then
        lift (mask_first (Z.shiftl 1 (n mod 8) - 1) raw)
   else ret raw) d = (Raise e, d).
Proof.
  unfold mask_bytes. intros H.
  destruct (negb (n mod 8 =? 0)); [|unfold ret; congruence].
  destruct (negb (Z.shiftl 1 (n mod 8) - 1 =? 0)).
  - unfold assert, bind, ret, lift. now rewrite H.
  - injection H as <-. reflexivity.
Qed.

Lemma raw_step src n_bytes forced d :
  (match forced with
   | Some f => lift (int_to_bytes f n_bytes)
   | None => fun d => (src d n_bytes, d)
   end) d = (raw_bytes src n_bytes forced d, d).
Proof. destruct forced; reflexivity. Qed.

(** ** The atomic draw *)

Section Draws.

Variable calc : string -> Z.

Lemma after_start_examples_length label d :
  length (examples (after_start label d)) = S (length (examples d)).
Proof.
  unfold after_start. destruct d; cbn.
  destruct example_stack0; rewrite ?length_alter, length_app; cbn; lia.
Qed.

Lemma after_start_new_example label d :
  top_in_range d ->
  examples (after_start label d) !! length (examples d)
  = Some (mkExample (depth d + 1) label (length (examples d)) (index d)
            None true None []).
Proof.
  intros Htop. unfold after_start.
  destruct (example_stack d) as [|p rest] eqn:Hs; destruct d; cbn in *.
  - rewrite lookup_app_r by lia. now rewrite Nat.sub_diag.
  - specialize (Htop p rest Hs). cbn in Htop.
    rewrite list_lookup_alter_ne by lia.
    rewrite lookup_app_r by lia. now rewrite Nat.sub_diag.
Qed.

Lemma draw_bits_ok src n forced d raw buf :
  frozen d = false -> top_in_range d ->
  index d + bits_to_bytes n <= max_length d ->
  raw_bytes src (bits_to_bytes n) forced d = Ok raw ->
  Z.of_nat (length raw) = bits_to_bytes n ->
  mask_bytes n raw = Ok buf ->
  draw_bits calc src n forced d
  = (Ok (int_from_bytes buf),
     after_draw (DRAW_BYTES_LABEL calc) n (is_Some_b forced) buf d).
Proof.
  intros Hf Htop Hcap Hraw Hlen Hmask.
  destruct (mask_bytes_spec _ _ _ Hlen Hmask) as (Hn & Hbl & Hv).
  unfold draw_bits.
  rewrite (bind_Ok _ _ _ _ _ (assert_not_frozen_unfrozen _ _ Hf)).
  rewrite (bind_Ok _ _ _ _ _ (check_capacity_fits _ _ Hcap)).
  erewrite (bind_Ok _ _ d raw d) by (rewrite raw_step, Hraw; reflexivity).
  replace (Z.of_nat (length raw) =? bits_to_bytes n) with true by lia.
  unfold assert at 1, ret at 1, bind at 1.
  rewrite (bind_Ok _ _ _ _ _ (mask_step _ _ _ _ Hmask)).
  rewrite (bind_Ok _ _ _ _ _ (start_example_ok _ _ Hf Htop)).
  unfold get at 1, bind at 1.
  set (d1 := after_start (DRAW_BYTES_LABEL calc) d).
  set (i := length (examples d)).
  set (block := mkBlock (index d1) (index d1 + bits_to_bytes n) n
                  (length (blocks d1))
                  match forced with Some _ => true | None => false end
                  (int_from_bytes buf =? 0)).
  assert (Hi : examples d1 !! i
               = Some (mkExample (depth d + 1) (DRAW_BYTES_LABEL calc) i (index d)
                         None true None []))
    by (apply after_start_new_example; assumption).
  rewrite (bind_Ok _ _ _ _ _ (update_example_Some _ _ _ _ Hi)).
  unfold modify at 1, bind at 1. unfold modify at 1, bind at 1.
  match goal with |- _ ?st = _ => set (d4 := st) end.
  assert (Hblocks : blocks d4 = blocks d1 ++ [block]) by (destruct d1; reflexivity).
  assert (Hbuffer : buffer d4 = buffer d1) by (destruct d1; reflexivity).
  rewrite (bind_Ok _ _ _ tt d4).
  2:{ unfold bind, get. rewrite Hblocks. cbn [b_index block].
      rewrite lookup_app_r by lia. rewrite Nat.sub_diag. cbn.
      rewrite bool_decide_eq_true_2 by reflexivity. reflexivity. }
  rewrite (bind_Ok _ _ _ tt d4).
  2:{ unfold bind, get, index. rewrite Hbuffer.
      rewrite Z.eqb_refl. reflexivity. }
  unfold modify at 1, bind at 1.
  assert (Hrec : set_buffer (buffer d4 ++ buf) d4
                 = record_block n (bits_to_bytes n) (is_Some_b forced) buf i d1).
  { unfold record_block, new_block, is_Some_b. subst d4 block.
    destruct d1; reflexivity. }
  rewrite Hrec.
  set (ex' := mkExample (depth d + 1) (DRAW_BYTES_LABEL calc) i (index d) None
                (block_trivial
                   (new_block n (bits_to_bytes n) (is_Some_b forced) buf d1))
                None []).
  assert (Hstop : stop_example false
                    (record_block n (bits_to_bytes n) (is_Some_b forced) buf i d1)
                  = (Ok tt, after_stop false i (example_stack d) ex'
                       (record_block n (bits_to_bytes n) (is_Some_b forced) buf i d1))).
  { apply stop_example_ok.
    - subst d1. destruct d; exact Hf.
    - subst d1. destruct d; reflexivity.
    - unfold record_block. cbn [examples set_buffer set_blocks set_block_starts set_examples].
      rewrite list_lookup_alter_eq, Hi. reflexivity.
    - intros p r Hs. unfold record_block.
      cbn [examples set_buffer set_blocks set_block_starts set_examples].
      rewrite length_alter. subst d1. rewrite after_start_examples_length.
      specialize (Htop p r Hs). lia. }
  rewrite (bind_Ok _ _ _ _ _ Hstop).
  replace (bit_length (int_from_bytes buf) <=? n) with true
    by (symmetry; apply Z.leb_le; apply bit_length_le; lia).
  reflexivity.
Qed.

Lemma draw_bits_frozen src n forced d :
  frozen d = true ->
  draw_bits calc src n forced d
  = (Raise (Frozen (frozen_message "draw_bits")), d).
Proof.
  intros Hf. unfold draw_bits.
  now rewrite (bind_Raise _ _ _ _ _ (assert_not_frozen_frozen _ _ Hf)).
Qed.

Lemma draw_bits_overrun src n forced d :
  frozen d = false -> stack_in_range d ->
  index d + bits_to_bytes n > max_length d ->
  draw_bits calc src n forced d
  = (Raise (StopTest (testcounter d)), after_overrun (bits_to_bytes n) d).
Proof.
  intros Hf Hr Hcap. unfold draw_bits.
  rewrite (bind_Ok _ _ _ _ _ (assert_not_frozen_unfrozen _ _ Hf)).
  now rewrite (bind_Raise _ _ _ _ _ (check_capacity_overrun _ _ Hf Hr Hcap)).
Qed.

Lemma stack_in_range_top d : stack_in_range d -> top_in_range d.
Proof.
  intros Hr p rest Hs. unfold stack_in_range in Hr. rewrite Hs in Hr.
  now inversion Hr.
Qed.

(** The three ways a call of [draw_bits] can end. *)
Lemma draw_bits_cases src n forced d :
  stack_in_range d ->
  (exists e, draw_bits calc src n forced d = (Raise e, d))
  \/ (frozen d = false /\ index d + bits_to_bytes n > max_length d
      /\ draw_bits calc src n forced d
         = (Raise (StopTest (testcounter d)), after_overrun (bits_to_bytes n) d))
  \/ (exists raw buf,
        frozen d = false /\ index d + bits_to_bytes n <= max_length d
        /\ raw_bytes src (bits_to_bytes n) forced d = Ok raw
        /\ Z.of_nat (length raw) = bits_to_bytes n
        /\ mask_bytes n raw = Ok buf
        /\ draw_bits calc src n forced d
           = (Ok (int_from_bytes buf),
              after_draw (DRAW_BYTES_LABEL calc) n (is_Some_b forced) buf d)).
Proof.
  intros Hr.
  destruct (frozen d) eqn:Hf.
  { left. eexists. now apply draw_bits_frozen. }
  destruct (Z_gt_le_dec (index d + bits_to_bytes n) (max_length d)) as [Hcap|Hcap].
  { right; left. split; [reflexivity|]. split; [assumption|].
    now apply draw_bits_overrun. }
  destruct (raw_bytes src (bits_to_bytes n) forced d) as [raw|e] eqn:Hraw.
  2:{ left. exists e. unfold draw_bits.
      rewrite (bind_Ok _ _ _ _ _ (assert_not_frozen_unfrozen _ _ Hf)).
      rewrite (bind_Ok _ _ _ _ _ (check_capacity_fits _ _ Hcap)).
      erewrite (bind_Raise _ _ d e d) by (rewrite raw_step, Hraw; reflexivity).
      reflexivity. }
  destruct (Z.eq_dec (Z.of_nat (length raw)) (bits_to_bytes n)) as [Hlen|Hlen].
  2:{ left. exists AssertionError. unfold draw_bits.
      rewrite (bind_Ok _ _ _ _ _ (assert_not_frozen_unfrozen _ _ Hf)).
      rewrite (bind_Ok _ _ _ _ _ (check_capacity_fits _ _ Hcap)).
      erewrite (bind_Ok _ _ d raw d) by (rewrite raw_step, Hraw; reflexivity).
      replace (Z.of_nat (length raw) =? bits_to_bytes n) with false by lia.
      reflexivity. }
  destruct (mask_bytes n raw) as [buf|e] eqn:Hmask.
  2:{ left. exists e. unfold draw_bits.
      rewrite (bind_Ok _ _ _ _ _ (assert_not_frozen_unfrozen _ _ Hf)).
      rewrite (bind_Ok _ _ _ _ _ (check_capacity_fits _ _ Hcap)).
      erewrite (bind_Ok _ _ d raw d) by (rewrite raw_step, Hraw; reflexivity).
      replace (Z.of_nat (length raw) =? bits_to_bytes n) with true by lia.
      unfold assert at 1, ret at 1, bind at 1.
      now rewrite (bind_Raise _ _ _ _ _ (mask_step_Raise _ _ _ _ Hmask)). }
  right; right. exists raw, buf. repeat (split; [assumption || reflexivity|]).
  apply (draw_bits_ok src n forced d raw buf); auto using stack_in_range_top.
Qed.

(** Fields of the record a successful draw leaves behind. *)
Lemma after_draw_buffer label n isf buf d :
  buffer (after_draw label n isf buf d) = buffer d ++ buf.
Proof. unfold after_draw. destruct d; reflexivity. Qed.

Lemma after_draw_blocks label n isf buf d :
  blocks (after_draw label n isf buf d)
  = blocks d ++ [new_block n (bits_to_bytes n) isf buf d].
Proof. unfold after_draw. destruct d; reflexivity. Qed.

Lemma after_draw_block_starts label n isf buf d :
  block_starts (after_draw label n isf buf d)
  = <[bits_to_bytes n := default [] (block_starts d !! bits_to_bytes n) ++ [index d]]>
      (block_starts d).
Proof. unfold after_draw. destruct d; reflexivity. Qed.

Lemma after_draw_stack label n isf buf d :
  example_stack (after_draw label n isf buf d) = example_stack d.
Proof. unfold after_draw. destruct d; reflexivity. Qed.

Lemma after_draw_frozen label n isf buf d :
  frozen (after_draw label n isf buf d) = frozen d.
Proof. unfold after_draw. destruct d; reflexivity. Qed.

Lemma after_stop_has_discards_false k rest ex d :
  has_discards (after_stop false k rest ex d) = has_discards d.
Proof.
  unfold after_stop. cbn [has_discards set_has_discards].
  destruct (index d =? ex_start ex); reflexivity.
Qed.

Lemma after_draw_misc label n isf buf d :
  status (after_draw label n isf buf d) = status d
  /\ max_length (after_draw label n isf buf d) = max_length d
  /\ overdraw (after_draw label n isf buf d) = overdraw d
  /\ has_discards (after_draw label n isf buf d) = has_discards d
  /\ length (examples (after_draw label n isf buf d)) = S (length (examples d)).
Proof.
  split; [reflexivity|]. split; [reflexivity|]. split; [reflexivity|].
  split.
  - unfold after_draw. rewrite after_stop_has_discards_false. reflexivity.
  - unfold after_draw. rewrite after_stop_examples_length.
    unfold record_block.
    cbn [examples set_buffer set_blocks set_block_starts set_examples].
    rewrite length_alter. apply after_start_examples_length.
Qed.

(** The primitive example of a draw, once closed. *)
Lemma after_draw_example label n isf buf d :
  top_in_range d ->
  examples (after_draw label n isf buf d) !! length (examples d)
  = Some (mkExample (depth d + 1) label (length (examples d)) (index d)
            (Some (index d + Z.of_nat (length buf)))
            (block_trivial (new_block n (bits_to_bytes n) isf buf d))
            (Some false) []).
Proof.
  intros Htop. pose proof (after_start_new_example label d Htop) as Hi.
  unfold after_draw, after_stop.
  cbn [examples set_has_discards set_examples set_example_stack].
  set (d1 := after_start label d) in *.
  set (d2 := record_block n (bits_to_bytes n) isf buf (length (examples d)) d1).
  assert (Hd2 : examples d2 !! length (examples d)
                = Some (mkExample (depth d + 1) label (length (examples d)) (index d)
                          None (block_trivial (new_block n (bits_to_bytes n) isf buf d1))
                          None [])).
  { subst d2. unfold record_block.
    cbn [examples set_buffer set_blocks set_block_starts set_examples].
    rewrite list_lookup_alter_eq, Hi. reflexivity. }
  assert (Hidx : index d2 = index d + Z.of_nat (length buf)).
  { subst d2 d1. unfold index. destruct d; cbn. rewrite length_app. lia. }
  assert (Hnb : new_block n (bits_to_bytes n) isf buf d1
                = new_block n (bits_to_bytes n) isf buf d)
    by (subst d1; destruct d; reflexivity).
  rewrite Hnb in *.
  rewrite list_lookup_alter_eq.
  destruct (example_stack d) as [|p rest] eqn:Hs.
  - rewrite list_lookup_alter_eq, Hd2. cbn. rewrite Hidx.
    destruct (_ =? _); reflexivity.
  - specialize (Htop p rest Hs).
    destruct (negb _).
    + rewrite list_lookup_alter_ne by lia.
      rewrite list_lookup_alter_eq, Hd2. cbn. rewrite Hidx.
      destruct (_ =? _); reflexivity.
    + rewrite list_lookup_alter_eq, Hd2. cbn. rewrite Hidx.
      destruct (_ =? _); reflexivity.
Qed.


(** ** Fields of examples under the mutations *)

Lemma proj_alter_same {A} (g : Example -> A) (f : Example -> Example)
    (k : nat) (l : list Example) (i : nat) :
  (forall e, g (f e) = g e) -> g <$> alter f k l !! i = g <$> l !! i.
Proof.
  intros Hg. rewrite list_lookup_alter.
  destruct (decide (k = i)) as [->|]; [|reflexivity].
  destruct (l !! i); cbn; [now rewrite Hg|reflexivity].
Qed.

Lemma proj_alter_at {A} (g : Example -> A) (f : Example -> Example)
    (k : nat) (l : list Example) (i : nat) :
  g <$> alter f k l !! i
  = if decide (k = i) then (fun e => g (f e)) <$> l !! i else g <$> l !! i.
Proof.
  rewrite list_lookup_alter.
  destruct (decide (k = i)) as [->|]; [|reflexivity].
  destruct (l !! i); reflexivity.
Qed.

Lemma proj_snoc {A} (g : Example -> A) (l : list Example) (x : Example) (i : nat) :
  g <$> (l ++ [x]) !! i
  = if decide (i = length l) then Some (g x) else g <$> l !! i.
Proof.
  destruct (decide (i = length l)) as [->|Hne].
  - rewrite lookup_app_r by lia. now rewrite Nat.sub_diag.
  - destruct (decide (i < length l)%nat).
    + now rewrite lookup_app_l by lia.
    + rewrite !lookup_ge_None_2; [reflexivity|lia|].
      rewrite length_app. cbn. lia.
Qed.

Lemma proj_Some_lt {A} (g : Example -> A) (l : list Example) (i : nat) (x : A) :
  g <$> l !! i = Some x -> (i < length l)%nat.
Proof.
  intros H. destruct (l !! i) eqn:E; [|discriminate].
  eapply lookup_lt_Some; eauto.
Qed.

Lemma proj_lt_Some {A} (g : Example -> A) (l : list Example) (i : nat) :
  (i < length l)%nat -> exists x, g <$> l !! i = Some x.
Proof.
  intros H. destruct (lookup_lt_is_Some_2 _ _ H) as [e He].
  rewrite He. cbn. eauto.
Qed.

Ltac proj_same :=
  intros; unfold idx_of, start_of, end_of, trivial_of, children_of;
  apply proj_alter_same; reflexivity.

Lemma idx_of_set_end v k l i : idx_of (alter (ex_set_end v) k l) i = idx_of l i.
Proof. proj_same. Qed.
Lemma idx_of_set_trivial v k l i : idx_of (alter (ex_set_trivial v) k l) i = idx_of l i.
Proof. proj_same. Qed.
Lemma idx_of_set_discarded v k l i : idx_of (alter (ex_set_discarded v) k l) i = idx_of l i.
Proof. proj_same. Qed.
Lemma idx_of_add_child c k l i : idx_of (alter (ex_add_child c) k l) i = idx_of l i.
Proof. proj_same. Qed.
Lemma start_of_set_end v k l i : start_of (alter (ex_set_end v) k l) i = start_of l i.
Proof. proj_same. Qed.
Lemma start_of_set_trivial v k l i : start_of (alter (ex_set_trivial v) k l) i = start_of l i.
Proof. proj_same. Qed.
Lemma start_of_set_discarded v k l i : start_of (alter (ex_set_discarded v) k l) i = start_of l i.
Proof. proj_same. Qed.
Lemma start_of_add_child c k l i : start_of (alter (ex_add_child c) k l) i = start_of l i.
Proof. proj_same. Qed.
Lemma end_of_set_trivial v k l i : end_of (alter (ex_set_trivial v) k l) i = end_of l i.
Proof. proj_same. Qed.
Lemma end_of_set_discarded v k l i : end_of (alter (ex_set_discarded v) k l) i = end_of l i.
Proof. proj_same. Qed.
Lemma end_of_add_child c k l i : end_of (alter (ex_add_child c) k l) i = end_of l i.
Proof. proj_same. Qed.
Lemma trivial_of_set_end v k l i : trivial_of (alter (ex_set_end v) k l) i = trivial_of l i.
Proof. proj_same. Qed.
Lemma trivial_of_set_discarded v k l i : trivial_of (alter (ex_set_discarded v) k l) i = trivial_of l i.
Proof. proj_same. Qed.
Lemma trivial_of_add_child c k l i : trivial_of (alter (ex_add_child c) k l) i = trivial_of l i.
Proof. proj_same. Qed.
Lemma children_of_set_end v k l i : children_of (alter (ex_set_end v) k l) i = children_of l i.
Proof. proj_same. Qed.
Lemma children_of_set_trivial v k l i : children_of (alter (ex_set_trivial v) k l) i = children_of l i.
Proof. proj_same. Qed.
Lemma children_of_set_discarded v k l i : children_of (alter (ex_set_discarded v) k l) i = children_of l i.
Proof. proj_same. Qed.

Create Rewrite HintDb proj.
#[local] Hint Rewrite idx_of_set_end idx_of_set_trivial idx_of_set_discarded
  idx_of_add_child start_of_set_end start_of_set_trivial start_of_set_discarded
  start_of_add_child end_of_set_trivial end_of_set_discarded end_of_add_child
  trivial_of_set_end trivial_of_set_discarded trivial_of_add_child
  children_of_set_end children_of_set_trivial children_of_set_discarded
  @length_alter : proj.

Lemma end_of_set_end v k l i :
  end_of (alter (ex_set_end v) k l) i
  = if decide (k = i) then (fun _ => Some v) <$> l !! i else end_of l i.
Proof. unfold end_of. now rewrite proj_alter_at. Qed.

Lemma trivial_of_set_trivial v k l i :
  trivial_of (alter (ex_set_trivial v) k l) i
  = if decide (k = i) then (fun _ => v) <$> l !! i else trivial_of l i.
Proof. unfold trivial_of. now rewrite proj_alter_at. Qed.

Lemma children_of_add_child c k l i :
  children_of (alter (ex_add_child c) k l) i
  = if decide (k = i) then (fun e => ex_children e ++ [c]) <$> l !! i
    else children_of l i.
Proof. unfold children_of. now rewrite proj_alter_at. Qed.

(** ** The example tree is preserved *)

Lemma ExInv_grow exs stk len len' :
  len <= len' -> ExInv exs stk len -> ExInv exs stk len'.
Proof.
  intros Hle [H1 H2 H3 H4 H5 H6 H7 H8 H9]. constructor; auto.
  - intros i s Hs. specialize (H2 i s Hs). lia.
  - intros i s en Hs He. specialize (H3 i s en Hs He). lia.
Qed.

Lemma ExInv_set_trivial v k exs stk len :
  ExInv exs stk len -> ExInv (alter (ex_set_trivial v) k exs) stk len.
Proof.
  intros [H1 H2 H3 H4 H5 H6 H7 H8 H9].
  constructor; intros *; autorewrite with proj; eauto.
Qed.

Lemma ExInv_set_discarded v k exs stk len :
  ExInv exs stk len -> ExInv (alter (ex_set_discarded v) k exs) stk len.
Proof.
  intros [H1 H2 H3 H4 H5 H6 H7 H8 H9].
  constructor; intros *; autorewrite with proj; eauto.
Qed.

Lemma sorted_top_max k rest x :
  StronglySorted (fun a b => (b < a)%nat) (k :: rest) ->
  x ∈ k :: rest -> (x <= k)%nat.
Proof.
  intros Hs Hx. apply StronglySorted_inv in Hs as [_ Hall].
  apply elem_of_cons in Hx as [->|Hx]; [lia|].
  rewrite Forall_forall in Hall. specialize (Hall x Hx). lia.
Qed.

Lemma sorted_top_fresh k rest :
  StronglySorted (fun a b => (b < a)%nat) (k :: rest) -> k ∉ rest.
Proof.
  intros Hs Hk. apply StronglySorted_inv in Hs as [_ Hall].
  rewrite Forall_forall in Hall. specialize (Hall k Hk). lia.
Qed.

(** In a well-formed tree the children of the top of the stack are all
    closed. *)
Lemma ExInv_top_children_closed exs k rest len cs c :
  ExInv exs (k :: rest) len ->
  children_of exs k = Some cs -> c ∈ cs ->
  exists s cn, start_of exs c = Some s /\ end_of exs c = Some (Some cn)
               /\ s <= cn <= len.
Proof.
  intros HI Hcs Hc.
  destruct (e_child_lt _ _ _ HI k cs c Hcs Hc) as [Hlt Hlen].
  destruct (proj_lt_Some ex_start exs c Hlen) as [s Hs].
  destruct (proj_lt_Some ex_end exs c Hlen) as [[cn|] He].
  - exists s, cn. repeat split; try assumption; eapply (e_end _ _ _ HI); eauto.
  - apply (e_open _ _ _ HI) in He.
    pose proof (sorted_top_max _ _ _ (e_sorted _ _ _ HI) He). lia.
Qed.

Lemma ExInv_close exs k rest len :
  ExInv exs (k :: rest) len ->
  ExInv (alter (ex_set_end len) k exs) rest len.
Proof.
  intros HI. pose proof HI as [H1 H2 H3 H4 H5 H6 H7 H8 H9].
  assert (Hk : end_of exs k = Some None) by (apply H4; left).
  assert (Hkl : (k < length exs)%nat) by (eapply proj_Some_lt; exact Hk).
  destruct (lookup_lt_is_Some_2 _ _ Hkl) as [ek Hek].
  assert (Hfresh : k ∉ rest) by (apply sorted_top_fresh; assumption).
  constructor; intros *; autorewrite with proj; rewrite ?end_of_set_end; eauto.
  - (* e_end *)
    intros Hs. destruct (decide (k = i)) as [<-|Hne]; [|eauto].
    rewrite Hek. cbn. intros [= <-]. specialize (H2 k s Hs). lia.
  - (* e_open *)
    destruct (decide (k = i)) as [<-|Hne].
    + rewrite Hek. cbn. split; [contradiction|discriminate].
    + rewrite <- (H4 i). rewrite elem_of_cons. intuition congruence.
  - (* e_sorted *)
    apply StronglySorted_inv in H5. tauto.
  - (* e_child_end *)
    intros Hcs Hc. destruct (decide (k = p)) as [<-|Hne].
    + rewrite Hek. cbn. intros [= <-].
      destruct (ExInv_top_children_closed _ _ _ _ _ _ HI Hcs Hc)
        as (s & cn & Hs & He & Hle).
      pose proof (H7 _ _ _ Hcs Hc).
      exists cn. destruct (decide (k = c)); [lia|]. split; [assumption|lia].
    + intros Hp. destruct (H8 _ _ _ _ Hcs Hc Hp) as (cn & Hcn & Hle).
      exists cn. destruct (decide (k = c)) as [<-|]; [congruence|]. auto.
  - (* e_siblings *)
    intros Hcs Hlt Hc1 Hc2.
    destruct (H9 _ _ _ _ _ _ Hcs Hlt Hc1 Hc2) as (Hc & n1 & s2 & Hn1 & Hs2 & Hle).
    split; [assumption|]. exists n1, s2.
    destruct (decide (k = c1)) as [<-|]; [congruence|]. auto.
Qed.


Lemma opened_length exs stk ex : length (opened exs stk ex) = S (length exs).
Proof.
  unfold opened. destruct stk; rewrite ?length_alter, length_app; cbn; lia.
Qed.

Lemma opened_proj {A} (g : Example -> A) exs stk ex i :
  (forall c e, g (ex_add_child c e) = g e) ->
  g <$> opened exs stk ex !! i
  = if decide (i = length exs) then Some (g ex) else g <$> exs !! i.
Proof.
  intros Hg. unfold opened. destruct stk as [|p rest].
  - apply proj_snoc.
  - rewrite proj_alter_same by (intros; apply Hg). apply proj_snoc.
Qed.

Lemma opened_children exs stk ex q :
  (forall p, p ∈ stk -> (p < length exs)%nat) ->
  children_of (opened exs stk ex) q
  = if decide (q = length exs) then Some (ex_children ex)
    else match stk with
         | p :: _ => if decide (p = q)
                     then (fun cs => cs ++ [length exs]) <$> children_of exs q
                     else children_of exs q
         | [] => children_of exs q
         end.
Proof.
  intros Hstk. unfold opened, children_of. destruct stk as [|p rest].
  - apply proj_snoc.
  - assert (p < length exs)%nat by (apply Hstk; left).
    rewrite proj_alter_at. destruct (decide (p = q)) as [<-|Hne].
    + destruct (decide (p = length exs)); [lia|].
      rewrite lookup_app_l by lia. destruct (exs !! p); reflexivity.
    + apply proj_snoc.
Qed.

Lemma ExInv_open exs stk len dep label :
  ExInv exs stk len -> 0 <= len ->
  ExInv (opened exs stk (mkExample dep label (length exs) len None true None []))
        (length exs :: stk) len.
Proof.
  intros HI Hlen. pose proof HI as [H1 H2 H3 H4 H5 H6 H7 H8 H9].
  set (ex := mkExample dep label (length exs) len None true None []).
  assert (Hstk : forall p, p ∈ stk -> (p < length exs)%nat).
  { intros p Hp. apply H4 in Hp. eapply proj_Some_lt; eauto. }
  constructor; intros *; unfold idx_of, start_of, end_of;
    rewrite ?opened_children, ?opened_length by assumption;
    rewrite ?opened_proj by reflexivity;
    fold (idx_of exs) (start_of exs) (end_of exs).
  - (* e_index *)
    destruct (decide (i = length exs)) as [->|]; [cbn; congruence|eauto].
  - (* e_start *)
    destruct (decide (i = length exs)) as [->|]; [cbn; intros [= <-]; lia|eauto].
  - (* e_end *)
    destruct (decide (i = length exs)) as [->|]; [cbn; discriminate|eauto].
  - (* e_open *)
    destruct (decide (i = length exs)) as [->|Hne].
    + cbn. split; [reflexivity|intros _; left].
    + rewrite <- (H4 i). rewrite elem_of_cons. intuition congruence.
  - (* e_sorted *)
    constructor; [assumption|]. apply Forall_forall. intros p Hp.
    apply Hstk. assumption.
  - (* e_mono *)
    intros Hij Hi Hj. destruct (decide (j = length exs)) as [->|Hnj].
    + injection Hj as <-. destruct (decide (i = length exs)) as [->|Hni].
      * injection Hi as <-. lia.
      * specialize (H2 i si Hi). lia.
    + assert (j < length exs)%nat by (eapply proj_Some_lt; exact Hj).
      destruct (decide (i = length exs)); [lia|]. eauto.
  - (* e_child_lt *)
    destruct (decide (p = length exs)) as [->|Hnp].
    + cbn. intros [= <-] Hc. inversion Hc.
    + destruct stk as [|q rest].
      * intros Hcs Hc. specialize (H7 _ _ _ Hcs Hc). lia.
      * destruct (decide (q = p)) as [->|Hqp].
        -- destruct (children_of exs p) as [cs0|] eqn:Hcs0; [|discriminate].
           cbn. intros [= <-] Hc. apply elem_of_app in Hc as [Hc|Hc].
           ++ specialize (H7 _ _ _ Hcs0 Hc). lia.
           ++ apply list_elem_of_singleton in Hc as ->.
              assert (p < length exs)%nat by (apply Hstk; left). lia.
        -- intros Hcs Hc. specialize (H7 _ _ _ Hcs Hc). lia.
  - (* e_child_end *)
    destruct (decide (p = length exs)) as [->|Hnp];
      [cbn; intros [= <-] Hc; inversion Hc|].
    assert (Hold : forall cs0, children_of exs p = Some cs0 -> c ∈ cs0 ->
              end_of exs p = Some (Some en) ->
              exists cn,
                (if decide (c = length exs) then Some (ex_end ex) else end_of exs c)
                = Some (Some cn) /\ cn <= en).
    { intros cs0 Hcs Hc Hp. destruct (H8 _ _ _ _ Hcs Hc Hp) as (cn & Hcn & Hle).
      exists cn. specialize (H7 _ _ _ Hcs Hc).
      destruct (decide (c = length exs)); [lia|]. auto. }
    destruct stk as [|q rest]; [eauto|].
    destruct (decide (q = p)) as [->|Hqp]; [|eauto].
    intros _ _ Hp. assert (Hopen : end_of exs p = Some None) by (apply H4; left).
    unfold end_of in Hopen. congruence.
  - (* e_siblings *)
    destruct (decide (p = length exs)) as [->|Hnp];
      [cbn; intros [= <-] _ Hc; inversion Hc|].
    assert (Hold : forall cs0, children_of exs p = Some cs0 -> (j1 < j2)%nat ->
              cs0 !! j1 = Some c1 -> cs0 !! j2 = Some c2 ->
              (c1 < c2)%nat /\ exists n1 s2,
                (if decide (c1 = length exs) then Some (ex_end ex) else end_of exs c1)
                = Some (Some n1)
                /\ (if decide (c2 = length exs) then Some (ex_start ex)
                    else start_of exs c2) = Some s2
                /\ n1 <= s2).
    { intros cs0 Hcs Hlt Hc1 Hc2.
      destruct (H9 _ _ _ _ _ _ Hcs Hlt Hc1 Hc2) as (Hc & n1 & s2 & Hn1 & Hs2 & Hle).
      split; [assumption|]. exists n1, s2.
      assert (c1 < length exs)%nat by (eapply proj_Some_lt; exact Hn1).
      assert (c2 < length exs)%nat by (eapply proj_Some_lt; exact Hs2).
      destruct (decide (c1 = length exs)); [lia|].
      destruct (decide (c2 = length exs)); [lia|]. auto. }
    destruct stk as [|q rest]; [eauto|].
    destruct (decide (q = p)) as [->|Hqp]; [|eauto].
    destruct (children_of exs p) as [cs0|] eqn:Hcs0; [|discriminate].
    cbn. intros [= <-] Hlt Hc1 Hc2.
    destruct (decide (j2 < length cs0)%nat) as [Hj2|Hj2].
    + rewrite lookup_app_l in Hc1 by lia. rewrite lookup_app_l in Hc2 by lia.
      eauto.
    + assert (j2 = length cs0) as ->.
      { apply lookup_lt_Some in Hc2. rewrite length_app in Hc2. cbn in Hc2. lia. }
      rewrite lookup_app_r in Hc2 by lia. rewrite Nat.sub_diag in Hc2.
      injection Hc2 as <-. rewrite lookup_app_l in Hc1 by lia.
      assert (Hc1in : c1 ∈ cs0) by (eapply list_elem_of_lookup_2; eauto).
      destruct (ExInv_top_children_closed _ _ _ _ _ _ HI Hcs0 Hc1in)
        as (s & cn & Hs & He & Hle).
      specialize (H7 _ _ _ Hcs0 Hc1in).
      split; [lia|]. exists cn, len.
      destruct (decide (c1 = length exs)); [lia|].
      destruct (decide (length exs = length exs)); [|congruence].
      repeat split; [assumption|lia].
Qed.

(** ** The block list is preserved *)

Lemma slice_offset_in (len i : Z) : 0 <= i <= len -> slice_offset len i = i.
Proof.
  intros H. unfold slice_offset. replace (i <? 0) with false by lia. lia.
Qed.

Lemma slice_in {A} (l : list A) (s e : Z) :
  0 <= s <= e -> e <= Z.of_nat (length l) ->
  slice l s e = take (Z.to_nat (e - s)) (drop (Z.to_nat s) l).
Proof.
  intros Hs He. unfold slice. rewrite !slice_offset_in by lia. reflexivity.
Qed.

Lemma slice_app_l {A} (l k : list A) (s e : Z) :
  0 <= s <= e -> e <= Z.of_nat (length l) ->
  slice (l ++ k) s e = slice l s e.
Proof.
  intros Hs He. rewrite !slice_in by (rewrite ?length_app; lia).
  rewrite drop_app_le by lia. rewrite take_app_le; [reflexivity|].
  rewrite length_drop. lia.
Qed.

Lemma slice_app_r {A} (l k : list A) :
  slice (l ++ k) (Z.of_nat (length l)) (Z.of_nat (length l) + Z.of_nat (length k)) = k.
Proof.
  rewrite slice_in by (rewrite ?length_app; lia).
  rewrite Nat2Z.id, drop_app_length.
  replace (Z.to_nat _) with (length k) by lia. apply firstn_all.
Qed.


Lemma block_chain_snoc from bl mid b :
  block_chain from bl mid -> b_start b = mid -> mid <= b_end b ->
  block_chain from (bl ++ [b]) (b_end b).
Proof.
  revert from. induction bl as [|b0 bl IH]; intros from Hc Hs He; cbn in *.
  - subst. auto.
  - destruct Hc as (H1 & H2 & H3). auto.
Qed.

Lemma BlockInv_append bl buf nb bytes :
  BlockInv bl buf ->
  b_start nb = Z.of_nat (length buf) ->
  b_end nb = Z.of_nat (length buf) + Z.of_nat (length bytes) ->
  b_index nb = length bl ->
  (bytes = [] -> block_trivial nb = true) ->
  0 <= b_bits nb ->
  bit_length (int_from_bytes bytes) <= b_bits nb ->
  BlockInv (bl ++ [nb]) (buf ++ bytes).
Proof.
  intros [H1 H2 H3 H4 H5] Hs He Hi Hz Hb0 Hb.
  constructor.
  - rewrite length_app, Nat2Z.inj_add, <- He.
    eapply block_chain_snoc; eauto. lia.
  - intros i b Hl. destruct (decide (i < length bl)%nat).
    + rewrite lookup_app_l in Hl by lia. eauto.
    + pose proof (lookup_lt_Some _ _ _ Hl) as Hlt.
      rewrite length_app in Hlt. cbn in Hlt.
      assert (i = length bl) as -> by lia.
      rewrite lookup_app_r, Nat.sub_diag in Hl by lia. injection Hl as <-.
      assumption.
  - intros b Hin. rewrite length_app, Nat2Z.inj_add.
    apply elem_of_app in Hin as [Hin|Hin].
    + specialize (H3 b Hin). lia.
    + apply list_elem_of_singleton in Hin as ->. lia.
  - intros b Hin Hse. apply elem_of_app in Hin as [Hin|Hin]; [eauto|].
    apply list_elem_of_singleton in Hin as ->. apply Hz.
    destruct bytes; [reflexivity|]. cbn in He. lia.
  - intros b Hin. apply elem_of_app in Hin as [Hin|Hin].
    + specialize (H3 b Hin). rewrite slice_app_l by lia. eauto.
    + apply list_elem_of_singleton in Hin as ->.
      rewrite Hs, He, slice_app_r. auto.
Qed.

(** ** The trivial flags are preserved *)

Lemma all_trivial_from_snoc s bl b :
  all_trivial_from s (bl ++ [b])
  = all_trivial_from s bl && ((b_start b <? s) || block_trivial b).
Proof.
  unfold all_trivial_from. rewrite forallb_app. cbn. now rewrite andb_true_r.
Qed.

Lemma all_trivial_within_snoc s e bl b :
  all_trivial_within s e (bl ++ [b])
  = all_trivial_within s e bl
    && (negb ((s <=? b_start b) && (b_end b <=? e)) || block_trivial b).
Proof.
  unfold all_trivial_within. rewrite forallb_app. cbn. now rewrite andb_true_r.
Qed.

Lemma all_trivial_within_from s len bl :
  (forall b, b ∈ bl -> b_end b <= len) ->
  all_trivial_within s len bl = all_trivial_from s bl.
Proof.
  unfold all_trivial_within, all_trivial_from.
  induction bl as [|b bl IH]; intros Hall; [reflexivity|].
  cbn [forallb]. rewrite IH by (intros; apply Hall; now right).
  specialize (Hall b ltac:(left)).
  replace (b_end b <=? len) with true by lia. rewrite andb_true_r.
  f_equal. f_equal. lia.
Qed.

Lemma all_trivial_from_end len bl :
  (forall b, b ∈ bl -> b_start b <= b_end b /\ b_end b <= len) ->
  (forall b, b ∈ bl -> b_start b = b_end b -> block_trivial b = true) ->
  all_trivial_from len bl = true.
Proof.
  intros Hb Hz. unfold all_trivial_from. apply forallb_forall.
  intros b Hin. apply list_elem_of_In in Hin.
  destruct (Hb b Hin) as [H1 H2].
  destruct (Z.ltb_spec (b_start b) len); [reflexivity|].
  cbn. apply Hz; [assumption|lia].
Qed.

Lemma open_ok_ext exs exs' bl acc stk :
  (forall i, i ∈ stk ->
     start_of exs' i = start_of exs i /\ trivial_of exs' i = trivial_of exs i) ->
  open_ok exs bl acc stk -> open_ok exs' bl acc stk.
Proof.
  revert acc. induction stk as [|i below IH]; intros acc Hext Hok; [exact I|].
  cbn in *. destruct Hok as (s & t & Hs & Ht & Hacc & Hrest).
  destruct (Hext i ltac:(left)) as [E1 E2].
  exists s, t. rewrite E1, E2. repeat split; try assumption.
  apply IH; [|assumption]. intros j Hj. apply Hext. now right.
Qed.

Lemma open_ok_record exs exs' bl nb acc below :
  (forall i, i ∈ below ->
     start_of exs' i = start_of exs i /\ trivial_of exs' i = trivial_of exs i) ->
  (forall i s, i ∈ below -> start_of exs i = Some s -> s <= b_start nb) ->
  open_ok exs bl acc below ->
  open_ok exs' (bl ++ [nb]) (acc && block_trivial nb) below.
Proof.
  revert acc. induction below as [|i below IH]; intros acc Hext Hle Hok; [exact I|].
  cbn in *. destruct Hok as (s & t & Hs & Ht & Hacc & Hrest).
  destruct (Hext i ltac:(left)) as [E1 E2].
  exists s, t. rewrite E1, E2. repeat split; try assumption.
  - rewrite all_trivial_from_snoc, <- Hacc.
    specialize (Hle i s ltac:(left) Hs).
    replace (b_start nb <? s) with false by lia.
    destruct acc, t, (block_trivial nb); reflexivity.
  - replace (acc && block_trivial nb && t) with (acc && t && block_trivial nb)
      by (destruct acc, t, (block_trivial nb); reflexivity).
    apply IH; [| |assumption].
    + intros j Hj. apply Hext. now right.
    + intros j sj Hj. apply Hle. now right.
Qed.

Lemma TrivInv_set_discarded v k exs stk bl :
  TrivInv exs stk bl -> TrivInv (alter (ex_set_discarded v) k exs) stk bl.
Proof.
  intros [H1 H2]. constructor.
  - intros *. autorewrite with proj. eauto.
  - eapply open_ok_ext; [|exact H2]. intros. autorewrite with proj. auto.
Qed.

Lemma TrivInv_open exs stk bl dep label len :
  TrivInv exs stk bl ->
  (forall p, p ∈ stk -> (p < length exs)%nat) ->
  all_trivial_from len bl = true ->
  TrivInv (opened exs stk (mkExample dep label (length exs) len None true None []))
          (length exs :: stk) bl.
Proof.
  intros [H1 H2] Hstk Hall. constructor.
  - intros i s en t. unfold start_of, end_of, trivial_of.
    rewrite !opened_proj by reflexivity.
    destruct (decide (i = length exs)); [cbn; discriminate|]. apply H1.
  - cbn. exists len, true. unfold start_of, trivial_of.
    rewrite !opened_proj by reflexivity.
    destruct (decide (length exs = length exs)); [|congruence].
    repeat split; [now rewrite Hall|].
    eapply open_ok_ext; [|exact H2]. intros i Hi.
    specialize (Hstk i Hi). unfold start_of, trivial_of.
    rewrite !opened_proj by reflexivity.
    destruct (decide (i = length exs)); [lia|]. auto.
Qed.


Lemma ExInv_closed exs k rest ek len :
  ExInv exs (k :: rest) len -> ExInv (closed exs k rest ek len) rest len.
Proof.
  intros HI. apply ExInv_close in HI. unfold closed.
  destruct rest as [|p r]; [assumption|].
  destruct (negb (ex_trivial ek)); [|assumption].
  now apply ExInv_set_trivial.
Qed.

Lemma TrivInv_closed exs k rest bl ek len :
  TrivInv exs (k :: rest) bl -> ExInv exs (k :: rest) len ->
  (forall b, b ∈ bl -> b_end b <= len) ->
  exs !! k = Some ek ->
  TrivInv (closed exs k rest ek len) rest bl.
Proof.
  intros [H1 H2] HI Hbl Hek.
  cbn in H2. destruct H2 as (s & t & Hs & Ht & Hacc & Hrest).
  assert (Ht' : t = ex_trivial ek)
    by (unfold trivial_of in Ht; rewrite Hek in Ht; cbn in Ht; congruence).
  cbn [andb] in *.
  pose proof (sorted_top_fresh _ _ (e_sorted _ _ _ HI)) as Hfresh.
  assert (Hclosed1 : forall i s' en t',
             start_of exs i = Some s' ->
             end_of (alter (ex_set_end len) k exs) i = Some (Some en) ->
             trivial_of exs i = Some t' ->
             (i = k /\ en = len /\ s' = s /\ t' = t)
             \/ (i <> k /\ end_of exs i = Some (Some en))).
  { intros i s' en t' Hs' He' Ht2. rewrite end_of_set_end in He'.
    destruct (decide (k = i)) as [<-|Hne]; [left|right; auto].
    rewrite Hek in He'. cbn in He'. split; [reflexivity|].
    split; [congruence|]. split; congruence. }
  unfold closed. destruct rest as [|p r].
  - constructor; [|exact I].
    intros i s' en t'. autorewrite with proj. intros Hs' He' Ht2.
    destruct (Hclosed1 _ _ _ _ Hs' He' Ht2) as [(-> & -> & -> & ->)|[Hne He]].
    + rewrite all_trivial_within_from by assumption. assumption.
    + eauto.
  - destruct t; rewrite <- Ht'; cbn [negb].
    + constructor.
      * intros i s' en t'. autorewrite with proj. intros Hs' He' Ht2.
        destruct (Hclosed1 _ _ _ _ Hs' He' Ht2) as [(-> & -> & -> & ->)|[Hne He]].
        -- rewrite all_trivial_within_from by assumption. assumption.
        -- eauto.
      * eapply open_ok_ext; [|exact Hrest]. intros. autorewrite with proj. auto.
    + assert (Hpk : p <> k) by (intros ->; apply Hfresh; left).
      assert (Hp : end_of exs p = Some None)
        by (apply (e_open _ _ _ HI); right; left).
      constructor.
      * intros i s' en t'. autorewrite with proj. rewrite trivial_of_set_trivial.
        intros Hs' He'. destruct (decide (p = i)) as [<-|Hpi].
        { rewrite end_of_set_end in He'.
          destruct (decide (k = p)); [congruence|]. congruence. }
        autorewrite with proj. intros Ht2.
        destruct (Hclosed1 _ _ _ _ Hs' He' Ht2) as [(-> & -> & -> & ->)|[Hne He]].
        -- rewrite all_trivial_within_from by assumption. assumption.
        -- eauto.
      * cbn in Hrest. destruct Hrest as (sp & tp & Hsp & Htp & Haccp & Hr).
        cbn. exists sp, false. autorewrite with proj.
        rewrite trivial_of_set_trivial.
        destruct (decide (p = p)); [|congruence].
        assert (Hpl : (p < length exs)%nat) by (eapply proj_Some_lt; exact Hsp).
        destruct (lookup_lt_is_Some_2 _ _ Hpl) as [ep Hep].
        rewrite list_lookup_alter_ne by congruence. rewrite Hep. cbn.
        repeat split; [assumption|assumption|].
        eapply open_ok_ext; [|exact Hr]. intros i Hi.
        autorewrite with proj. rewrite trivial_of_set_trivial.
        destruct (decide (p = i)) as [<-|]; [|autorewrite with proj; auto].
        exfalso. pose proof (e_sorted _ _ _ HI) as Hsorted.
        apply StronglySorted_inv in Hsorted as [Hsorted _].
        apply (sorted_top_fresh _ _ Hsorted). assumption.
Qed.

Lemma TrivInv_record exs t below bl nb len :
  TrivInv exs (t :: below) bl -> ExInv exs (t :: below) len ->
  trivial_of exs t = Some true ->
  b_start nb = len -> len <= b_end nb ->
  (b_start nb = b_end nb -> block_trivial nb = true) ->
  TrivInv (alter (ex_set_trivial (block_trivial nb)) t exs) (t :: below)
          (bl ++ [nb]).
Proof.
  intros [H1 H2] HI Htt Hs He Hz.
  pose proof (sorted_top_fresh _ _ (e_sorted _ _ _ HI)) as Hfresh.
  assert (Hopen : end_of exs t = Some None) by (apply (e_open _ _ _ HI); left).
  constructor.
  - intros i s en tv. autorewrite with proj. rewrite trivial_of_set_trivial.
    intros Hs' He'. destruct (decide (t = i)) as [<-|Hne]; [congruence|].
    intros Htv. rewrite all_trivial_within_snoc.
    rewrite <- (H1 _ _ _ _ Hs' He' Htv).
    pose proof (e_end _ _ _ HI _ _ _ Hs' He') as Hen.
    destruct (Z.leb_spec (b_end nb) en) as [Hle|Hgt].
    + rewrite Hz by lia. rewrite orb_true_r, andb_true_r. reflexivity.
    + rewrite andb_false_r. cbn. now rewrite andb_true_r.
  - cbn in H2. destruct H2 as (s & t0 & Hs0 & Ht0 & Hacc & Hrest).
    assert (t0 = true) as -> by congruence. cbn [andb] in *.
    assert (Htl : (t < length exs)%nat) by (eapply proj_Some_lt; exact Hs0).
    destruct (lookup_lt_is_Some_2 _ _ Htl) as [et Het].
    cbn. exists s, (block_trivial nb). autorewrite with proj.
    rewrite trivial_of_set_trivial. destruct (decide (t = t)); [|congruence].
    rewrite Het. cbn. repeat split; [assumption| |].
    + rewrite all_trivial_from_snoc, <- Hacc.
      pose proof (e_start _ _ _ HI _ _ Hs0).
      replace (b_start nb <? s) with false by lia. reflexivity.
    + change (block_trivial nb) with (true && block_trivial nb).
      apply (open_ok_record exs); [| |assumption].
      * intros i Hi. autorewrite with proj. rewrite trivial_of_set_trivial.
        destruct (decide (t = i)) as [<-|]; [contradiction|auto].
      * intros i si Hi Hsi. pose proof (e_start _ _ _ HI _ _ Hsi). lia.
Qed.

(** ** Every operation preserves the invariants *)

Lemma Inv_stack_in_range d : Inv d -> stack_in_range d.
Proof.
  intros HI. apply Forall_forall. intros i Hi.
  apply (e_open _ _ _ (inv_examples _ HI)) in Hi.
  eapply proj_Some_lt; exact Hi.
Qed.

Lemma index_nonneg d : 0 <= index d.
Proof. unfold index. lia. Qed.

Lemma after_start_examples label d :
  examples (after_start label d)
  = opened (examples d) (example_stack d)
      (mkExample (depth d + 1) label (length (examples d)) (index d)
         None true None []).
Proof. destruct d; reflexivity. Qed.

Lemma after_stop_examples discard k rest ek d :
  examples (after_stop discard k rest ek d)
  = alter (ex_set_discarded (if index d =? ex_start ek then false else discard)) k
      (closed (examples d) k rest ek (index d)).
Proof. destruct d; reflexivity. Qed.

Lemma Inv_after_start label d :
  Inv d -> frozen d = false -> Inv (after_start label d).
Proof.
  intros HI Hf. pose proof (Inv_stack_in_range d HI) as Hr.
  destruct HI as [HE HB HT HF].
  assert (Hstk : forall p, p ∈ example_stack d -> (p < length (examples d))%nat)
    by (intros p Hp; unfold stack_in_range in Hr; rewrite Forall_forall in Hr; auto).
  constructor.
  - rewrite after_start_examples.
    replace (example_stack (after_start label d))
      with (length (examples d) :: example_stack d) by (destruct d; reflexivity).
    replace (index (after_start label d)) with (index d) by (destruct d; reflexivity).
    apply ExInv_open; [assumption|apply index_nonneg].
  - replace (blocks (after_start label d)) with (blocks d) by (destruct d; reflexivity).
    replace (buffer (after_start label d)) with (buffer d) by (destruct d; reflexivity).
    assumption.
  - rewrite after_start_examples.
    replace (example_stack (after_start label d))
      with (length (examples d) :: example_stack d) by (destruct d; reflexivity).
    replace (blocks (after_start label d)) with (blocks d) by (destruct d; reflexivity).
    apply TrivInv_open; [assumption|assumption|].
    apply all_trivial_from_end.
    + intros b Hb. pose proof (b_bounds _ _ HB b Hb). unfold index. lia.
    + apply (b_zero _ _ HB).
  - replace (frozen (after_start label d)) with (frozen d) by (destruct d; reflexivity).
    congruence.
Qed.

Lemma Inv_after_stop discard k rest ek d :
  Inv d -> frozen d = false -> example_stack d = k :: rest ->
  examples d !! k = Some ek ->
  Inv (after_stop discard k rest ek d).
Proof.
  intros [HE HB HT HF] Hf Hs Hek. rewrite Hs in *.
  constructor.
  - rewrite after_stop_examples.
    replace (example_stack (after_stop discard k rest ek d)) with rest
      by reflexivity.
    replace (index (after_stop discard k rest ek d)) with (index d)
      by (destruct d; reflexivity).
    apply ExInv_set_discarded, ExInv_closed. assumption.
  - replace (blocks (after_stop discard k rest ek d)) with (blocks d)
      by (destruct d; reflexivity).
    replace (buffer (after_stop discard k rest ek d)) with (buffer d)
      by (destruct d; reflexivity).
    assumption.
  - rewrite after_stop_examples.
    replace (example_stack (after_stop discard k rest ek d)) with rest
      by reflexivity.
    replace (blocks (after_stop discard k rest ek d)) with (blocks d)
      by (destruct d; reflexivity).
    apply TrivInv_set_discarded. eapply TrivInv_closed; eauto.
    intros b Hb. pose proof (b_bounds _ _ HB b Hb). unfold index. lia.
  - replace (frozen (after_stop discard k rest ek d)) with (frozen d)
      by reflexivity.
    congruence.
Qed.

Lemma Inv_record_block n isf buf t below d :
  Inv d -> example_stack d = t :: below ->
  trivial_of (examples d) t = Some true ->
  0 <= n -> int_from_bytes buf < 2 ^ n ->
  Inv (record_block n (Z.of_nat (length buf)) isf buf t d).
Proof.
  intros [HE HB HT HF] Hs Htt Hn Hv. rewrite Hs in *.
  set (nb := new_block n (Z.of_nat (length buf)) isf buf d).
  assert (Hidx : index (record_block n (Z.of_nat (length buf)) isf buf t d)
                 = index d + Z.of_nat (length buf)).
  { unfold index. destruct d; cbn. rewrite length_app. lia. }
  assert (Hz : b_start nb = b_end nb -> block_trivial nb = true).
  { subst nb. unfold new_block, block_trivial. cbn. intros Hse.
    destruct buf; [cbn; apply orb_true_r|cbn in Hse; lia]. }
  constructor.
  - replace (examples (record_block n (Z.of_nat (length buf)) isf buf t d))
      with (alter (ex_set_trivial (block_trivial nb)) t (examples d))
      by (destruct d; reflexivity).
    replace (example_stack (record_block n (Z.of_nat (length buf)) isf buf t d))
      with (example_stack d) by (destruct d; reflexivity).
    rewrite Hidx, Hs. apply ExInv_set_trivial.
    eapply ExInv_grow; [|eassumption]. lia.
  - replace (blocks (record_block n (Z.of_nat (length buf)) isf buf t d))
      with (blocks d ++ [nb]) by (destruct d; reflexivity).
    replace (buffer (record_block n (Z.of_nat (length buf)) isf buf t d))
      with (buffer d ++ buf) by (destruct d; reflexivity).
    apply BlockInv_append; try assumption; try reflexivity.
    + intros ->. apply Hz. subst nb. cbn. lia.
    + subst nb. cbn. apply bit_length_le; [apply int_from_bytes_range|lia|lia].
  - replace (examples (record_block n (Z.of_nat (length buf)) isf buf t d))
      with (alter (ex_set_trivial (block_trivial nb)) t (examples d))
      by (destruct d; reflexivity).
    replace (example_stack (record_block n (Z.of_nat (length buf)) isf buf t d))
      with (example_stack d) by (destruct d; reflexivity).
    replace (blocks (record_block n (Z.of_nat (length buf)) isf buf t d))
      with (blocks d ++ [nb]) by (destruct d; reflexivity).
    rewrite Hs. eapply TrivInv_record; eauto.
    subst nb. cbn. lia.
  - replace (frozen (record_block n (Z.of_nat (length buf)) isf buf t d))
      with (frozen d) by (destruct d; reflexivity).
    replace (example_stack (record_block n (Z.of_nat (length buf)) isf buf t d))
      with (example_stack d) by (destruct d; reflexivity).
    rewrite Hs. assumption.
Qed.

Lemma Inv_after_draw label n isf raw buf d :
  Inv d -> frozen d = false ->
  Z.of_nat (length raw) = bits_to_bytes n -> mask_bytes n raw = Ok buf ->
  Inv (after_draw label n isf buf d).
Proof.
  intros HI Hf Hlen Hmask.
  destruct (mask_bytes_spec _ _ _ Hlen Hmask) as (Hn & Hbl & Hv).
  pose proof (stack_in_range_top _ (Inv_stack_in_range _ HI)) as Htop.
  pose proof (after_start_new_example label d Htop) as Hnew.
  unfold after_draw.
  replace (bits_to_bytes n) with (Z.of_nat (length buf)) by lia.
  apply Inv_after_stop.
  - eapply Inv_record_block; [apply Inv_after_start; eassumption| | |lia|lia].
    + destruct d; reflexivity.
    + unfold trivial_of. rewrite Hnew. reflexivity.
  - destruct d; exact Hf.
  - destruct d; reflexivity.
  - unfold record_block.
    cbn [examples set_buffer set_blocks set_block_starts set_examples].
    rewrite list_lookup_alter_eq, Hnew. reflexivity.
Qed.

Lemma Inv_stop_example discard d : Inv d -> Inv (snd (stop_example discard d)).
Proof.
  intros HI. destruct (frozen d) eqn:Hf.
  { now rewrite stop_example_frozen. }
  destruct (example_stack d) as [|k rest] eqn:Hs.
  { now rewrite stop_example_empty. }
  destruct (stop_example_step discard d k rest Hf (Inv_stack_in_range _ HI) Hs)
    as (ek & Hek & ->).
  cbn [snd]. now apply Inv_after_stop.
Qed.

Lemma Inv_freeze_loop fuel d :
  Inv d -> frozen d = false -> Inv (snd (freeze_loop fuel d)).
Proof.
  revert d. induction fuel as [|fuel IH]; intros d HI Hf.
  - cbn [freeze_loop]. unfold bind, get. destruct (example_stack d); assumption.
  - cbn [freeze_loop]. unfold bind at 1, get at 1.
    destruct (example_stack d) as [|k rest] eqn:Hs; [assumption|].
    destruct (stop_example_step false d k rest Hf (Inv_stack_in_range _ HI) Hs)
      as (ek & Hek & Hstop).
    rewrite (bind_Ok _ _ _ _ _ Hstop). apply IH.
    + now apply Inv_after_stop.
    + exact Hf.
Qed.

Lemma Inv_after_freeze d : Inv d -> frozen d = false -> Inv (after_freeze d).
Proof.
  intros HI Hf. unfold after_freeze.
  pose proof (Inv_freeze_loop (length (example_stack d)) d HI Hf) as HI'.
  pose proof (freeze_loop_empties d Hf (Inv_stack_in_range _ HI)) as Hempty.
  destruct (snd (freeze_loop (length (example_stack d)) d)) eqn:E.
  destruct HI' as [HE HB HT HF]. cbn in *.
  constructor; cbn; auto.
Qed.

Lemma Inv_set_fields ov st origin d :
  Inv d -> Inv (set_status st (set_overdraw ov (set_interesting_origin origin d))).
Proof. intros [HE HB HT HF]. destruct d. constructor; assumption. Qed.

Lemma Inv_fresh_fields ml tc : Inv (fresh_fields ml tc).
Proof.
  constructor; cbn.
  - constructor; intros *; unfold idx_of, start_of, end_of, children_of; cbn;
      try discriminate.
    + split; [intros H; inversion H|discriminate].
    + constructor.
  - constructor; cbn; try reflexivity; intros *; try discriminate;
      intros H; inversion H.
  - constructor; [|exact I]. intros *. unfold start_of. cbn. discriminate.
  - discriminate.
Qed.

Lemma new_data_after_start ml tc :
  new_data calc ml tc = after_start (TOP_LABEL calc) (fresh_fields ml tc).
Proof. reflexivity. Qed.

Lemma Inv_new_data ml tc : Inv (new_data calc ml tc).
Proof.
  rewrite new_data_after_start. apply Inv_after_start;
    [apply Inv_fresh_fields|reflexivity].
Qed.

Lemma Inv_start_example label d : Inv d -> Inv (snd (start_example label d)).
Proof.
  intros HI. destruct (frozen d) eqn:Hf.
  - unfold start_example.
    now rewrite (bind_Raise _ _ _ _ _ (assert_not_frozen_frozen _ _ Hf)).
  - rewrite start_example_ok
      by auto using stack_in_range_top, Inv_stack_in_range.
    now apply Inv_after_start.
Qed.

Lemma Inv_draw_bits src n forced d :
  Inv d -> Inv (snd (draw_bits calc src n forced d)).
Proof.
  intros HI.
  destruct (draw_bits_cases src n forced d (Inv_stack_in_range _ HI))
    as [[e ->]|[(Hf & Hcap & ->)|(raw & buf & Hf & Hcap & Hraw & Hlen & Hmask & ->)]];
    cbn [snd].
  - assumption.
  - unfold after_overrun. apply Inv_after_freeze.
    + destruct HI as [HE HB HT HF]. destruct d. constructor; assumption.
    + destruct d; exact Hf.
  - eapply Inv_after_draw; eauto.
Qed.

Lemma write_state src string d :
  snd (write calc src string d) = d
  \/ exists n forced, snd (write calc src string d)
                      = snd (draw_bits calc src n forced d).
Proof.
  unfold write. destruct (frozen d) eqn:Hf.
  { left. now rewrite (bind_Raise _ _ _ _ _ (assert_not_frozen_frozen _ _ Hf)). }
  rewrite (bind_Ok _ _ _ _ _ (assert_not_frozen_unfrozen _ _ Hf)).
  destruct string as [|b bs]; [left; reflexivity|].
  right. exists (Z.of_nat (length (b :: bs)) * 8), (Some (int_from_bytes (b :: bs))).
  unfold bind at 1.
  destruct (draw_bits _ _ _ _ _) as [[v|e] d']; reflexivity.
Qed.

Lemma draw_bytes_state src n d :
  snd (draw_bytes calc src n d) = d
  \/ exists forced, snd (draw_bytes calc src n d)
                    = snd (draw_bits calc src (8 * n) forced d).
Proof.
  unfold draw_bytes. destruct (n =? 0); [left; reflexivity|].
  right. exists None. unfold bind, lift.
  destruct (draw_bits _ _ _ _ _) as [[v|e] d']; reflexivity.
Qed.

Lemma Inv_freeze d : Inv d -> Inv (snd (freeze d)).
Proof.
  intros HI. destruct (frozen d) eqn:Hf.
  - now rewrite freeze_frozen.
  - rewrite freeze_unfrozen by auto using Inv_stack_in_range.
    now apply Inv_after_freeze.
Qed.

Lemma conclude_test_unfrozen st origin d :
  is_None origin || bool_decide (status_value st = status_value INTERESTING) = true ->
  frozen d = false -> stack_in_range d ->
  conclude_test st origin d
  = (Raise (StopTest (testcounter d)),
     after_freeze (set_status st (set_interesting_origin origin d))).
Proof.
  intros Hassert Hf Hr. unfold conclude_test. rewrite Hassert.
  unfold assert at 1, ret at 1, bind at 1.
  rewrite (bind_Ok _ _ _ _ _ (assert_not_frozen_unfrozen _ _ Hf)).
  unfold modify at 1, bind at 1. unfold modify at 1, bind at 1.
  rewrite (bind_Ok _ _ _ tt
    (after_freeze (set_status st (set_interesting_origin origin d))))
    by (apply freeze_unfrozen; destruct d; assumption).
  unfold bind, get, raise.
  replace (testcounter (after_freeze (set_status st (set_interesting_origin origin d))))
    with (testcounter d); [reflexivity|].
  unfold after_freeze.
  destruct (freeze_loop_spec
              (length (example_stack (set_status st (set_interesting_origin origin d))))
              (set_status st (set_interesting_origin origin d)))
    as (d' & Hd' & Hrest); [destruct d; assumption..|lia|].
  rewrite Hd'. destruct Hrest as (_ & _ & _ & _ & _ & _ & _ & _ & Htc & _).
  cbn [snd]. destruct d'; cbn in *. destruct d; cbn in *. congruence.
Qed.

Lemma conclude_test_frozen st origin d :
  frozen d = true -> exists e, conclude_test st origin d = (Raise e, d).
Proof.
  intros Hf. unfold conclude_test.
  destruct (is_None origin || _).
  - unfold assert at 1, ret at 1, bind at 1.
    rewrite (bind_Raise _ _ _ _ _ (assert_not_frozen_frozen _ _ Hf)). eauto.
  - eexists. reflexivity.
Qed.

Lemma Inv_conclude_test st origin d :
  Inv d -> Inv (snd (conclude_test st origin d)).
Proof.
  intros HI.
  destruct (is_None origin || bool_decide (status_value st = status_value INTERESTING))
    eqn:Hassert.
  2:{ unfold conclude_test. rewrite Hassert. assumption. }
  destruct (frozen d) eqn:Hf.
  - destruct (conclude_test_frozen st origin d Hf) as [e ->]. assumption.
  - rewrite conclude_test_unfrozen by auto using Inv_stack_in_range.
    cbn [snd]. apply Inv_after_freeze.
    + destruct HI as [HE HB HT HF]. destruct d. constructor; assumption.
    + destruct d; exact Hf.
Qed.

Lemma Inv_apply_op o d : Inv d -> Inv (apply_op calc o d).
Proof.
  intros HI. destruct o; cbn [apply_op].
  - now apply Inv_start_example.
  - now apply Inv_stop_example.
  - now apply Inv_draw_bits.
  - destruct (write_state src string d) as [->|(n & forced & ->)];
      [assumption|now apply Inv_draw_bits].
  - destruct (draw_bytes_state src n d) as [->|(forced & ->)];
      [assumption|now apply Inv_draw_bits].
  - now apply Inv_freeze.
  - now apply Inv_conclude_test.
Qed.

Lemma reachable_Inv d : reachable calc d -> Inv d.
Proof.
  induction 1; [apply Inv_new_data|now apply Inv_apply_op].
Qed.

(** ** Forced draws *)

Lemma draw_bits_forced_ok src n forced d :
  0 <= n -> 0 <= forced < 2 ^ n ->
  frozen d = false -> stack_in_range d ->
  index d + bits_to_bytes n <= max_length d ->
  draw_bits calc src n (Some forced) d
  = (Ok forced,
     after_draw (DRAW_BYTES_LABEL calc) n true
       (rev (to_bytes_le (Z.to_nat (bits_to_bytes n)) forced)) d).
Proof.
  intros Hn Hforced Hf Hr Hcap.
  pose proof (bits_to_bytes_nonneg n Hn) as Hnb.
  set (raw := rev (to_bytes_le (Z.to_nat (bits_to_bytes n)) forced)).
  assert (Hfit : forced < 256 ^ bits_to_bytes n).
  { rewrite pow256 by lia.
    assert (2 ^ n <= 2 ^ (8 * bits_to_bytes n)); [|lia].
    apply Z.pow_le_mono_r; [lia|].
    destruct (bits_to_bytes_spec n) as [[? ?]|[? ?]]; lia. }
  assert (Hraw : raw_bytes src (bits_to_bytes n) (Some forced) d = Ok raw)
    by (apply int_to_bytes_fits; lia).
  destruct (int_to_bytes_Ok _ _ _ Hraw) as (_ & _ & Hlen & Hval).
  destruct (mask_bytes_total n raw Hn Hlen) as [buf Hmask].
  assert (buf = raw) as -> by (eapply mask_bytes_id; eauto; lia).
  rewrite (draw_bits_ok src n (Some forced) d raw raw);
    auto using stack_in_range_top.
  now rewrite Hval.
Qed.

(** C1: for every [n] in 0..64 and every non-negative [forced] with
    [bit_length forced <= n], [draw_bits n forced] on an unfrozen record
    with enough remaining capacity returns exactly [forced], and the block
    this call appends is marked forced. *)
Theorem draw_bits_forced_returns_forced src n forced d :
  reachable calc d -> frozen d = false ->
  0 <= n <= 64 -> 0 <= forced -> bit_length forced <= n ->
  index d + bits_to_bytes n <= max_length d ->
  exists d' b,
    draw_bits calc src n (Some forced) d = (Ok forced, d')
    /\ blocks d' = blocks d ++ [b]
    /\ b_forced b = true /\ b_bits b = n.
Proof.
  intros Hreach Hf Hn Hforced Hbits Hcap.
  apply bit_length_le in Hbits; [|lia..].
  pose proof (Inv_stack_in_range _ (reachable_Inv _ Hreach)) as Hr.
  eexists _, _. split; [apply draw_bits_forced_ok; auto; lia|].
  rewrite after_draw_blocks. split; [reflexivity|]. split; reflexivity.
Qed.

(** ** Overrun *)

Lemma frozen_closed d i e :
  Inv d -> frozen d = true -> examples d !! i = Some e ->
  exists en, ex_end e = Some en.
Proof.
  intros HI Hf He. destruct (ex_end e) as [en|] eqn:Hen; [eauto|].
  exfalso. pose proof (inv_frozen _ HI Hf) as Hs.
  assert (Hin : i ∈ example_stack d).
  { apply (e_open _ _ _ (inv_examples _ HI)). unfold end_of.
    rewrite He. cbn. now rewrite Hen. }
  rewrite Hs in Hin. inversion Hin.
Qed.

Lemma after_overrun_fields n_bytes d :
  frozen d = false -> stack_in_range d ->
  overdraw (after_overrun n_bytes d) = index d + n_bytes - max_length d
  /\ status (after_overrun n_bytes d) = OVERRUN
  /\ frozen (after_overrun n_bytes d) = true
  /\ buffer (after_overrun n_bytes d) = buffer d
  /\ blocks (after_overrun n_bytes d) = blocks d
  /\ block_starts (after_overrun n_bytes d) = block_starts d
  /\ example_stack (after_overrun n_bytes d) = [].
Proof.
  intros Hf Hr. unfold after_overrun, after_freeze.
  set (d0 := set_status OVERRUN (set_overdraw (index d + n_bytes - max_length d) d)).
  destruct (freeze_loop_spec (length (example_stack d0)) d0)
    as (d' & Hd' & Hs & Hf' & Hbuf & Hbl & Hbs & Hst & Hov & _);
    [destruct d; assumption..|lia|].
  rewrite Hd'. cbn [snd]. destruct d'; cbn in *. subst.
  destruct d; cbn. repeat split; reflexivity.
Qed.

Lemma after_overrun_examples_length n_bytes d :
  frozen d = false -> stack_in_range d ->
  length (examples (after_overrun n_bytes d)) = length (examples d).
Proof.
  intros Hf Hr. unfold after_overrun, after_freeze.
  set (d0 := set_status OVERRUN (set_overdraw (index d + n_bytes - max_length d) d)).
  destruct (freeze_loop_spec (length (example_stack d0)) d0)
    as (d' & Hd' & _ & _ & _ & _ & _ & _ & _ & _ & _ & Hlen);
    [destruct d; assumption..|lia|].
  rewrite Hd'. cbn [snd]. destruct d'; cbn in *. rewrite Hlen.
  destruct d; reflexivity.
Qed.

(** C3: a [draw_bits] call on an unfrozen record whose buffer length plus
    [ceil(n/8)] exceeds [max_length] sets [overdraw] to the excess, sets the
    status to [OVERRUN], freezes the record and raises the abort signal
    tagged with the record's [testcounter]; the buffer, the block list and
    the block-start index are as before the call.  Freezing is all of
    [freeze]: the flag is set, the example stack is emptied, and every
    example, none added, is closed at an end within the buffer. *)
Theorem draw_bits_overrun_aborts src n forced d :
  reachable calc d -> frozen d = false ->
  index d + bits_to_bytes n > max_length d ->
  exists d',
    draw_bits calc src n forced d = (Raise (StopTest (testcounter d)), d')
    /\ overdraw d' = index d + bits_to_bytes n - max_length d
    /\ status d' = OVERRUN
    /\ frozen d' = true
    /\ example_stack d' = []
    /\ length (examples d') = length (examples d)
    /\ (forall i e, examples d' !! i = Some e ->
          exists en, ex_end e = Some en /\ en <= index d)
    /\ buffer d' = buffer d
    /\ blocks d' = blocks d
    /\ block_starts d' = block_starts d.
Proof.
  intros Hreach Hf Hcap.
  pose proof (Inv_stack_in_range _ (reachable_Inv _ Hreach)) as Hr.
  pose proof (draw_bits_overrun src n forced d Hf Hr Hcap) as Hdraw.
  exists (after_overrun (bits_to_bytes n) d).
  split; [exact Hdraw|].
  destruct (after_overrun_fields (bits_to_bytes n) d Hf Hr)
    as (F1 & F2 & F3 & F4 & F5 & F6 & F7).
  assert (HI' : Inv (after_overrun (bits_to_bytes n) d)).
  { apply reachable_Inv.
    pose proof (reachable_step calc (OpDrawBits src n forced) d Hreach) as Hstep.
    cbn [apply_op] in Hstep. rewrite Hdraw in Hstep. exact Hstep. }
  split; [exact F1|]. split; [exact F2|]. split; [exact F3|].
  split; [exact F7|].
  split; [now apply after_overrun_examples_length|].
  split; [|repeat split; assumption].
  intros i e He. destruct (frozen_closed _ i e HI' F3 He) as [en Hen].
  exists en. split; [assumption|].
  assert (Hs : start_of (examples (after_overrun (bits_to_bytes n) d)) i
               = Some (ex_start e))
    by (unfold start_of; now rewrite He).
  assert (Hend : end_of (examples (after_overrun (bits_to_bytes n) d)) i
                 = Some (Some en))
    by (unfold end_of; rewrite He; cbn; now rewrite Hen).
  pose proof (e_end _ _ _ (inv_examples _ HI') _ _ _ Hs Hend) as Hle.
  unfold index in *. rewrite F4 in Hle. lia.
Qed.

(** ** Closing an empty region *)

(** C9: [stop_example discard] on an unfrozen record that closes a region
    of length zero (the buffer length equals the start of the example on
    top of the stack) records [discarded = false] on that example and leaves
    [has_discards] as it was, whatever [discard] was. *)
Theorem stop_example_empty_region_not_discarded discard d k rest ex :
  reachable calc d -> frozen d = false ->
  example_stack d = k :: rest -> examples d !! k = Some ex ->
  index d = ex_start ex ->
  exists d' ex',
    stop_example discard d = (Ok tt, d')
    /\ examples d' !! k = Some ex'
    /\ ex_end ex' = Some (index d)
    /\ ex_discarded ex' = Some false
    /\ has_discards d' = has_discards d.
Proof.
  intros Hreach Hf Hs Hk Hzero.
  pose proof (reachable_Inv _ Hreach) as HI.
  pose proof (Inv_stack_in_range _ HI) as Hr.
  destruct (stop_example_step discard d k rest Hf Hr Hs) as (ex0 & Hex0 & Hstop).
  assert (ex0 = ex) as -> by congruence.
  assert (Hfresh : k ∉ rest).
  { apply sorted_top_fresh. rewrite <- Hs.
    apply (e_sorted _ _ _ (inv_examples _ HI)). }
  exists (after_stop discard k rest ex d).
  assert (Hd : (if index d =? ex_start ex then false else discard) = false)
    by (rewrite Hzero, Z.eqb_refl; reflexivity).
  exists (ex_set_discarded false (ex_set_end (index d) ex)).
  split; [exact Hstop|]. split; [|split; [reflexivity|split; [reflexivity|]]].
  - rewrite after_stop_examples, Hd, list_lookup_alter_eq. unfold closed.
    destruct rest as [|p r].
    + rewrite list_lookup_alter_eq, Hk. reflexivity.
    + assert (p <> k) by (intros ->; apply Hfresh; left).
      destruct (negb (ex_trivial ex)).
      * rewrite list_lookup_alter_ne by assumption.
        rewrite list_lookup_alter_eq, Hk. reflexivity.
      * rewrite list_lookup_alter_eq, Hk. reflexivity.
  - unfold after_stop. rewrite Hd. destruct d; reflexivity.
Qed.

(** ** Draws of zero bits *)

(** C10: [draw_bits 0], with no forced value or with the forced value 0, on
    an unfrozen record whose buffer is within [max_length], returns 0 and
    still records structure: a zero-length block with [bits = 0] and
    [all_zero = true], a zero-length trivial example, an unchanged buffer,
    and the block's start offset in the bucket of byte width 0 (the
    hypothesis covers in particular a buffer that has not reached
    [max_length]; an unforced draw asks the byte source for 0 bytes). *)
Theorem draw_bits_zero_records_structure src forced d :
  reachable calc d -> frozen d = false ->
  index d <= max_length d ->
  forced = Some 0 \/ (forced = None /\ src d 0 = Ok []) ->
  exists d',
    draw_bits calc src 0 forced d = (Ok 0, d')
    /\ buffer d' = buffer d
    /\ blocks d'
       = blocks d ++ [mkBlock (index d) (index d) 0 (length (blocks d))
                        (is_Some_b forced) true]
    /\ length (examples d') = S (length (examples d))
    /\ examples d' !! length (examples d)
       = Some (mkExample (depth d + 1) (DRAW_BYTES_LABEL calc)
                 (length (examples d)) (index d) (Some (index d)) true
                 (Some false) [])
    /\ block_starts d' !! 0 = Some (default [] (block_starts d !! 0) ++ [index d]).
Proof.
  intros Hreach Hf Hcap Hforced.
  pose proof (Inv_stack_in_range _ (reachable_Inv _ Hreach)) as Hr.
  assert (Hraw : raw_bytes src (bits_to_bytes 0) forced d = Ok [])
    by (destruct Hforced as [->|[-> Hsrc]]; [reflexivity|exact Hsrc]).
  exists (after_draw (DRAW_BYTES_LABEL calc) 0 (is_Some_b forced) [] d).
  split.
  { rewrite (draw_bits_ok src 0 forced d [] []);
      auto using stack_in_range_top.
    rewrite bits_to_bytes_0. lia. }
  destruct (after_draw_misc (DRAW_BYTES_LABEL calc) 0 (is_Some_b forced) [] d)
    as (_ & _ & _ & _ & Hlen).
  split; [rewrite after_draw_buffer; apply app_nil_r|].
  split.
  { rewrite after_draw_blocks, bits_to_bytes_0. unfold new_block.
    rewrite Z.add_0_r. reflexivity. }
  split; [exact Hlen|].
  split.
  { rewrite after_draw_example by auto using stack_in_range_top.
    rewrite bits_to_bytes_0. unfold new_block, block_trivial.
    cbn [length b_forced b_all_zero]. rewrite Z.add_0_r.
    replace (int_from_bytes [] =? 0) with true by reflexivity.
    rewrite orb_true_r. reflexivity. }
  rewrite after_draw_block_starts, bits_to_bytes_0. apply lookup_insert_eq.
Qed.

(** ** Operations on a frozen record *)

Lemma mark_invalid_frozen d :
  frozen d = true ->
  mark_invalid d = (Raise (Frozen (frozen_message "conclude_test")), d).
Proof.
  intros Hf. unfold mark_invalid, conclude_test. cbn [is_None orb].
  unfold assert at 1, ret at 1, bind at 1.
  now rewrite (bind_Raise _ _ _ _ _ (assert_not_frozen_frozen _ _ Hf)).
Qed.

Lemma start_example_frozen label d :
  frozen d = true ->
  start_example label d = (Raise (Frozen (frozen_message "start_example")), d).
Proof.
  intros Hf. unfold start_example.
  now rewrite (bind_Raise _ _ _ _ _ (assert_not_frozen_frozen _ _ Hf)).
Qed.

Lemma write_frozen src string d :
  frozen d = true ->
  write calc src string d = (Raise (Frozen (frozen_message "write")), d).
Proof.
  intros Hf. unfold write.
  now rewrite (bind_Raise _ _ _ _ _ (assert_not_frozen_frozen _ _ Hf)).
Qed.

Lemma draw_frozen_exact {A} (strategy : Strategy A) label d :
  frozen d = true ->
  draw strategy label d
  = (Raise (if is_find d && negb (supports_find strategy)
            then InvalidArgument
            else if is_empty strategy || (depth d >=? MAX_DEPTH)
                 then Frozen (frozen_message "conclude_test")
                 else Frozen (frozen_message "start_example")), d).
Proof.
  intros Hf. unfold draw. unfold get at 1, bind at 1.
  destruct (is_find d && negb (supports_find strategy)); [reflexivity|].
  cbn [when]. unfold ret at 1, bind at 1.
  destruct (is_empty strategy); cbn [when orb].
  { now rewrite (bind_Raise _ _ _ _ _ (mark_invalid_frozen _ Hf)). }
  unfold ret at 1, bind at 1. unfold get at 1, bind at 1.
  destruct (depth d >=? MAX_DEPTH); cbn [when].
  { now rewrite (bind_Raise _ _ _ _ _ (mark_invalid_frozen _ Hf)). }
  unfold ret at 1, bind at 1.
  unfold draw_inner. unfold get at 1, bind at 1.
  now rewrite (bind_Raise _ _ _ _ _ (start_example_frozen _ _ Hf)).
Qed.

(** C2, as the code has it: on a frozen record [draw_bits], [write] and
    [start_example] fail with the usage error [Frozen] naming the operation
    and leave the record as it is; [stop_example] returns normally and
    changes nothing; [draw] fails and changes nothing, with
    [InvalidArgument] when the record is in find mode and the strategy does
    not support it, and otherwise with [Frozen] naming the inner operation
    that met the frozen record: [conclude_test] when the strategy is empty
    or the depth has reached [MAX_DEPTH], [start_example] in every other
    case. *)
Theorem frozen_record_is_not_mutated d :
  frozen d = true ->
  (forall src n forced,
      draw_bits calc src n forced d
      = (Raise (Frozen (frozen_message "draw_bits")), d))
  /\ (forall src string,
        write calc src string d = (Raise (Frozen (frozen_message "write")), d))
  /\ (forall label,
        start_example label d
        = (Raise (Frozen (frozen_message "start_example")), d))
  /\ (forall discard, stop_example discard d = (Ok tt, d))
  /\ (forall (strategy : Strategy Z) label,
        draw strategy label d
        = (Raise (if is_find d && negb (supports_find strategy)
                  then InvalidArgument
                  else if is_empty strategy || (depth d >=? MAX_DEPTH)
                       then Frozen (frozen_message "conclude_test")
                       else Frozen (frozen_message "start_example")), d)).
Proof.
  intros Hf. repeat split; intros.
  - now apply draw_bits_frozen.
  - now apply write_frozen.
  - now apply start_example_frozen.
  - now apply stop_example_frozen.
  - now apply draw_frozen_exact.
Qed.

(** ** The order of the recording steps *)

(** C4, as the code has it: a successful [draw_bits] opens the primitive
    example, then flags it from the new block, indexes and appends the
    block and appends the bytes ([record_block]), and closes the example
    last; the closed example therefore spans the drawn bytes, from the
    old buffer length to the new one. *)
Theorem draw_bits_closes_example_last src n forced d raw buf :
  reachable calc d -> frozen d = false ->
  index d + bits_to_bytes n <= max_length d ->
  raw_bytes src (bits_to_bytes n) forced d = Ok raw ->
  Z.of_nat (length raw) = bits_to_bytes n ->
  mask_bytes n raw = Ok buf ->
  exists d1 d3 e,
    start_example (DRAW_BYTES_LABEL calc) d = (Ok (length (examples d)), d1)
    /\ stop_example false
         (record_block n (bits_to_bytes n) (is_Some_b forced) buf
            (length (examples d)) d1) = (Ok tt, d3)
    /\ draw_bits calc src n forced d = (Ok (int_from_bytes buf), d3)
    /\ examples d3 !! length (examples d) = Some e
    /\ ex_label e = DRAW_BYTES_LABEL calc
    /\ ex_start e = index d
    /\ ex_end e = Some (index d + bits_to_bytes n)
    /\ index d3 = index d + bits_to_bytes n
    /\ ex_trivial e
       = block_trivial (new_block n (bits_to_bytes n) (is_Some_b forced) buf d)
    /\ blocks d3
       = blocks d ++ [new_block n (bits_to_bytes n) (is_Some_b forced) buf d].
Proof.
  intros Hreach Hf Hcap Hraw Hlen Hmask.
  pose proof (Inv_stack_in_range _ (reachable_Inv _ Hreach)) as Hr.
  pose proof (stack_in_range_top _ Hr) as Htop.
  destruct (mask_bytes_spec _ _ _ Hlen Hmask) as (Hn & Hbl & Hv).
  pose proof (after_start_new_example (DRAW_BYTES_LABEL calc) d Htop) as Hi.
  exists (after_start (DRAW_BYTES_LABEL calc) d),
    (after_draw (DRAW_BYTES_LABEL calc) n (is_Some_b forced) buf d).
  eexists.
  split; [apply start_example_ok; assumption|].
  split.
  { unfold after_draw. apply stop_example_ok.
    - destruct d; exact Hf.
    - destruct d; reflexivity.
    - unfold record_block.
      cbn [examples set_buffer set_blocks set_block_starts set_examples].
      rewrite list_lookup_alter_eq, Hi. reflexivity.
    - intros p r Hs. unfold record_block.
      cbn [examples set_buffer set_blocks set_block_starts set_examples].
      rewrite length_alter, after_start_examples_length.
      specialize (Htop p r Hs). lia. }
  split; [apply (draw_bits_ok src n forced d raw buf); assumption|].
  split; [apply after_draw_example; assumption|].
  cbn [ex_label ex_start ex_end ex_trivial].
  split; [reflexivity|]. split; [reflexivity|].
  split; [f_equal; lia|].
  split; [unfold index; rewrite after_draw_buffer, length_app; lia|].
  split; [reflexivity|apply after_draw_blocks].
Qed.

(** ** Consequences of the invariants *)

Lemma proj_of_lookup {A} (g : Example -> A) (exs : list Example) (i : nat) e :
  exs !! i = Some e -> g <$> exs !! i = Some (g e).
Proof. intros ->. reflexivity. Qed.

Lemma all_trivial_within_true s e bl :
  all_trivial_within s e bl = true
  <-> (forall b, b ∈ bl -> s <= b_start b -> b_end b <= e -> block_trivial b = true).
Proof.
  unfold all_trivial_within. rewrite forallb_forall. split.
  - intros H b Hb Hs He. apply list_elem_of_In in Hb. specialize (H b Hb).
    replace (s <=? b_start b) with true in H by lia.
    replace (b_end b <=? e) with true in H by lia. exact H.
  - intros H b Hb. apply list_elem_of_In in Hb.
    destruct (Z.leb_spec s (b_start b)); [|reflexivity].
    destruct (Z.leb_spec (b_end b) e); [|reflexivity].
    cbn. auto.
Qed.

Lemma closed_trivial_iff d i e en :
  Inv d -> examples d !! i = Some e -> ex_end e = Some en ->
  (ex_trivial e = true
   <-> forall b, b ∈ blocks d -> ex_start e <= b_start b -> b_end b <= en ->
                 block_trivial b = true).
Proof.
  intros HI He Hen. rewrite <- all_trivial_within_true.
  rewrite (t_closed _ _ _ (inv_trivial _ HI) i (ex_start e) en (ex_trivial e)).
  - reflexivity.
  - unfold start_of. now rewrite He.
  - unfold end_of. rewrite He. cbn. now rewrite Hen.
  - unfold trivial_of. now rewrite He.
Qed.

(** The span of a descendant lies within the span of its ancestor. *)
Lemma descendant_span d p c :
  Inv d -> frozen d = true -> descendant (examples d) p c ->
  exists ep ec pe ce,
    examples d !! p = Some ep /\ examples d !! c = Some ec
    /\ ex_end ep = Some pe /\ ex_end ec = Some ce
    /\ ex_start ep <= ex_start ec /\ ce <= pe.
Proof.
  intros HI Hf Hdesc. pose proof (inv_examples _ HI) as HE.
  assert (Hchild : forall p c ep, examples d !! p = Some ep -> c ∈ ex_children ep ->
            exists ec pe ce,
              examples d !! c = Some ec
              /\ ex_end ep = Some pe /\ ex_end ec = Some ce
              /\ ex_start ep <= ex_start ec /\ ce <= pe).
  { clear p c Hdesc. intros p c ep Hp Hc.
    pose proof (proj_of_lookup ex_children _ _ _ Hp) as Hcs.
    destruct (e_child_lt _ _ _ HE p _ c Hcs Hc) as [Hlt Hlen].
    destruct (lookup_lt_is_Some_2 _ _ Hlen) as [ec Hec].
    destruct (frozen_closed d p ep HI Hf Hp) as [pe Hpe].
    assert (Hpend : end_of (examples d) p = Some (Some pe))
      by (unfold end_of; rewrite Hp; cbn; now rewrite Hpe).
    destruct (e_child_end _ _ _ HE p _ c pe Hcs Hc Hpend) as (ce & Hce & Hle).
    exists ec, pe, ce. split; [assumption|]. split; [assumption|].
    split; [unfold end_of in Hce; rewrite Hec in Hce; cbn in Hce; congruence|].
    split; [|assumption].
    apply (e_mono _ _ _ HE p c);
      [lia|unfold start_of; now rewrite Hp|unfold start_of; now rewrite Hec]. }
  induction Hdesc as [p c ep Hp Hc|p c q ep Hp Hc Hdesc IH].
  - destruct (Hchild p c ep Hp Hc) as (ec & pe & ce & ? & ? & ? & ? & ?).
    exists ep, ec, pe, ce. auto 10.
  - destruct (Hchild p c ep Hp Hc) as (ec & pe & ce & Hec & Hpe & Hce & Hs1 & He1).
    destruct IH as (ec' & eq & ce' & qe & Hec' & Heq & Hce' & Hqe & Hs2 & He2).
    assert (ec' = ec) as -> by congruence.
    assert (ce' = ce) as -> by congruence.
    exists ep, eq, pe, qe. repeat split; try assumption; lia.
Qed.

(** C5: in a frozen record every example is closed, and its [trivial]
    flag is true exactly when every block whose span lies within the span
    of the example (the blocks drawn while it was open; a block of length
    zero is always trivial) is trivial; in particular an example that is
    not trivial makes every example it descends from not trivial. *)
Theorem frozen_example_trivial_iff_blocks_trivial d :
  reachable calc d -> frozen d = true ->
  (forall i e, examples d !! i = Some e ->
     exists en, ex_end e = Some en
       /\ (ex_trivial e = true
           <-> forall b, b ∈ blocks d ->
                 ex_start e <= b_start b -> b_end b <= en ->
                 block_trivial b = true))
  /\ (forall p c ep ec,
        descendant (examples d) p c ->
        examples d !! p = Some ep -> examples d !! c = Some ec ->
        ex_trivial ec = false -> ex_trivial ep = false).
Proof.
  intros Hreach Hf. pose proof (reachable_Inv _ Hreach) as HI. split.
  - intros i e He. destruct (frozen_closed d i e HI Hf He) as [en Hen].
    exists en. split; [assumption|]. now apply (closed_trivial_iff d i).
  - intros p c ep ec Hdesc Hp Hc Hnt.
    destruct (descendant_span d p c HI Hf Hdesc)
      as (ep' & ec' & pe & ce & Hp' & Hc' & Hpe & Hce & Hs & He).
    assert (ep' = ep) as -> by congruence.
    assert (ec' = ec) as -> by congruence.
    destruct (ex_trivial ep) eqn:Htp; [|reflexivity].
    exfalso. rewrite (closed_trivial_iff d p ep pe HI Hp Hpe) in Htp.
    assert (Htc : ex_trivial ec = true).
    { apply (closed_trivial_iff d c ec ce HI Hc Hce).
      intros b Hb Hbs Hbe. apply Htp; [assumption|lia..]. }
    congruence.
Qed.

(** ** The blocks partition the buffer *)











(** ** The example tree of a frozen record *)

Lemma proj_Some_inv {A} (g : Example -> A) (exs : list Example) (i : nat) x :
  g <$> exs !! i = Some x -> exists e, exs !! i = Some e /\ g e = x.
Proof.
  destruct (exs !! i) as [e|]; [|discriminate].
  cbn. intros [= <-]. eauto.
Qed.

(** C7: in a frozen record every example sits at its index and is closed
    within the buffer, starts follow the order in which the examples were
    opened, the span of a child lies within the span of its parent, and the
    children of an example appear in creation order with non-decreasing
    starts and ends (each child ends before the next one starts).  While
    the record is not frozen, [start_example] gives the new example the
    next index and appends it to the children of the example on top of the
    stack, and to no other. *)
Theorem frozen_examples_properly_nested d :
  reachable calc d ->
  (frozen d = true ->
     (forall i e, examples d !! i = Some e ->
        ex_index e = i
        /\ exists en, ex_end e = Some en /\ 0 <= ex_start e <= en /\ en <= index d)
     /\ (forall i j ei ej, (i <= j)%nat ->
           examples d !! i = Some ei -> examples d !! j = Some ej ->
           ex_start ei <= ex_start ej)
     /\ (forall p c ep, examples d !! p = Some ep -> c ∈ ex_children ep ->
           (p < c)%nat
           /\ exists ec pe ce,
               examples d !! c = Some ec
               /\ ex_end ep = Some pe /\ ex_end ec = Some ce
               /\ ex_start ep <= ex_start ec /\ ce <= pe)
     /\ (forall p ep j1 j2 c1 c2, examples d !! p = Some ep -> (j1 < j2)%nat ->
           ex_children ep !! j1 = Some c1 -> ex_children ep !! j2 = Some c2 ->
           (c1 < c2)%nat
           /\ exists e1 e2 n1 n2,
               examples d !! c1 = Some e1 /\ examples d !! c2 = Some e2
               /\ ex_end e1 = Some n1 /\ ex_end e2 = Some n2
               /\ ex_start e1 <= ex_start e2 /\ n1 <= n2
               /\ n1 <= ex_start e2))
  /\ (frozen d = false ->
      forall label, exists d',
        start_example label d = (Ok (length (examples d)), d')
        /\ examples d' !! length (examples d)
           = Some (mkExample (depth d + 1) label (length (examples d)) (index d)
                     None true None [])
        /\ match example_stack d with
           | p :: _ =>
             children_of (examples d') p
             = (fun cs => cs ++ [length (examples d)]) <$> children_of (examples d) p
           | [] => True
           end
        /\ (forall q, (q < length (examples d))%nat ->
              head (example_stack d) <> Some q ->
              children_of (examples d') q = children_of (examples d) q)).
Proof.
  intros Hreach. pose proof (reachable_Inv _ Hreach) as HI.
  pose proof (inv_examples _ HI) as HE. split.
  - intros Hf.
    assert (Hclosed : forall i e, examples d !! i = Some e ->
              exists en, ex_end e = Some en /\ 0 <= ex_start e <= en
                         /\ en <= index d).
    { intros i e He. destruct (frozen_closed d i e HI Hf He) as [en Hen].
      exists en. split; [assumption|].
      assert (Hs : start_of (examples d) i = Some (ex_start e))
        by (unfold start_of; now rewrite He).
      assert (Hend : end_of (examples d) i = Some (Some en))
        by (unfold end_of; rewrite He; cbn; now rewrite Hen).
      pose proof (e_start _ _ _ HE _ _ Hs).
      pose proof (e_end _ _ _ HE _ _ _ Hs Hend). lia. }
    split; [|split; [|split]].
    + intros i e He. split; [|eauto].
      apply (e_index _ _ _ HE). unfold idx_of. now rewrite He.
    + intros i j ei ej Hij Hi Hj.
      apply (e_mono _ _ _ HE i j); [assumption|unfold start_of..].
      * now rewrite Hi.
      * now rewrite Hj.
    + intros p c ep Hp Hc.
      assert (Hcs : children_of (examples d) p = Some (ex_children ep))
        by (unfold children_of; now rewrite Hp).
      split; [apply (e_child_lt _ _ _ HE p _ c Hcs Hc)|].
      destruct (descendant_span d p c HI Hf (descendant_child _ p c ep Hp Hc))
        as (ep' & ec & pe & ce & Hp' & Hec & Hpe & Hce & Hs & He).
      assert (ep' = ep) as -> by congruence.
      exists ec, pe, ce. auto 10.
    + intros p ep j1 j2 c1 c2 Hp Hlt Hc1 Hc2.
      assert (Hcs : children_of (examples d) p = Some (ex_children ep))
        by (unfold children_of; now rewrite Hp).
      destruct (e_siblings _ _ _ HE p _ j1 j2 c1 c2 Hcs Hlt Hc1 Hc2)
        as (Hc & n1 & s2 & Hn1 & Hs2 & Hle).
      split; [assumption|].
      apply proj_Some_inv in Hn1 as (e1 & He1 & Hn1).
      apply proj_Some_inv in Hs2 as (e2 & He2 & Hs2).
      destruct (Hclosed c1 e1 He1) as (n1' & Hn1' & ? & ?).
      destruct (Hclosed c2 e2 He2) as (n2 & Hn2 & ? & ?).
      assert (n1' = n1) as -> by congruence.
      exists e1, e2, n1, n2. repeat split; try assumption; lia.
  - intros Hf label.
    pose proof (Inv_stack_in_range _ HI) as Hr.
    pose proof (stack_in_range_top _ Hr) as Htop.
    assert (Hstk : forall p, p ∈ example_stack d -> (p < length (examples d))%nat)
      by (intros p Hp; unfold stack_in_range in Hr; rewrite Forall_forall in Hr;
          auto).
    exists (after_start label d).
    split; [now apply start_example_ok|].
    split; [now apply after_start_new_example|].
    rewrite after_start_examples. split.
    + destruct (example_stack d) as [|p rest] eqn:Hs; [exact I|].
      rewrite opened_children by assumption.
      assert (p < length (examples d))%nat by (apply Hstk; left).
      destruct (decide (p = length (examples d))); [lia|].
      destruct (decide (p = p)); [reflexivity|congruence].
    + intros q Hq Hhead. rewrite opened_children by assumption.
      destruct (decide (q = length (examples d))); [lia|].
      destruct (example_stack d) as [|p rest]; [reflexivity|].
      destruct (decide (p = q)) as [->|]; [|reflexivity].
      cbn in Hhead. congruence.
Qed.

(** ** Values fit their bit widths *)




End Draws.

(** * The theorems on concrete records *)

Lemma draw_bits_forced_returns_forced_witness :
  exists d' b,
    draw_bits demo_label zero_source 8 (Some 5) fresh_demo = (Ok 5, d')
    /\ blocks d' = blocks fresh_demo ++ [b]
    /\ b_forced b = true /\ b_bits b = 8.
Proof.
  apply (draw_bits_forced_returns_forced demo_label zero_source 8 5 fresh_demo).
  - apply reachable_new.
  - reflexivity.
  - lia.
  - lia.
  - vm_compute. discriminate.
  - vm_compute. discriminate.
Defined.

Lemma frozen_record_is_not_mutated_witness :
  (forall src n forced,
      draw_bits demo_label src n forced frozen_demo
      = (Raise (Frozen (frozen_message "draw_bits")), frozen_demo))
  /\ (forall src string,
        write demo_label src string frozen_demo
        = (Raise (Frozen (frozen_message "write")), frozen_demo))
  /\ (forall label,
        start_example label frozen_demo
        = (Raise (Frozen (frozen_message "start_example")), frozen_demo))
  /\ (forall discard, stop_example discard frozen_demo = (Ok tt, frozen_demo))
  /\ draw no_find_strategy None (in_find_mode frozen_demo)
     = (Raise InvalidArgument, in_find_mode frozen_demo)
  /\ draw empty_strategy None frozen_demo
     = (Raise (Frozen (frozen_message "conclude_test")), frozen_demo)
  /\ draw unit_strategy None frozen_demo
     = (Raise (Frozen (frozen_message "start_example")), frozen_demo).
Proof.
  pose proof (frozen_record_is_not_mutated demo_label frozen_demo eq_refl)
    as (H1 & H2 & H3 & H4 & H5).
  pose proof (frozen_record_is_not_mutated demo_label (in_find_mode frozen_demo)
                eq_refl) as (_ & _ & _ & _ & H6).
  split; [exact H1|]. split; [exact H2|]. split; [exact H3|].
  split; [exact H4|]. split; [|split].
  - exact (H6 no_find_strategy None).
  - exact (H5 empty_strategy None).
  - exact (H5 unit_strategy None).
Defined.

(** Counterexample to C2 as stated: on a frozen record [stop_example]
    does not fail, and the error of [draw] names [start_example]. *)
Lemma frozen_stop_example_returns_normally :
  frozen frozen_demo = true
  /\ stop_example true frozen_demo = (Ok tt, frozen_demo)
  /\ ~ (exists e, fst (stop_example true frozen_demo) = Raise e)
  /\ fst (draw unit_strategy None frozen_demo)
     = Raise (Frozen (frozen_message "start_example"))
  /\ fst (draw unit_strategy None frozen_demo)
     <> Raise (Frozen (frozen_message "draw")).
Proof.
  split; [reflexivity|]. split; [reflexivity|]. split.
  - intros [e He]. vm_compute in He. discriminate.
  - split; [reflexivity|]. vm_compute. discriminate.
Qed.

Lemma draw_bits_overrun_aborts_witness :
  exists d',
    draw_bits demo_label zero_source 8 None opened_full_demo
    = (Raise (StopTest (testcounter opened_full_demo)), d')
    /\ overdraw d'
       = index opened_full_demo + bits_to_bytes 8 - max_length opened_full_demo
    /\ status d' = OVERRUN
    /\ frozen d' = true
    /\ example_stack d' = []
    /\ length (examples d') = length (examples opened_full_demo)
    /\ (forall i e, examples d' !! i = Some e ->
          exists en, ex_end e = Some en /\ en <= index opened_full_demo)
    /\ buffer d' = buffer opened_full_demo
    /\ blocks d' = blocks opened_full_demo
    /\ block_starts d' = block_starts opened_full_demo.
Proof.
  apply (draw_bits_overrun_aborts demo_label zero_source 8 None opened_full_demo).
  - apply reachable_step, reachable_new.
  - vm_compute; reflexivity.
  - vm_compute; reflexivity.
Defined.

Lemma draw_bits_closes_example_last_witness :
  exists d1 d3 e,
    start_example (DRAW_BYTES_LABEL demo_label) fresh_demo
    = (Ok (length (examples fresh_demo)), d1)
    /\ stop_example false
         (record_block 8 (bits_to_bytes 8) (is_Some_b (@None Z)) [x00]
            (length (examples fresh_demo)) d1) = (Ok tt, d3)
    /\ draw_bits demo_label zero_source 8 None fresh_demo
       = (Ok (int_from_bytes [x00]), d3)
    /\ examples d3 !! length (examples fresh_demo) = Some e
    /\ ex_label e = DRAW_BYTES_LABEL demo_label
    /\ ex_start e = index fresh_demo
    /\ ex_end e = Some (index fresh_demo + bits_to_bytes 8)
    /\ index d3 = index fresh_demo + bits_to_bytes 8
    /\ ex_trivial e
       = block_trivial (new_block 8 (bits_to_bytes 8) (is_Some_b (@None Z)) [x00]
                          fresh_demo)
    /\ blocks d3
       = blocks fresh_demo
         ++ [new_block 8 (bits_to_bytes 8) (is_Some_b (@None Z)) [x00] fresh_demo].
Proof.
  apply (draw_bits_closes_example_last demo_label zero_source 8 None fresh_demo
           [x00] [x00]).
  - apply reachable_new.
  - reflexivity.
  - vm_compute. discriminate.
  - reflexivity.
  - reflexivity.
  - reflexivity.
Defined.

(** Counterexample to C4 as stated: with the steps in the order of the
    specification the primitive example of a one-byte draw would end where
    it starts; the code closes it after the byte is appended. *)
Lemma spec_order_closes_example_early :
  ex_end <$> examples (snd (draw_bits demo_label zero_source 8 (Some 1) fresh_demo))
             !! 1%nat = Some (Some 1)
  /\ ex_end <$> examples (snd (draw_bits_spec_order demo_label zero_source 8
                                 (Some 1) fresh_demo)) !! 1%nat = Some (Some 0)
  /\ snd (draw_bits demo_label zero_source 8 (Some 1) fresh_demo)
     <> snd (draw_bits_spec_order demo_label zero_source 8 (Some 1) fresh_demo).
Proof.
  split; [reflexivity|]. split; [reflexivity|].
  intros H.
  apply (f_equal (fun d => ex_end <$> examples d !! 1%nat)) in H.
  vm_compute in H. discriminate.
Qed.

Lemma frozen_example_trivial_iff_blocks_trivial_witness :
  ((forall i e, examples nested_frozen_demo !! i = Some e ->
      exists en, ex_end e = Some en
        /\ (ex_trivial e = true
            <-> forall b, b ∈ blocks nested_frozen_demo ->
                  ex_start e <= b_start b -> b_end b <= en ->
                  block_trivial b = true))
   /\ (forall p c ep ec,
         descendant (examples nested_frozen_demo) p c ->
         examples nested_frozen_demo !! p = Some ep ->
         examples nested_frozen_demo !! c = Some ec ->
         ex_trivial ec = false -> ex_trivial ep = false))
  /\ blocks nested_frozen_demo
     = [mkBlock 0 1 8 0 false false; mkBlock 1 2 8 1 false true]
  /\ ex_trivial <$> examples nested_frozen_demo = [false; false; false; true]
  /\ descendant (examples nested_frozen_demo) 0 2.
Proof.
  split.
  - apply (frozen_example_trivial_iff_blocks_trivial demo_label
             nested_frozen_demo).
    + repeat apply reachable_step. apply reachable_new.
    + vm_compute; reflexivity.
  - split; [vm_compute; reflexivity|]. split; [vm_compute; reflexivity|].
    apply (descendant_step _ 0%nat 1%nat 2%nat
             (mkExample 0 (demo_label "top") 0 0 (Some 2) false (Some false)
                [1%nat; 3%nat])).
    + vm_compute; reflexivity.
    + left.
    + apply (descendant_child _ 1%nat 2%nat
               (mkExample 1 7 1 0 (Some 1) false (Some false) [2%nat])).
      * vm_compute; reflexivity.
      * left.
Defined.



Lemma frozen_examples_properly_nested_witness :
  ((forall i e, examples nested_frozen_demo !! i = Some e ->
      ex_index e = i
      /\ exists en, ex_end e = Some en /\ 0 <= ex_start e <= en
                    /\ en <= index nested_frozen_demo)
   /\ (forall i j ei ej, (i <= j)%nat ->
         examples nested_frozen_demo !! i = Some ei ->
         examples nested_frozen_demo !! j = Some ej ->
         ex_start ei <= ex_start ej)
   /\ (forall p c ep, examples nested_frozen_demo !! p = Some ep -> c ∈ ex_children ep ->
         (p < c)%nat
         /\ exists ec pe ce,
             examples nested_frozen_demo !! c = Some ec
             /\ ex_end ep = Some pe /\ ex_end ec = Some ce
             /\ ex_start ep <= ex_start ec /\ ce <= pe)
   /\ (forall p ep j1 j2 c1 c2,
         examples nested_frozen_demo !! p = Some ep -> (j1 < j2)%nat ->
         ex_children ep !! j1 = Some c1 -> ex_children ep !! j2 = Some c2 ->
         (c1 < c2)%nat
         /\ exists e1 e2 n1 n2,
             examples nested_frozen_demo !! c1 = Some e1
             /\ examples nested_frozen_demo !! c2 = Some e2
             /\ ex_end e1 = Some n1 /\ ex_end e2 = Some n2
             /\ ex_start e1 <= ex_start e2 /\ n1 <= n2
             /\ n1 <= ex_start e2))
  /\ (ex_children <$> examples nested_frozen_demo
      = [[1%nat; 3%nat]; [2%nat]; []; []]
      /\ (fun e => (ex_start e, ex_end e)) <$> examples nested_frozen_demo
         = [(0, Some 2); (0, Some 1); (0, Some 1); (1, Some 2)])
  /\ (forall label, exists d',
        start_example label fresh_demo = (Ok (length (examples fresh_demo)), d')
        /\ examples d' !! length (examples fresh_demo)
           = Some (mkExample (depth fresh_demo + 1) label
                     (length (examples fresh_demo)) (index fresh_demo)
                     None true None [])
        /\ match example_stack fresh_demo with
           | p :: _ =>
             children_of (examples d') p
             = (fun cs => cs ++ [length (examples fresh_demo)])
                 <$> children_of (examples fresh_demo) p
           | [] => True
           end
        /\ (forall q, (q < length (examples fresh_demo))%nat ->
              head (example_stack fresh_demo) <> Some q ->
              children_of (examples d') q = children_of (examples fresh_demo) q)).
Proof.
  split; [|split].
  - pose proof (frozen_examples_properly_nested demo_label nested_frozen_demo)
      as H.
    apply H.
    + repeat apply reachable_step. apply reachable_new.
    + vm_compute; reflexivity.
  - split; vm_compute; reflexivity.
  - apply (proj2 (frozen_examples_properly_nested demo_label fresh_demo
                    (reachable_new _ _ _))).
    reflexivity.
Defined.


Lemma stop_example_empty_region_not_discarded_witness :
  exists d' ex',
    stop_example true fresh_demo = (Ok tt, d')
    /\ examples d' !! 0%nat = Some ex'
    /\ ex_end ex' = Some (index fresh_demo)
    /\ ex_discarded ex' = Some false
    /\ has_discards d' = has_discards fresh_demo.
Proof.
  apply (stop_example_empty_region_not_discarded demo_label true fresh_demo
           0%nat [] top_demo).
  - apply reachable_new.
  - reflexivity.
  - reflexivity.
  - reflexivity.
  - reflexivity.
Defined.

Lemma draw_bits_zero_records_structure_witness :
  exists d',
    draw_bits demo_label zero_source 0 None fresh_demo = (Ok 0, d')
    /\ buffer d' = buffer fresh_demo
    /\ blocks d'
       = blocks fresh_demo
         ++ [mkBlock (index fresh_demo) (index fresh_demo) 0
               (length (blocks fresh_demo)) (is_Some_b (@None Z)) true]
    /\ length (examples d') = S (length (examples fresh_demo))
    /\ examples d' !! length (examples fresh_demo)
       = Some (mkExample (depth fresh_demo + 1) (DRAW_BYTES_LABEL demo_label)
                 (length (examples fresh_demo)) (index fresh_demo)
                 (Some (index fresh_demo)) true (Some false) [])
    /\ block_starts d' !! 0
       = Some (default [] (block_starts fresh_demo !! 0) ++ [index fresh_demo]).
Proof.
  apply (draw_bits_zero_records_structure demo_label zero_source None fresh_demo).
  - apply reachable_new.
  - reflexivity.
  - vm_compute. discriminate.
  - right. split; reflexivity.
Defined.

(** * Further properties of the recorder *)

(** ** Byte counts and encodings *)

(** [bits_to_bytes n] is the least number of bytes that hold [n] bits. *)
Theorem bits_to_bytes_is_ceiling (n : Z) :
  8 * (bits_to_bytes n - 1) < n <= 8 * bits_to_bytes n.
Proof.
  destruct (bits_to_bytes_spec n) as [[? ?]|[? ?]]; lia.
Qed.

Lemma to_bytes_le_from_bytes (bs : list byte) :
  rev (to_bytes_le (length bs) (int_from_bytes bs)) = bs.
Proof.
  induction bs as [|b bs IH] using rev_ind; [reflexivity|].
  rewrite length_app, Nat.add_1_r, int_from_bytes_snoc.
  cbn [to_bytes_le rev to_bytes_le].
  pose proof (byte_to_Z_range b) as Hb.
  replace ((int_from_bytes bs * 256 + byte_to_Z b) mod 256) with (byte_to_Z b)
    by (rewrite Z.add_comm, Z.mod_add by lia; rewrite Z.mod_small; lia).
  replace ((int_from_bytes bs * 256 + byte_to_Z b) / 256) with (int_from_bytes bs)
    by (rewrite Z.add_comm, Z.div_add by lia; rewrite Z.div_small; lia).
  rewrite byte_of_to_Z, IH. reflexivity.
Qed.

Lemma int_to_from_bytes (bs : list byte) :
  int_to_bytes (int_from_bytes bs) (Z.of_nat (length bs)) = Ok bs.
Proof.
  pose proof (int_from_bytes_range bs).
  rewrite int_to_bytes_fits by lia.
  rewrite Nat2Z.id, to_bytes_le_from_bytes. reflexivity.
Qed.

Lemma int_from_bytes_inj (xs ys : list byte) :
  length xs = length ys -> int_from_bytes xs = int_from_bytes ys -> xs = ys.
Proof.
  intros Hlen Hv. rewrite <- (to_bytes_le_from_bytes xs).
  rewrite <- (to_bytes_le_from_bytes ys). now rewrite Hlen, Hv.
Qed.

Lemma int_from_bytes_zero (bs : list byte) :
  int_from_bytes bs = 0 <-> Forall (fun b => b = x00) bs.
Proof.
  induction bs as [|b bs IH].
  - split; [constructor|reflexivity].
  - rewrite int_from_bytes_cons.
    pose proof (byte_to_Z_range b) as Hb.
    pose proof (int_from_bytes_range bs) as Hbs.
    assert (Hp : 0 < 256 ^ Z.of_nat (length bs)) by (apply Z.pow_pos_nonneg; lia).
    split.
    + intros H. assert (byte_to_Z b = 0) by nia.
      assert (int_from_bytes bs = 0) by nia.
      constructor; [|now apply IH].
      rewrite <- (byte_of_to_Z b). now replace (byte_to_Z b) with 0.
    + intros H. inversion H as [|? ? Hb0 Hrest]; subst.
      apply IH in Hrest. rewrite Hrest. reflexivity.
Qed.

Section More.

Variable calc : string -> Z.

(** ** What a draw appends *)

Lemma draw_bits_encoding src n forced d v d' :
  reachable calc d ->
  draw_bits calc src n forced d = (Ok v, d') ->
  exists bytes,
    int_to_bytes v (bits_to_bytes n) = Ok bytes
    /\ buffer d' = buffer d ++ bytes
    /\ index d' = index d + bits_to_bytes n
    /\ index d' <= max_length d
    /\ frozen d' = false
    /\ example_stack d' = example_stack d
    /\ length (blocks d') = S (length (blocks d))
    /\ length (examples d') = S (length (examples d)).
Proof.
  intros Hreach Hdraw. pose proof (reachable_Inv _ _ Hreach) as HI.
  destruct (draw_bits_cases calc src n forced d (Inv_stack_in_range _ HI))
    as [[e He]|[(_ & _ & He)|(raw & buf & Hf & Hcap & Hraw & Hlen & Hmask & Hok)]];
    [congruence..|].
  rewrite Hok in Hdraw. injection Hdraw as <- <-.
  destruct (mask_bytes_spec _ _ _ Hlen Hmask) as (Hn & Hbl & Hv).
  exists buf. split.
  { replace (bits_to_bytes n) with (Z.of_nat (length buf)) by lia.
    apply int_to_from_bytes. }
  split; [apply after_draw_buffer|].
  assert (Hidx : index (after_draw (DRAW_BYTES_LABEL calc) n (is_Some_b forced) buf d)
                 = index d + bits_to_bytes n)
    by (unfold index; rewrite after_draw_buffer, length_app; lia).
  split; [exact Hidx|]. split; [lia|].
  split; [rewrite after_draw_frozen; exact Hf|].
  split; [apply after_draw_stack|].
  split; [rewrite after_draw_blocks, length_app; cbn; lia|].
  apply after_draw_misc.
Qed.

(** The bytes a successful [draw_bits] appends are the big-endian encoding
    of the value it returns, in [ceil(n / 8)] bytes; the record stays
    unfrozen with the same stack of open examples, one more block and one
    more example. *)
Theorem draw_bits_appends_encoding src n forced d v d' :
  reachable calc d ->
  draw_bits calc src n forced d = (Ok v, d') ->
  exists bytes,
    int_to_bytes v (bits_to_bytes n) = Ok bytes
    /\ buffer d' = buffer d ++ bytes
    /\ index d' = index d + bits_to_bytes n
    /\ index d' <= max_length d
    /\ frozen d' = false
    /\ example_stack d' = example_stack d
    /\ length (blocks d') = S (length (blocks d))
    /\ length (examples d') = S (length (examples d)).
Proof. apply draw_bits_encoding. Qed.

(** Two draws of the same width from records with equal buffers leave equal
    buffers exactly when they return equal values: the masked bits of the
    source never reach the buffer. *)
Theorem draw_bits_buffers_agree_iff_values_agree
    srca srcb n fa fb da db va vb da' db' :
  reachable calc da -> reachable calc db ->
  buffer da = buffer db ->
  draw_bits calc srca n fa da = (Ok va, da') ->
  draw_bits calc srcb n fb db = (Ok vb, db') ->
  (buffer da' = buffer db' <-> va = vb).
Proof.
  intros Ha Hb Hbuf Hda Hdb.
  destruct (draw_bits_encoding _ _ _ _ _ _ Ha Hda) as (xa & Hxa & Hba & _).
  destruct (draw_bits_encoding _ _ _ _ _ _ Hb Hdb) as (xb & Hxb & Hbb & _).
  destruct (int_to_bytes_Ok _ _ _ Hxa) as (_ & _ & _ & Hva).
  destruct (int_to_bytes_Ok _ _ _ Hxb) as (_ & _ & _ & Hvb).
  rewrite Hba, Hbb, Hbuf. split.
  - intros H. apply app_inv_head in H. congruence.
  - intros <-. congruence.
Qed.

(** ** [write] and [draw_bytes] *)

Lemma write_nonempty src s d v d1 :
  frozen d = false -> s <> [] ->
  draw_bits calc src (Z.of_nat (length s) * 8) (Some (int_from_bytes s)) d
  = (Ok v, d1) ->
  write calc src s d
  = (Ok (Some (slice (buffer d1) (- Z.of_nat (length s)) (index d1))), d1).
Proof.
  intros Hf Hne Hdraw. unfold write.
  rewrite (bind_Ok _ _ _ _ _ (assert_not_frozen_unfrozen _ _ Hf)).
  destruct s as [|b0 bs]; [congruence|]. cbv beta iota zeta.
  rewrite (bind_Ok _ _ _ _ _ Hdraw). reflexivity.
Qed.

(** [write] of a non-empty string on a record with room for it appends
    exactly the string, as one forced block of [8 * len] bits, and returns
    the string; [write] of the empty string returns [None] and changes
    nothing. *)
Theorem write_appends_string src string d :
  reachable calc d -> frozen d = false ->
  index d + Z.of_nat (length string) <= max_length d ->
  (string = [] -> write calc src string d = (Ok None, d))
  /\ (string <> [] ->
      exists d' b,
        write calc src string d = (Ok (Some string), d')
        /\ buffer d' = buffer d ++ string
        /\ blocks d' = blocks d ++ [b]
        /\ b_forced b = true
        /\ b_bits b = 8 * Z.of_nat (length string)
        /\ b_start b = index d
        /\ b_end b = index d + Z.of_nat (length string)).
Proof.
  intros Hreach Hf Hcap. pose proof (reachable_Inv _ _ Hreach) as HI.
  pose proof (Inv_stack_in_range _ HI) as Hr.
  split.
  - intros ->. unfold write.
    now rewrite (bind_Ok _ _ _ _ _ (assert_not_frozen_unfrozen _ _ Hf)).
  - intros Hne. destruct string as [|b0 bs]; [congruence|].
    remember (b0 :: bs) as s eqn:Hs.
    remember (Z.of_nat (length s)) as len eqn:Hlen.
    assert (Hpos : 0 < len) by (subst len s; cbn [length]; lia).
    assert (Hnb : bits_to_bytes (len * 8) = len).
    { unfold bits_to_bytes. rewrite Z.mod_mul, Z.div_mul by lia. reflexivity. }
    assert (Hraw : raw_bytes src (bits_to_bytes (len * 8))
                     (Some (int_from_bytes s)) d = Ok s)
      by (rewrite Hnb, Hlen; apply int_to_from_bytes).
    assert (Hmask : mask_bytes (len * 8) s = Ok s)
      by (unfold mask_bytes; rewrite Z.mod_mul by lia; reflexivity).
    pose proof (draw_bits_ok calc src (len * 8) (Some (int_from_bytes s)) d s s
                  Hf (stack_in_range_top _ Hr) ltac:(lia) Hraw ltac:(lia) Hmask)
      as Hdraw.
    exists (after_draw (DRAW_BYTES_LABEL calc) (len * 8) true s d).
    exists (new_block (len * 8) (bits_to_bytes (len * 8)) true s d).
    split.
    { rewrite Hlen in Hdraw.
      rewrite (write_nonempty src s d _ _ Hf ltac:(subst s; discriminate) Hdraw).
      rewrite <- Hlen. do 3 f_equal.
      unfold index. rewrite after_draw_buffer.
      unfold slice. rewrite length_app. unfold slice_offset.
      replace (- len <? 0) with true by lia.
      rewrite (proj2 (Z.ltb_ge (Z.of_nat (length (buffer d) + length s)) 0))
        by lia.
      rewrite Z.min_id.
      replace (Z.max 0 (- len + Z.of_nat (length (buffer d) + length s)%nat))
        with (Z.of_nat (length (buffer d))) by lia.
      rewrite Nat2Z.id, drop_app_length.
      replace (Z.to_nat _) with (length s) by lia. apply firstn_all. }
    split; [apply after_draw_buffer|].
    split; [apply after_draw_blocks|].
    unfold new_block. cbn [b_forced b_bits b_start b_end]. rewrite Hnb.
    repeat split; lia.
Qed.

Lemma draw_bytes_ok src n d raw :
  frozen d = false -> stack_in_range d ->
  0 < n -> index d + n <= max_length d ->
  src d n = Ok raw -> Z.of_nat (length raw) = n ->
  draw_bytes calc src n d
  = (Ok raw, after_draw (DRAW_BYTES_LABEL calc) (8 * n) false raw d).
Proof.
  intros Hf Hr Hn Hcap Hsrc Hlen.
  assert (Hnb : bits_to_bytes (8 * n) = n).
  { unfold bits_to_bytes. rewrite Z.mul_comm, Z.mod_mul, Z.div_mul by lia.
    reflexivity. }
  assert (Hmask : mask_bytes (8 * n) raw = Ok raw)
    by (unfold mask_bytes; rewrite Z.mul_comm, Z.mod_mul by lia; reflexivity).
  pose proof (draw_bits_ok calc src (8 * n) None d raw raw
                Hf (stack_in_range_top _ Hr) ltac:(lia)
                ltac:(cbn [raw_bytes]; rewrite Hnb; exact Hsrc) ltac:(lia) Hmask)
    as Hdraw.
  unfold draw_bytes. replace (n =? 0) with false by lia.
  rewrite (bind_Ok _ _ _ _ _ Hdraw). unfold lift.
  rewrite <- Hlen, int_to_from_bytes. reflexivity.
Qed.

(** [draw_bytes 0] returns the empty string and leaves any record, frozen
    or not, as it is; [draw_bytes n] for [n > 0] returns the [n] bytes the
    source supplied, unmasked, and appends them to the buffer. *)
Theorem draw_bytes_returns_source_bytes src n d raw :
  reachable calc d ->
  draw_bytes calc src 0 d = (Ok [], d)
  /\ (frozen d = false -> 0 < n -> index d + n <= max_length d ->
      src d n = Ok raw -> Z.of_nat (length raw) = n ->
      exists d',
        draw_bytes calc src n d = (Ok raw, d')
        /\ buffer d' = buffer d ++ raw).
Proof.
  intros Hreach. split; [reflexivity|].
  intros Hf Hn Hcap Hsrc Hlen. pose proof (reachable_Inv _ _ Hreach) as HI.
  pose proof (Inv_stack_in_range _ HI) as Hr.
  exists (after_draw (DRAW_BYTES_LABEL calc) (8 * n) false raw d).
  split; [now apply draw_bytes_ok|apply after_draw_buffer].
Qed.

(** ** The life cycle of a record *)

Lemma draw_bytes_frozen src n d :
  frozen d = true -> snd (draw_bytes calc src n d) = d.
Proof.
  intros Hf. unfold draw_bytes. destruct (n =? 0); [reflexivity|].
  now rewrite (bind_Raise _ _ _ _ _ (draw_bits_frozen calc src _ None d Hf)).
Qed.

(** No operation changes a frozen record: whatever it returns or raises,
    the record it leaves is the record it found. *)
Theorem frozen_record_is_final o d :
  frozen d = true -> apply_op calc o d = d.
Proof.
  intros Hf. destruct o; cbn [apply_op].
  - now rewrite start_example_frozen.
  - now rewrite stop_example_frozen.
  - now rewrite draw_bits_frozen.
  - now rewrite write_frozen.
  - now apply draw_bytes_frozen.
  - now rewrite freeze_frozen.
  - destruct (conclude_test_frozen st origin d Hf) as [e ->]. reflexivity.
Qed.

Lemma freeze_loop_keeps fuel d :
  frozen d = false -> stack_in_range d ->
  is_find (snd (freeze_loop fuel d)) = is_find d
  /\ interesting_origin (snd (freeze_loop fuel d)) = interesting_origin d
  /\ max_depth (snd (freeze_loop fuel d)) = max_depth d
  /\ has_discards (snd (freeze_loop fuel d)) = has_discards d.
Proof.
  revert d. induction fuel as [|fuel IH]; intros d Hf Hr.
  - cbn [freeze_loop]. unfold bind, get.
    destruct (example_stack d); repeat split; reflexivity.
  - cbn [freeze_loop]. unfold bind at 1 3 5 7, get at 1 2 3 4.
    destruct (example_stack d) as [|k rest] eqn:Hs; [repeat split; reflexivity|].
    destruct (stop_example_step false d k rest Hf Hr Hs) as (ek & Hek & Hstop).
    rewrite !(bind_Ok _ _ _ _ _ Hstop).
    destruct (IH (after_stop false k rest ek d)) as (H1 & H2 & H3 & H4).
    + exact Hf.
    + unfold stack_in_range. rewrite after_stop_examples_length, after_stop_stack.
      unfold stack_in_range in Hr. rewrite Hs in Hr. now inversion Hr.
    + rewrite H1, H2, H3, H4, after_stop_has_discards_false.
      repeat split; reflexivity.
Qed.

(** All the fields [freeze] leaves alone. *)
Lemma after_freeze_fields d :
  frozen d = false -> stack_in_range d ->
  frozen (after_freeze d) = true
  /\ example_stack (after_freeze d) = []
  /\ buffer (after_freeze d) = buffer d
  /\ blocks (after_freeze d) = blocks d
  /\ block_starts (after_freeze d) = block_starts d
  /\ status (after_freeze d) = status d
  /\ overdraw (after_freeze d) = overdraw d
  /\ max_length (after_freeze d) = max_length d
  /\ testcounter (after_freeze d) = testcounter d
  /\ length (examples (after_freeze d)) = length (examples d)
  /\ is_find (after_freeze d) = is_find d
  /\ interesting_origin (after_freeze d) = interesting_origin d
  /\ max_depth (after_freeze d) = max_depth d
  /\ has_discards (after_freeze d) = has_discards d.
Proof.
  intros Hf Hr. unfold after_freeze.
  destruct (freeze_loop_spec (length (example_stack d)) d Hf Hr (le_n _))
    as (d' & Hd' & Hs & Hf' & Hbuf & Hbl & Hbs & Hst & Hov & Hml & Htc & Hlen).
  destruct (freeze_loop_keeps (length (example_stack d)) d Hf Hr)
    as (K1 & K2 & K3 & K4).
  rewrite Hd' in *. cbn [snd] in *. destruct d'; cbn in *.
  repeat split; assumption.
Qed.

(** [freeze] on an unfrozen record closes every open example at the
    current end of the buffer, empties the stack and sets [frozen]; it
    leaves the buffer, the blocks, the status and the number of examples as
    they are, and a second [freeze] changes nothing. *)
Theorem freeze_closes_every_example d :
  reachable calc d -> frozen d = false ->
  exists d',
    freeze d = (Ok tt, d')
    /\ frozen d' = true
    /\ example_stack d' = []
    /\ buffer d' = buffer d
    /\ blocks d' = blocks d
    /\ status d' = status d
    /\ length (examples d') = length (examples d)
    /\ (forall i e, examples d' !! i = Some e ->
          exists en, ex_end e = Some en /\ en <= index d)
    /\ freeze d' = (Ok tt, d').
Proof.
  intros Hreach Hf. pose proof (reachable_Inv _ _ Hreach) as HI.
  pose proof (Inv_stack_in_range _ HI) as Hr.
  destruct (after_freeze_fields d Hf Hr)
    as (F1 & F2 & F3 & F4 & _ & F6 & _ & _ & _ & F10 & _).
  pose proof (Inv_after_freeze d HI Hf) as HI'.
  exists (after_freeze d). split; [now apply freeze_unfrozen|].
  repeat (split; [assumption|]). split.
  - intros i e He. destruct (frozen_closed _ i e HI' F1 He) as [en Hen].
    exists en. split; [assumption|].
    assert (Hs : start_of (examples (after_freeze d)) i = Some (ex_start e))
      by (unfold start_of; now rewrite He).
    assert (Hend : end_of (examples (after_freeze d)) i = Some (Some en))
      by (unfold end_of; rewrite He; cbn; now rewrite Hen).
    pose proof (e_end _ _ _ (inv_examples _ HI') _ _ _ Hs Hend) as Hle.
    unfold index in *. rewrite F3 in Hle. lia.
  - now apply freeze_frozen.
Qed.

Lemma status_value_inj st st' : status_value st = status_value st' -> st = st'.
Proof. destruct st, st'; cbn; intros H; try reflexivity; discriminate. Qed.

(** [conclude_test] checks its arguments before anything else: an origin
    together with a status other than [INTERESTING] raises
    [AssertionError] on any record, frozen or not, and changes nothing.
    With valid arguments on an unfrozen record it stores the status and the
    origin, freezes the record and raises the abort signal tagged with the
    record's [testcounter]; the buffer and the blocks stay as they are. *)
Theorem conclude_test_freezes_with_status st origin d :
  reachable calc d ->
  (forall o, origin = Some o -> st <> INTERESTING ->
     conclude_test st origin d = (Raise AssertionError, d))
  /\ (frozen d = false -> origin = None \/ st = INTERESTING ->
      exists d',
        conclude_test st origin d = (Raise (StopTest (testcounter d)), d')
        /\ status d' = st
        /\ interesting_origin d' = origin
        /\ frozen d' = true
        /\ example_stack d' = []
        /\ buffer d' = buffer d
        /\ blocks d' = blocks d
        /\ overdraw d' = overdraw d).
Proof.
  intros Hreach. pose proof (reachable_Inv _ _ Hreach) as HI.
  pose proof (Inv_stack_in_range _ HI) as Hr. split.
  - intros o -> Hst. unfold conclude_test. cbn [is_None orb].
    rewrite bool_decide_eq_false_2; [reflexivity|].
    intros H. apply Hst. now apply status_value_inj.
  - intros Hf Hargs.
    assert (Hassert : is_None origin
                      || bool_decide (status_value st = status_value INTERESTING)
                      = true).
    { destruct Hargs as [->| ->]; [reflexivity|].
      rewrite bool_decide_eq_true_2 by reflexivity. apply orb_true_r. }
    set (d0 := set_status st (set_interesting_origin origin d)).
    assert (Hf0 : frozen d0 = false) by (subst d0; destruct d; exact Hf).
    assert (Hr0 : stack_in_range d0) by (subst d0; destruct d; exact Hr).
    destruct (after_freeze_fields d0 Hf0 Hr0)
      as (F1 & F2 & F3 & F4 & _ & F6 & F7 & _ & _ & _ & _ & F12 & _).
    exists (after_freeze d0).
    split; [now apply conclude_test_unfrozen|].
    rewrite F6, F12, F3, F4, F7. subst d0. destruct d; cbn.
    repeat split; assumption.
Qed.


Lemma LifeCycle_same d d' :
  LifeCycle d -> frozen d = false -> frozen d' = false ->
  status d' = status d -> overdraw d' = overdraw d ->
  interesting_origin d' = interesting_origin d -> is_find d' = is_find d ->
  (Z.of_nat (length (buffer d')) = 0
   \/ Z.of_nat (length (buffer d')) <= max_length d') ->
  LifeCycle d'.
Proof.
  intros (L1 & _ & _ & _ & _ & L6) Hf Hf' E1 E2 E3 E4 Hidx.
  destruct (L1 Hf) as (Hst & Hov & Hor).
  unfold LifeCycle. rewrite Hf', E1, E2, E3, E4, Hst, Hov, Hor.
  split; [auto|]. split; [intros H; now contradiction H|].
  split; [intros H; now contradiction H|].
  split; [discriminate|]. split; assumption.
Qed.

Lemma LifeCycle_after_freeze d d0 :
  LifeCycle d -> frozen d0 = false -> stack_in_range d0 ->
  is_find d0 = is_find d -> buffer d0 = buffer d -> max_length d0 = max_length d ->
  (overdraw d0 <> 0 -> status d0 = OVERRUN /\ 0 < overdraw d0) ->
  (interesting_origin d0 <> None -> status d0 = INTERESTING) ->
  LifeCycle (after_freeze d0).
Proof.
  intros (_ & _ & _ & _ & L5 & L6) Hf0 Hr0 E1 E2 E3 Hov Hor.
  destruct (after_freeze_fields d0 Hf0 Hr0)
    as (F1 & F2 & F3 & _ & _ & F6 & F7 & F8 & _ & _ & F11 & F12 & _).
  unfold LifeCycle. rewrite F1, F2, F3, F6, F7, F8, F11, F12, E1, E2, E3.
  split; [discriminate|]. split; [intros H; split; [|split]; tauto|].
  split; [intros H; split; tauto|]. split; [reflexivity|]. split; assumption.
Qed.

Lemma LifeCycle_draw_bits src n forced d :
  Inv d -> frozen d = false -> LifeCycle d ->
  LifeCycle (snd (draw_bits calc src n forced d)).
Proof.
  intros HI Hf HL. pose proof (Inv_stack_in_range _ HI) as Hr.
  pose proof HL as (L1 & _). destruct (L1 Hf) as (Hst & Hov & Hor).
  destruct (draw_bits_cases calc src n forced d Hr)
    as [[e ->]|[(_ & Hcap & ->)|(raw & buf & _ & Hcap & _ & Hlen & Hmask & ->)]];
    cbn [snd].
  - exact HL.
  - unfold after_overrun. apply (LifeCycle_after_freeze d _ HL).
    + destruct d; exact Hf.
    + destruct d; exact Hr.
    + destruct d; reflexivity.
    + destruct d; reflexivity.
    + destruct d; reflexivity.
    + intros _. split; [destruct d; reflexivity|].
      replace (overdraw _) with (index d + bits_to_bytes n - max_length d)
        by (destruct d; reflexivity).
      lia.
    + replace (interesting_origin _) with (interesting_origin d)
        by (destruct d; reflexivity).
      congruence.
  - apply (LifeCycle_same d _ HL Hf).
    + rewrite after_draw_frozen. exact Hf.
    + apply after_draw_misc.
    + apply after_draw_misc.
    + unfold after_draw. destruct d; reflexivity.
    + unfold after_draw. destruct d; reflexivity.
    + right.
      destruct (after_draw_misc (DRAW_BYTES_LABEL calc) n (is_Some_b forced) buf d)
        as (_ & Hml & _).
      destruct (mask_bytes_spec _ _ _ Hlen Hmask) as (_ & Hbl & _).
      rewrite Hml, after_draw_buffer, length_app. unfold index in Hcap. lia.
Qed.

Lemma LifeCycle_reachable d : reachable calc d -> LifeCycle d.
Proof.
  induction 1 as [ml tc|o d Hreach IH].
  { unfold LifeCycle. split; [intros _; repeat split; reflexivity|].
    split; [intros H; now contradiction H|].
    split; [intros H; now contradiction H|].
    split; [discriminate|]. split; [left; reflexivity|reflexivity]. }
  pose proof (reachable_Inv _ _ Hreach) as HI.
  pose proof (Inv_stack_in_range _ HI) as Hr.
  destruct (frozen d) eqn:Hf.
  { now rewrite frozen_record_is_final. }
  pose proof IH as (L1 & _ & _ & _ & L5 & L6).
  destruct (L1 Hf) as (Hst & Hov & Hor).
  destruct o; cbn [apply_op].
  - rewrite start_example_ok by auto using stack_in_range_top.
    cbn [snd]. apply (LifeCycle_same d _ IH Hf).
    + destruct d; exact Hf.
    + destruct d; reflexivity.
    + destruct d; reflexivity.
    + destruct d; reflexivity.
    + destruct d; reflexivity.
    + destruct d; exact L5.
  - destruct (example_stack d) as [|k rest] eqn:Hs.
    + now rewrite stop_example_empty.
    + destruct (stop_example_step discard d k rest Hf Hr Hs) as (ek & Hek & ->).
      cbn [snd]. apply (LifeCycle_same d _ IH Hf).
      * exact Hf.
      * reflexivity.
      * reflexivity.
      * reflexivity.
      * reflexivity.
      * destruct d; exact L5.
  - now apply LifeCycle_draw_bits.
  - destruct (write_state calc src string d) as [->|(n & forced & ->)];
      [assumption|now apply LifeCycle_draw_bits].
  - destruct (draw_bytes_state calc src n d) as [->|(forced & ->)];
      [assumption|now apply LifeCycle_draw_bits].
  - rewrite freeze_unfrozen by assumption. cbn [snd].
    apply (LifeCycle_after_freeze d d IH Hf Hr);
      [reflexivity|reflexivity|reflexivity|congruence|congruence].
  - destruct (is_None origin
              || bool_decide (status_value st = status_value INTERESTING))
      eqn:Hassert.
    2:{ unfold conclude_test. rewrite Hassert. exact IH. }
    rewrite conclude_test_unfrozen by assumption. cbn [snd].
    apply (LifeCycle_after_freeze d _ IH).
    + destruct d; exact Hf.
    + destruct d; exact Hr.
    + destruct d; reflexivity.
    + destruct d; reflexivity.
    + destruct d; reflexivity.
    + replace (overdraw _) with (overdraw d) by (destruct d; reflexivity).
      congruence.
    + replace (interesting_origin _) with origin by (destruct d; reflexivity).
      replace (status _) with st by (destruct d; reflexivity).
      intros Hne. destruct origin as [o|]; [|congruence].
      cbn [is_None orb] in Hassert. apply bool_decide_eq_true_1 in Hassert.
      now apply status_value_inj.
Qed.

(** At every reachable record: an unfrozen record has status [VALID], no
    overdraw and no origin; an overdraw is positive and is only found on a
    frozen record with status [OVERRUN]; an origin is only found on a
    frozen record with status [INTERESTING]; a frozen record has no open
    example; the buffer holds at most [max_length] bytes (none when
    [max_length] is negative). *)
Theorem status_follows_life_cycle d :
  reachable calc d ->
  (frozen d = false ->
     status d = VALID /\ overdraw d = 0 /\ interesting_origin d = None)
  /\ (overdraw d <> 0 -> status d = OVERRUN /\ 0 < overdraw d /\ frozen d = true)
  /\ (interesting_origin d <> None -> status d = INTERESTING /\ frozen d = true)
  /\ (frozen d = true -> example_stack d = [])
  /\ (index d = 0 \/ index d <= max_length d)
  /\ is_find d = false.
Proof. intros H. exact (LifeCycle_reachable d H). Qed.

(** ** Replaying a buffer *)

(** A record that replays [input] (the byte source of [for_buffer], with
    [max_length] the length of [input]) and whose buffer is a prefix of
    [input]: [draw_bytes n] returns the next [n] bytes of [input] and the
    buffer stays a prefix of [input]; when fewer than [n] bytes are left the
    draw overruns and the buffer is unchanged. *)
Theorem replay_draw_bytes_reads_input input n d :
  reachable calc d -> frozen d = false ->
  max_length d = Z.of_nat (length input) ->
  buffer d = take (length (buffer d)) input ->
  0 < n ->
  (index d + n <= max_length d ->
   exists d',
     draw_bytes calc (replay_source input) n d
     = (Ok (slice input (index d) (index d + n)), d')
     /\ buffer d' = take (length (buffer d')) input
     /\ index d' = index d + n)
  /\ (index d + n > max_length d ->
      exists d',
        draw_bytes calc (replay_source input) n d
        = (Raise (StopTest (testcounter d)), d')
        /\ status d' = OVERRUN /\ frozen d' = true
        /\ buffer d' = buffer d
        /\ overdraw d' = index d + n - max_length d).
Proof.
  intros Hreach Hf Hml Hprefix Hn. pose proof (reachable_Inv _ _ Hreach) as HI.
  pose proof (Inv_stack_in_range _ HI) as Hr.
  assert (Hnb : bits_to_bytes (8 * n) = n).
  { unfold bits_to_bytes. rewrite Z.mul_comm, Z.mod_mul, Z.div_mul by lia.
    reflexivity. }
  split.
  - intros Hcap. unfold index in *.
    set (raw := slice input (Z.of_nat (length (buffer d)))
                  (Z.of_nat (length (buffer d)) + n)).
    assert (Hraw : raw = take (Z.to_nat n) (drop (length (buffer d)) input)).
    { subst raw. rewrite slice_in by lia. rewrite Nat2Z.id. f_equal. lia. }
    assert (Hlen : Z.of_nat (length raw) = n).
    { rewrite Hraw, length_take, length_drop. lia. }
    exists (after_draw (DRAW_BYTES_LABEL calc) (8 * n) false raw d).
    split; [apply draw_bytes_ok; auto|].
    rewrite after_draw_buffer, length_app.
    split; [|lia].
    rewrite Hprefix at 1. rewrite Hraw at 1. rewrite take_take_drop.
    f_equal. lia.
  - intros Hcap. exists (after_overrun n d).
    destruct (after_overrun_fields n d Hf Hr) as (F1 & F2 & F3 & F4 & _).
    split; [|auto].
    unfold draw_bytes. replace (n =? 0) with false by lia.
    rewrite (bind_Raise _ _ _ _ _
               (draw_bits_overrun calc (replay_source input) (8 * n) None d
                  Hf Hr ltac:(rewrite Hnb; exact Hcap))).
    now rewrite Hnb.
Qed.

(** ** Strategy-level draws *)

Lemma snd_bind {A B} (m : M A) (k : A -> M B) d :
  snd (bind m k d)
  = match m d with
    | (Ok a, d') => snd (k a d')
    | (Raise _, d') => d'
    end.
Proof. unfold bind. destruct (m d) as [[a|e] d']; reflexivity. Qed.

Lemma conclude_test_always_raises st origin d :
  exists e, fst (conclude_test st origin d) = Raise e.
Proof.
  unfold conclude_test, bind.
  destruct (assert _ d) as [[[]|e1] d1]; [|eauto].
  destruct (assert_not_frozen _ d1) as [[[]|e2] d2]; [|eauto].
  destruct (modify _ d2) as [[[]|e3] d3]; [|eauto].
  destruct (modify _ d3) as [[[]|e4] d4]; [|eauto].
  destruct (freeze d4) as [[[]|e5] d5]; [|eauto].
  unfold get, raise. eauto.
Qed.

Lemma mark_invalid_unfrozen d :
  frozen d = false -> stack_in_range d ->
  mark_invalid d
  = (Raise (StopTest (testcounter d)),
     after_freeze (set_status INVALID (set_interesting_origin None d))).
Proof. intros Hf Hr. now apply conclude_test_unfrozen. Qed.

(** The checks [draw] makes before it opens an example, on an unfrozen
    record whose example stack holds indices of recorded examples.  In
    find mode a strategy that does not support find is refused with
    [InvalidArgument] and the record is left as it is.  Past that check,
    an empty strategy, and any strategy once the nesting depth has reached
    [MAX_DEPTH], is rejected: the record gets status [INVALID], is frozen,
    and the abort signal is raised; the strategy is not run and the buffer
    and the blocks stay as they are. *)
Theorem draw_rejects_empty_or_too_deep (strategy : Strategy Z) label d :
  stack_in_range d -> frozen d = false ->
  (is_find d && negb (supports_find strategy) = true ->
   draw strategy label d = (Raise InvalidArgument, d))
  /\ (is_find d && negb (supports_find strategy) = false ->
      is_empty strategy = true \/ MAX_DEPTH <= depth d ->
      exists d',
        draw strategy label d = (Raise (StopTest (testcounter d)), d')
        /\ status d' = INVALID
        /\ interesting_origin d' = None
        /\ frozen d' = true
        /\ example_stack d' = []
        /\ buffer d' = buffer d
        /\ blocks d' = blocks d
        /\ length (examples d') = length (examples d)).
Proof.
  intros Hr Hf. split.
  { intros Hfind. unfold draw. unfold get at 1, bind at 1.
    rewrite Hfind. reflexivity. }
  intros Hfind Hrej.
  set (d0 := set_status INVALID (set_interesting_origin None d)).
  assert (Hf0 : frozen d0 = false) by (subst d0; destruct d; exact Hf).
  assert (Hr0 : stack_in_range d0) by (subst d0; destruct d; exact Hr).
  destruct (after_freeze_fields d0 Hf0 Hr0)
    as (F1 & F2 & F3 & F4 & _ & F6 & _ & _ & _ & F10 & _ & F12 & _).
  exists (after_freeze d0). split.
  - unfold draw. unfold get at 1, bind at 1. rewrite Hfind. cbn [when].
    unfold ret at 1, bind at 1.
    destruct (is_empty strategy) eqn:Hempty; cbn [when].
    + now rewrite (bind_Raise _ _ _ _ _ (mark_invalid_unfrozen d Hf Hr)).
    + unfold ret at 1, bind at 1. unfold get at 1, bind at 1.
      destruct Hrej as [Hrej|Hrej]; [discriminate|].
      replace (depth d >=? MAX_DEPTH) with true by lia. cbn [when].
      now rewrite (bind_Raise _ _ _ _ _ (mark_invalid_unfrozen d Hf Hr)).
  - rewrite F6, F12, F3, F4, F10, F2. subst d0. destruct d; cbn.
    repeat split; assumption.
Qed.




(** A run that uses [draw] stays within the records the primitive
    operations reach: if the strategy maps reachable records to reachable
    records, so does [draw].  Everything proved of reachable records
    therefore holds of runs built from strategies. *)
Theorem draw_keeps_reachable (strategy : Strategy Z) label d :
  (forall d0, reachable calc d0 -> reachable calc (snd (do_draw strategy d0))) ->
  reachable calc d ->
  reachable calc (snd (draw strategy label d)).
Proof.
  intros Hbody Hreach.
  assert (Hinvalid : forall d0, reachable calc d0 ->
             forall (k : unit -> M Z),
               reachable calc (snd (bind mark_invalid k d0))).
  { intros d0 H0 k. rewrite snd_bind.
    destruct (conclude_test_always_raises INVALID None d0) as [e He].
    pose proof (reachable_step calc (OpConcludeTest INVALID None) d0 H0) as Hstep.
    cbn [apply_op] in Hstep. unfold mark_invalid.
    destruct (conclude_test INVALID None d0) as [[a|e'] d']; cbn in *;
      [discriminate|assumption]. }
  unfold draw. unfold get at 1, bind at 1.
  destruct (is_find d && negb (supports_find strategy)); cbn [when].
  { exact Hreach. }
  unfold ret at 1, bind at 1.
  destruct (is_empty strategy); cbn [when]; [now apply Hinvalid|].
  unfold ret at 1, bind at 1. unfold get at 1, bind at 1.
  destruct (depth d >=? MAX_DEPTH); cbn [when]; [now apply Hinvalid|].
  unfold ret at 1, bind at 1.
  unfold draw_inner. unfold get at 1, bind at 1. rewrite snd_bind.
  set (lbl := match label with
              | None => strategy_label strategy
              | Some l => l
              end).
  pose proof (reachable_step calc (OpStartExample lbl) d Hreach) as H1.
  cbn [apply_op] in H1.
  destruct (start_example lbl d) as [[i|e] d1]; cbn [snd] in *; [|assumption].
  unfold finally.
  assert (Hfin : forall (r : result Z) d2, reachable calc d2 ->
             reachable calc
               (snd (match stop_example false d2 with
                     | (Ok _, d3) => (r, d3)
                     | (Raise e, d3) => (Raise e, d3)
                     end))).
  { intros r d2 H2.
    pose proof (reachable_step calc (OpStopExample false) d2 H2) as H3.
    cbn [apply_op] in H3.
    destruct (stop_example false d2) as [[[]|e] d3]; assumption. }
  destruct (negb (depth d =? 0)).
  - specialize (Hbody d1 H1).
    destruct (do_draw strategy d1) as [r d2]. now apply Hfin.
  - unfold lift at 1, bind at 1.
    destruct (validate strategy) as [[]|e].
    + specialize (Hbody d1 H1).
      destruct (do_draw strategy d1) as [r d2]. now apply Hfin.
    + now apply Hfin.
Qed.

(** ** Relations every operation respects

    A reflexive and transitive relation that holds across the five
    elementary changes of a record (opening an example, closing one,
    recording a block, storing the status fields, setting [frozen]) holds
    across every operation. *)

Section Steps.

Variable R : ConjectureData -> ConjectureData -> Prop.

Hypothesis R_refl : forall d, R d d.
Hypothesis R_trans : forall a b c, R a b -> R b c -> R a c.
Hypothesis R_start : forall label d,
    Inv d -> frozen d = false -> R d (after_start label d).
Hypothesis R_stop : forall discard k rest ek d,
    Inv d -> frozen d = false -> example_stack d = k :: rest ->
    examples d !! k = Some ek -> R d (after_stop discard k rest ek d).
Hypothesis R_record : forall n isf buf t below dep label d,
    Inv d -> frozen d = false -> example_stack d = t :: below ->
    examples d !! t = Some (mkExample dep label t (index d) None true None []) ->
    0 <= n -> Z.of_nat (length buf) = bits_to_bytes n ->
    0 <= int_from_bytes buf < 2 ^ n ->
    index d + bits_to_bytes n <= max_length d ->
    R d (record_block n (bits_to_bytes n) isf buf t d).
Hypothesis R_fields : forall st ov origin d,
    Inv d -> frozen d = false ->
    R d (set_status st (set_overdraw ov (set_interesting_origin origin d))).
Hypothesis R_frozen : forall d,
    Inv d -> frozen d = false -> example_stack d = [] -> R d (set_frozen true d).

Lemma R_stop_example discard d : Inv d -> R d (snd (stop_example discard d)).
Proof.
  intros HI. destruct (frozen d) eqn:Hf.
  { rewrite stop_example_frozen by assumption. apply R_refl. }
  destruct (example_stack d) as [|k rest] eqn:Hs.
  { rewrite stop_example_empty by assumption. apply R_refl. }
  destruct (stop_example_step discard d k rest Hf (Inv_stack_in_range _ HI) Hs)
    as (ek & Hek & ->).
  cbn [snd]. now apply R_stop.
Qed.

Lemma R_freeze_loop fuel d :
  Inv d -> frozen d = false -> R d (snd (freeze_loop fuel d)).
Proof.
  revert d. induction fuel as [|fuel IH]; intros d HI Hf.
  - cbn [freeze_loop]. unfold bind, get. destruct (example_stack d); apply R_refl.
  - cbn [freeze_loop]. unfold bind at 1, get at 1.
    destruct (example_stack d) as [|k rest] eqn:Hs; [apply R_refl|].
    destruct (stop_example_step false d k rest Hf (Inv_stack_in_range _ HI) Hs)
      as (ek & Hek & Hstop).
    rewrite (bind_Ok _ _ _ _ _ Hstop).
    apply (R_trans _ (after_stop false k rest ek d)); [now apply R_stop|].
    apply IH; [now apply Inv_after_stop|exact Hf].
Qed.

Lemma R_after_freeze d : Inv d -> frozen d = false -> R d (after_freeze d).
Proof.
  intros HI Hf. unfold after_freeze.
  pose proof (Inv_stack_in_range _ HI) as Hr.
  destruct (freeze_loop_spec (length (example_stack d)) d Hf Hr (le_n _))
    as (d' & Hd' & Hs & Hf' & _).
  pose proof (R_freeze_loop (length (example_stack d)) d HI Hf) as HR.
  pose proof (Inv_freeze_loop (length (example_stack d)) d HI Hf) as HI'.
  rewrite Hd' in *. cbn [snd] in *.
  apply (R_trans _ d'); [assumption|now apply R_frozen].
Qed.

Lemma R_after_draw n isf raw buf d :
  Inv d -> frozen d = false ->
  index d + bits_to_bytes n <= max_length d ->
  Z.of_nat (length raw) = bits_to_bytes n -> mask_bytes n raw = Ok buf ->
  R d (after_draw (DRAW_BYTES_LABEL calc) n isf buf d).
Proof.
  intros HI Hf Hcap Hlen Hmask.
  destruct (mask_bytes_spec _ _ _ Hlen Hmask) as (Hn & Hbl & Hv).
  pose proof (stack_in_range_top _ (Inv_stack_in_range _ HI)) as Htop.
  pose proof (after_start_new_example (DRAW_BYTES_LABEL calc) d Htop) as Hnew.
  pose proof (Inv_after_start (DRAW_BYTES_LABEL calc) d HI Hf) as HI1.
  assert (Hnb : bits_to_bytes n = Z.of_nat (length buf)) by lia.
  assert (HI2 : Inv (record_block n (bits_to_bytes n) isf buf (length (examples d))
                       (after_start (DRAW_BYTES_LABEL calc) d))).
  { rewrite Hnb. eapply Inv_record_block; [exact HI1| | |lia|lia].
    - destruct d; reflexivity.
    - unfold trivial_of. rewrite Hnew. reflexivity. }
  unfold after_draw.
  apply (R_trans _ (after_start (DRAW_BYTES_LABEL calc) d)); [now apply R_start|].
  apply (R_trans _ (record_block n (bits_to_bytes n) isf buf (length (examples d))
                      (after_start (DRAW_BYTES_LABEL calc) d))).
  - apply (R_record n isf buf (length (examples d)) (example_stack d)
             (depth d + 1) (DRAW_BYTES_LABEL calc)
             (after_start (DRAW_BYTES_LABEL calc) d) HI1).
    + destruct d; exact Hf.
    + destruct d; reflexivity.
    + replace (index (after_start (DRAW_BYTES_LABEL calc) d)) with (index d)
        by (destruct d; reflexivity).
      exact Hnew.
    + exact Hn.
    + lia.
    + lia.
    + replace (index (after_start (DRAW_BYTES_LABEL calc) d)) with (index d)
        by (destruct d; reflexivity).
      replace (max_length (after_start (DRAW_BYTES_LABEL calc) d))
        with (max_length d) by (destruct d; reflexivity).
      exact Hcap.
  - apply R_stop; [exact HI2| | |].
    + destruct d; exact Hf.
    + destruct d; reflexivity.
    + unfold record_block.
      cbn [examples set_buffer set_blocks set_block_starts set_examples].
      rewrite list_lookup_alter_eq, Hnew. reflexivity.
Qed.

Lemma R_draw_bits src n forced d :
  Inv d -> R d (snd (draw_bits calc src n forced d)).
Proof.
  intros HI.
  destruct (draw_bits_cases calc src n forced d (Inv_stack_in_range _ HI))
    as [[e ->]|[(Hf & Hcap & ->)|(raw & buf & Hf & Hcap & Hraw & Hlen & Hmask & ->)]];
    cbn [snd].
  - apply R_refl.
  - unfold after_overrun.
    set (d0 := set_status OVERRUN
                 (set_overdraw (index d + bits_to_bytes n - max_length d) d)).
    assert (Hd0 : d0 = set_status OVERRUN
                         (set_overdraw (index d + bits_to_bytes n - max_length d)
                            (set_interesting_origin (interesting_origin d) d)))
      by (subst d0; destruct d; reflexivity).
    apply (R_trans _ d0).
    + rewrite Hd0. now apply R_fields.
    + apply R_after_freeze.
      * rewrite Hd0. now apply Inv_set_fields.
      * subst d0. destruct d; exact Hf.
  - eapply R_after_draw; eauto.
Qed.

Lemma R_apply_op o d : Inv d -> R d (apply_op calc o d).
Proof.
  intros HI. destruct o; cbn [apply_op].
  - destruct (frozen d) eqn:Hf.
    + rewrite start_example_frozen by assumption. apply R_refl.
    + rewrite start_example_ok
        by auto using stack_in_range_top, Inv_stack_in_range.
      now apply R_start.
  - now apply R_stop_example.
  - now apply R_draw_bits.
  - destruct (write_state calc src string d) as [->|(n & forced & ->)];
      [apply R_refl|now apply R_draw_bits].
  - destruct (draw_bytes_state calc src n d) as [->|(forced & ->)];
      [apply R_refl|now apply R_draw_bits].
  - destruct (frozen d) eqn:Hf.
    + rewrite freeze_frozen by assumption. apply R_refl.
    + rewrite freeze_unfrozen by auto using Inv_stack_in_range.
      now apply R_after_freeze.
  - destruct (is_None origin
              || bool_decide (status_value st = status_value INTERESTING))
      eqn:Hassert.
    2:{ unfold conclude_test. rewrite Hassert. apply R_refl. }
    destruct (frozen d) eqn:Hf.
    + destruct (conclude_test_frozen st origin d Hf) as [e ->]. apply R_refl.
    + rewrite conclude_test_unfrozen by auto using Inv_stack_in_range.
      cbn [snd].
      set (d0 := set_status st (set_interesting_origin origin d)).
      assert (Hd0 : d0 = set_status st
                           (set_overdraw (overdraw d)
                              (set_interesting_origin origin d)))
        by (subst d0; destruct d; reflexivity).
      apply (R_trans _ d0).
      * rewrite Hd0. now apply R_fields.
      * apply R_after_freeze.
        -- rewrite Hd0. now apply Inv_set_fields.
        -- subst d0. destruct d; exact Hf.
Qed.

End Steps.

(** The same for a property of one record. *)
Lemma reachable_invariant (P : ConjectureData -> Prop) :
  (forall ml tc, P (fresh_fields ml tc)) ->
  (forall label d, Inv d -> frozen d = false -> P d -> P (after_start label d)) ->
  (forall discard k rest ek d,
      Inv d -> frozen d = false -> example_stack d = k :: rest ->
      examples d !! k = Some ek -> P d -> P (after_stop discard k rest ek d)) ->
  (forall n isf buf t below dep label d,
      Inv d -> frozen d = false -> example_stack d = t :: below ->
      examples d !! t = Some (mkExample dep label t (index d) None true None []) ->
      0 <= n -> Z.of_nat (length buf) = bits_to_bytes n ->
      0 <= int_from_bytes buf < 2 ^ n ->
      index d + bits_to_bytes n <= max_length d ->
      P d -> P (record_block n (bits_to_bytes n) isf buf t d)) ->
  (forall st ov origin d,
      P d -> P (set_status st (set_overdraw ov (set_interesting_origin origin d)))) ->
  (forall d, P d -> P (set_frozen true d)) ->
  forall d, reachable calc d -> P d.
Proof.
  intros Hnew Hstart Hstop Hrecord Hfields Hfrozen d Hreach.
  induction Hreach as [ml tc|o d Hreach IH].
  - rewrite new_data_after_start.
    apply Hstart; [apply Inv_fresh_fields|reflexivity|apply Hnew].
  - refine (R_apply_op (fun a b => P a -> P b) _ _ _ _ _ _ _ o d
              (reachable_Inv _ _ Hreach) IH).
    + intros a Ha. exact Ha.
    + intros a b c Hab Hbc Ha. auto.
    + intros label a HIa Hfa Pa. now apply Hstart.
    + intros discard k rest ek a HIa Hfa Hs Hk Pa. now apply Hstop.
    + intros n isf buf t below dep label a HIa Hfa Hs Ht Hn Hlen Hv Hcap Pa.
      now apply (Hrecord n isf buf t below dep label a).
    + intros st ov origin a _ _ Pa. now apply Hfields.
    + intros a _ _ _ Pa. now apply Hfrozen.
Qed.

End More.

(** ** Depths, discards and the index of block starts *)

Section Structure.

Variable calc : string -> Z.

Lemma closed_proj {A} (g : Example -> A) exs k rest ek len i :
  (forall v e, g (ex_set_trivial v e) = g e) ->
  g <$> closed exs k rest ek len !! i = g <$> alter (ex_set_end len) k exs !! i.
Proof.
  intros Hg. unfold closed. destruct rest as [|p r]; [reflexivity|].
  destruct (negb (ex_trivial ek)); [|reflexivity].
  now rewrite proj_alter_same by (intros; apply Hg).
Qed.

(** The fields that [stop_example] does not write. *)
Lemma after_stop_proj {A} (g : Example -> A) discard k rest ek d i :
  (forall v e, g (ex_set_trivial v e) = g e) ->
  (forall v e, g (ex_set_end v e) = g e) ->
  (forall v e, g (ex_set_discarded v e) = g e) ->
  g <$> examples (after_stop discard k rest ek d) !! i = g <$> examples d !! i.
Proof.
  intros H1 H2 H3. rewrite after_stop_examples.
  rewrite proj_alter_same by (intros; apply H3).
  rewrite closed_proj by assumption.
  now rewrite proj_alter_same by (intros; apply H2).
Qed.

Lemma record_block_proj {A} (g : Example -> A) n nb isf buf t d i :
  (forall v e, g (ex_set_trivial v e) = g e) ->
  g <$> examples (record_block n nb isf buf t d) !! i = g <$> examples d !! i.
Proof.
  intros Hg. unfold record_block.
  cbn [examples set_buffer set_blocks set_block_starts set_examples].
  now rewrite proj_alter_same by (intros; apply Hg).
Qed.

Lemma Inv_stack_lt d p :
  Inv d -> p ∈ example_stack d -> (p < length (examples d))%nat.
Proof.
  intros HI Hp. pose proof (Inv_stack_in_range d HI) as Hr.
  unfold stack_in_range in Hr. rewrite Forall_forall in Hr. auto.
Qed.

Lemma stack_depths_ext exs exs' stk :
  (forall i, i ∈ stk -> depth_of exs' i = depth_of exs i) ->
  stack_depths exs stk -> stack_depths exs' stk.
Proof.
  induction stk as [|i below IH]; intros Hext Hs; [exact I|].
  cbn in *. destruct Hs as [Hi Hs]. split.
  - rewrite Hext by left. exact Hi.
  - apply IH; [|exact Hs]. intros j Hj. apply Hext. now right.
Qed.

Lemma DepthInv_reachable d : reachable calc d -> DepthInv d.
Proof.
  apply reachable_invariant.
  - intros ml tc. constructor; cbn; try discriminate; try exact I; try lia.
  - intros label d0 HI Hf [H1 H2 H3 H4 H5].
    pose proof (Inv_stack_lt d0) as Hstk.
    assert (Hmax : max_depth (after_start label d0)
                   = Z.max (max_depth d0) (Z.of_nat (length (example_stack d0))))
      by (destruct d0; reflexivity).
    assert (Hstack : example_stack (after_start label d0)
                     = length (examples d0) :: example_stack d0)
      by (destruct d0; reflexivity).
    assert (Hproj : forall i,
               depth_of (examples (after_start label d0)) i
               = if decide (i = length (examples d0))
                 then Some (Z.of_nat (length (example_stack d0)))
                 else depth_of (examples d0) i).
    { intros i. rewrite after_start_examples. unfold depth_of.
      rewrite opened_proj by reflexivity. cbn [ex_depth]. unfold depth.
      destruct (decide (i = length (examples d0))); [f_equal; lia|reflexivity]. }
    constructor.
    + intros i x. rewrite Hproj, Hmax.
      destruct (decide (i = length (examples d0))).
      * intros [= <-]. lia.
      * intros Hx. specialize (H1 i x Hx). lia.
    + rewrite Hstack. cbn [stack_depths]. split.
      * rewrite Hproj. destruct (decide _); [reflexivity|congruence].
      * eapply stack_depths_ext; [|exact H2]. intros i Hi. rewrite Hproj.
        specialize (Hstk i HI Hi). destruct (decide _); [lia|reflexivity].
    + intros p cs c dp dc. rewrite after_start_examples.
      rewrite opened_children by (intros; now apply Hstk).
      rewrite <- after_start_examples. rewrite !Hproj.
      destruct (decide (p = length (examples d0))) as [->|Hp].
      { cbn. intros [= <-] Hc. inversion Hc. }
      assert (Hold : forall cs0, children_of (examples d0) p = Some cs0 ->
                c ∈ cs0 -> depth_of (examples d0) p = Some dp ->
                (if decide (c = length (examples d0))
                 then Some (Z.of_nat (length (example_stack d0)))
                 else depth_of (examples d0) c) = Some dc -> dc = dp + 1).
      { intros cs0 Hcs Hc Hdp.
        pose proof (e_child_lt _ _ _ (inv_examples _ HI) _ _ _ Hcs Hc).
        destruct (decide (c = length (examples d0))); [lia|]. eauto. }
      destruct (example_stack d0) as [|q rest] eqn:Hs; [eauto|].
      destruct (decide (q = p)) as [->|Hqp]; [|eauto].
      destruct (children_of (examples d0) p) as [cs0|] eqn:Hcs0; [|discriminate].
      cbn. intros [= <-] Hc Hdp. apply elem_of_app in Hc as [Hc|Hc]; [eauto|].
      apply list_elem_of_singleton in Hc as ->.
      destruct (decide _); [|congruence]. intros [= <-].
      cbn in H2. destruct H2 as [Hp2 _].
      assert (dp = Z.of_nat (length rest)) by congruence. subst dp.
      cbn [length]. lia.
    + intros x. rewrite Hproj.
      destruct (decide (0%nat = length (examples d0))) as [Hz|]; [|eauto].
      intros [= <-]. destruct (example_stack d0) as [|q rest] eqn:Hs;
        [reflexivity|].
      assert (q < length (examples d0))%nat by (apply Hstk; [exact HI|left]).
      lia.
    + rewrite Hmax. lia.
  - intros discard k rest ek d0 HI Hf Hs Hk [H1 H2 H3 H4 H5].
    assert (Hproj : forall i,
               depth_of (examples (after_stop discard k rest ek d0)) i
               = depth_of (examples d0) i)
      by (intros; apply after_stop_proj; reflexivity).
    assert (Hch : forall i,
               children_of (examples (after_stop discard k rest ek d0)) i
               = children_of (examples d0) i)
      by (intros; apply after_stop_proj; reflexivity).
    constructor.
    + intros i x. rewrite Hproj. apply H1.
    + rewrite after_stop_stack. rewrite Hs in H2. cbn in H2.
      eapply stack_depths_ext; [|apply H2]. intros; apply Hproj.
    + intros p cs c dp dc. rewrite Hch, !Hproj. apply H3.
    + intros x. rewrite Hproj. apply H4.
    + exact H5.
  - intros n isf buf t below dep label d0 HI Hf Hs Ht Hn Hlen Hv Hcap
      [H1 H2 H3 H4 H5].
    assert (Hproj : forall i,
               depth_of (examples (record_block n (bits_to_bytes n) isf buf t d0)) i
               = depth_of (examples d0) i)
      by (intros; apply record_block_proj; reflexivity).
    assert (Hch : forall i,
               children_of (examples (record_block n (bits_to_bytes n) isf buf t d0)) i
               = children_of (examples d0) i)
      by (intros; apply record_block_proj; reflexivity).
    constructor.
    + intros i x. rewrite Hproj. apply H1.
    + eapply stack_depths_ext; [|exact H2]. intros; apply Hproj.
    + intros p cs c dp dc. rewrite Hch, !Hproj. apply H3.
    + intros x. rewrite Hproj. apply H4.
    + exact H5.
  - intros st ov origin d0 [H1 H2 H3 H4 H5]. destruct d0.
    constructor; assumption.
  - intros d0 [H1 H2 H3 H4 H5]. destruct d0. constructor; assumption.
Qed.

(** At every reachable record the depth of an example is its nesting: the
    first example has depth 0, a child is one deeper than its parent, the
    example on top of the stack has the depth the record reports, and no
    example is deeper than [max_depth]. *)
Theorem example_depths_follow_nesting d :
  reachable calc d ->
  (forall i e, examples d !! i = Some e -> 0 <= ex_depth e <= max_depth d)
  /\ (forall e, examples d !! 0%nat = Some e -> ex_depth e = 0)
  /\ (forall p c ep ec,
        examples d !! p = Some ep -> c ∈ ex_children ep ->
        examples d !! c = Some ec -> ex_depth ec = ex_depth ep + 1)
  /\ (forall t below e,
        example_stack d = t :: below -> examples d !! t = Some e ->
        ex_depth e = depth d)
  /\ depth d <= max_depth d.
Proof.
  intros Hreach. pose proof (DepthInv_reachable d Hreach) as [H1 H2 H3 H4 H5].
  pose proof (reachable_Inv _ _ Hreach) as HI.
  assert (Htop : forall t below e,
             example_stack d = t :: below -> examples d !! t = Some e ->
             ex_depth e = depth d).
  { intros t below e Hs He. rewrite Hs in H2. cbn in H2. destruct H2 as [Ht _].
    unfold depth_of in Ht. rewrite He in Ht. cbn in Ht.
    unfold depth. rewrite Hs. cbn [length]. injection Ht as ->. lia. }
  split; [|split; [|split; [|split]]].
  - intros i e He. apply (H1 i). unfold depth_of. now rewrite He.
  - intros e He. apply H4. unfold depth_of. now rewrite He.
  - intros p c ep ec Hp Hc Hec. apply (H3 p (ex_children ep) c); auto.
    + unfold children_of. now rewrite Hp.
    + unfold depth_of. now rewrite Hp.
    + unfold depth_of. now rewrite Hec.
  - exact Htop.
  - destruct (example_stack d) as [|t below] eqn:Hs.
    + unfold depth. rewrite Hs. cbn. lia.
    + assert (Hlt : (t < length (examples d))%nat)
        by (apply Inv_stack_lt; [exact HI|rewrite Hs; left]).
      destruct (lookup_lt_is_Some_2 _ _ Hlt) as [e He].
      rewrite <- (Htop t below e eq_refl He).
      apply (H1 t). unfold depth_of. now rewrite He.
Qed.





Lemma BlockShape_reachable d : reachable calc d -> BlockShape d.
Proof.
  apply reachable_invariant.
  - intros ml tc. constructor; cbn.
    + intros b Hb. inversion Hb.
    + intros b Hb. inversion Hb.
    + intros w. now rewrite lookup_empty.
    + intros w l. rewrite lookup_empty. discriminate.
  - intros label d0 _ _ [H1 H2 H3 H4]. destruct d0. constructor; assumption.
  - intros discard k rest ek d0 _ _ _ _ [H1 H2 H3 H4]. destruct d0.
    constructor; assumption.
  - intros n isf buf t below dep label d0 HI Hf Hs Ht Hn Hlen Hv Hcap
      [H1 H2 H3 H4].
    set (nb := new_block n (bits_to_bytes n) isf buf d0).
    assert (Hbl : blocks (record_block n (bits_to_bytes n) isf buf t d0)
                  = blocks d0 ++ [nb]) by (destruct d0; reflexivity).
    assert (Hbuf : buffer (record_block n (bits_to_bytes n) isf buf t d0)
                   = buffer d0 ++ buf) by (destruct d0; reflexivity).
    assert (Hbs : block_starts (record_block n (bits_to_bytes n) isf buf t d0)
                  = <[bits_to_bytes n :=
                        default [] (block_starts d0 !! bits_to_bytes n)
                        ++ [index d0]]> (block_starts d0))
      by (destruct d0; reflexivity).
    assert (Hnl : block_length nb = bits_to_bytes n)
      by (subst nb; unfold block_length, new_block; cbn [b_end b_start]; lia).
    constructor.
    + intros b. rewrite Hbl. intros Hb. apply elem_of_app in Hb as [Hb|Hb];
        [now apply H1|].
      apply list_elem_of_singleton in Hb as ->. exact Hnl.
    + intros b. rewrite Hbl, Hbuf. intros Hb.
      apply elem_of_app in Hb as [Hb|Hb].
      * pose proof (b_bounds _ _ (inv_blocks _ HI) b Hb).
        unfold block_value, block_bytes. rewrite slice_app_l by lia.
        now apply H2.
      * apply list_elem_of_singleton in Hb as ->.
        unfold block_value, block_bytes. subst nb. unfold new_block.
        cbn [b_start b_end b_all_zero]. unfold index. rewrite <- Hlen.
        now rewrite slice_app_r.
    + intros w. rewrite Hbl, Hbs. unfold blocks_of_width.
      rewrite filter_app, fmap_app.
      destruct (decide (bits_to_bytes n = w)) as [<-|Hw].
      * rewrite lookup_insert_eq. cbn [default]. rewrite H3.
        rewrite filter_cons_True by exact Hnl. reflexivity.
      * rewrite lookup_insert_ne by assumption.
        rewrite filter_cons_False by (rewrite Hnl; exact Hw).
        rewrite filter_nil, app_nil_r. apply H3.
    + intros w l. rewrite Hbs.
      destruct (decide (bits_to_bytes n = w)) as [<-|Hw].
      * rewrite lookup_insert_eq. intros [= <-].
        destruct (default [] _); discriminate.
      * rewrite lookup_insert_ne by assumption. apply H4.
  - intros st ov origin d0 [H1 H2 H3 H4]. destruct d0. constructor; assumption.
  - intros d0 [H1 H2 H3 H4]. destruct d0. constructor; assumption.
Qed.

(** At every reachable record a block spans [ceil(bits / 8)] bytes of the
    buffer, and its [all_zero] flag is true exactly when all of its bytes
    are zero. *)
Theorem block_flags_describe_bytes d b :
  reachable calc d -> b ∈ blocks d ->
  0 <= b_bits b
  /\ block_length b = bits_to_bytes (b_bits b)
  /\ Z.of_nat (length (block_bytes (buffer d) b)) = block_length b
  /\ (b_all_zero b = true
      <-> Forall (fun x => x = x00) (block_bytes (buffer d) b))
  /\ (block_trivial b = true
      <-> b_forced b = true
          \/ Forall (fun x => x = x00) (block_bytes (buffer d) b)).
Proof.
  intros Hreach Hb. pose proof (BlockShape_reachable d Hreach) as [H1 H2 _ _].
  pose proof (reachable_Inv _ _ Hreach) as HI.
  pose proof (b_bounds _ _ (inv_blocks _ HI) b Hb) as Hbounds.
  pose proof (b_width _ _ (inv_blocks _ HI) b Hb) as [Hbits _].
  assert (Hzero : b_all_zero b = true
                  <-> Forall (fun x => x = x00) (block_bytes (buffer d) b)).
  { rewrite (H2 b Hb). unfold block_value. rewrite <- int_from_bytes_zero.
    apply Z.eqb_eq. }
  split; [exact Hbits|]. split; [now apply H1|]. split.
  - unfold block_bytes, block_length. rewrite slice_in by lia.
    rewrite length_take, length_drop. lia.
  - split; [exact Hzero|].
    unfold block_trivial. rewrite orb_true_iff, Hzero. reflexivity.
Qed.

(** At every reachable record [block_starts] maps each byte width to the
    starts of the blocks of that width, in the order of the blocks, and has
    no entry for a width no block has. *)
Theorem block_starts_indexes_blocks_by_width d w :
  reachable calc d ->
  default [] (block_starts d !! w)
  = b_start <$> filter (fun b => block_length b = w) (blocks d)
  /\ (block_starts d !! w = None
      <-> forall b, b ∈ blocks d -> block_length b <> w).
Proof.
  intros Hreach. pose proof (BlockShape_reachable d Hreach) as [_ _ H3 H4].
  split; [apply H3|].
  specialize (H3 w). unfold blocks_of_width in H3. split.
  - intros Hnone b Hb Hw. rewrite Hnone in H3. cbn in H3.
    assert (Hin : b ∈ filter (fun b => block_length b = w) (blocks d))
      by (apply list_elem_of_filter; auto).
    destruct (filter _ (blocks d)); [inversion Hin|discriminate].
  - intros Hall. destruct (block_starts d !! w) as [l|] eqn:Hl; [|reflexivity].
    exfalso. pose proof (H4 w l Hl) as Hne. cbn in H3.
    destruct (filter (fun b => block_length b = w) (blocks d)) as [|b bs] eqn:Hfl.
    + cbn in H3. congruence.
    + assert (Hin : b ∈ filter (fun b => block_length b = w) (blocks d))
        by (rewrite Hfl; left).
      apply list_elem_of_filter in Hin as [Hw Hin]. exact (Hall b Hin Hw).
Qed.

(** ** Records only grow *)

Lemma same_example (e : Example) :
  ex_index e = ex_index e /\ ex_label e = ex_label e
  /\ ex_depth e = ex_depth e /\ ex_start e = ex_start e
  /\ ex_children e `prefix_of` ex_children e
  /\ (ex_trivial e = false -> ex_trivial e = false)
  /\ (ex_end e <> None -> e = e).
Proof. repeat split; auto. Qed.

Lemma extends_refl d : extends d d.
Proof.
  constructor; try reflexivity; auto.
  intros i e He. exists e. split; [assumption|apply same_example].
Qed.

Lemma extends_trans a b c : extends a b -> extends b c -> extends a c.
Proof.
  intros [A1 A2 A3 A4 A5 A6 A7 A8 A9] [B1 B2 B3 B4 B5 B6 B7 B8 B9].
  constructor; try (etrans; eauto; fail); try congruence; auto; try lia.
  intros i e He.
  destruct (A3 i e He) as (e1 & He1 & I1 & L1 & D1 & S1 & C1 & T1 & E1).
  destruct (B3 i e1 He1) as (e2 & He2 & I2 & L2 & D2 & S2 & C2 & T2 & E2).
  exists e2. split; [assumption|].
  split; [congruence|]. split; [congruence|]. split; [congruence|].
  split; [congruence|]. split; [etrans; eauto|]. split; [auto|].
  intros Hend. rewrite <- (E1 Hend). apply E2. rewrite (E1 Hend). exact Hend.
Qed.

(** An example that is not on the stack is closed, so the operations,
    which write to examples on the stack only, leave it alone. *)
Lemma closed_not_on_stack d i e :
  Inv d -> examples d !! i = Some e -> ex_end e <> None -> i ∉ example_stack d.
Proof.
  intros HI He Hend Hin. apply (e_open _ _ _ (inv_examples _ HI)) in Hin.
  unfold end_of in Hin. rewrite He in Hin. cbn in Hin. congruence.
Qed.

Lemma extends_after_start label d :
  Inv d -> frozen d = false -> extends d (after_start label d).
Proof.
  intros HI Hf. constructor.
  - destruct d; reflexivity.
  - destruct d; reflexivity.
  - intros i e He. rewrite after_start_examples. unfold opened.
    pose proof (lookup_lt_Some _ _ _ He) as Hlt.
    destruct (example_stack d) as [|p rest] eqn:Hs.
    + exists e. rewrite lookup_app_l by assumption.
      split; [assumption|apply same_example].
    + rewrite list_lookup_alter. destruct (decide (p = i)) as [->|Hne].
      * exists (ex_add_child (length (examples d)) e).
        rewrite lookup_app_l, He by assumption. split; [reflexivity|].
        cbn. repeat split; auto.
        -- now apply prefix_app_r.
        -- intros Hend. exfalso.
           apply (closed_not_on_stack d i e HI He Hend). rewrite Hs. left.
      * exists e. rewrite lookup_app_l by assumption.
        split; [assumption|apply same_example].
  - intros w. destruct d; reflexivity.
  - destruct d; reflexivity.
  - destruct d; reflexivity.
  - replace (max_depth (after_start label d))
      with (Z.max (max_depth d) (Z.of_nat (length (example_stack d))))
      by (destruct d; reflexivity).
    lia.
  - destruct d; cbn. auto.
  - rewrite Hf. discriminate.
Qed.

Lemma extends_after_stop discard k rest ek d :
  Inv d -> frozen d = false -> example_stack d = k :: rest ->
  examples d !! k = Some ek -> extends d (after_stop discard k rest ek d).
Proof.
  intros HI Hf Hs Hk. constructor.
  - destruct d; reflexivity.
  - destruct d; reflexivity.
  - intros i e He. rewrite after_stop_examples. unfold closed.
    assert (Hclosed : ex_end e <> None -> i <> k /\ forall p r, rest = p :: r -> i <> p).
    { intros Hend. pose proof (closed_not_on_stack d i e HI He Hend) as Hnot.
      rewrite Hs in Hnot. split.
      - intros ->. apply Hnot. left.
      - intros p r -> ->. apply Hnot. right. left. }
    rewrite list_lookup_alter. destruct (decide (k = i)) as [->|Hki].
    + destruct rest as [|p r].
      * rewrite list_lookup_alter_eq, He. eexists. split; [reflexivity|].
        cbn. repeat split; auto. intros Hend. destruct (Hclosed Hend). congruence.
      * destruct (negb (ex_trivial ek)).
        -- rewrite list_lookup_alter. destruct (decide (p = i)) as [->|Hpi].
           ++ rewrite list_lookup_alter_eq, He. eexists. split; [reflexivity|].
              cbn. repeat split; auto.
              intros Hend. destruct (Hclosed Hend). congruence.
           ++ rewrite list_lookup_alter_eq, He. eexists. split; [reflexivity|].
              cbn. repeat split; auto.
              intros Hend. destruct (Hclosed Hend). congruence.
        -- rewrite list_lookup_alter_eq, He. eexists. split; [reflexivity|].
           cbn. repeat split; auto.
           intros Hend. destruct (Hclosed Hend). congruence.
    + destruct rest as [|p r].
      * rewrite list_lookup_alter_ne, He by assumption. exists e.
        split; [reflexivity|apply same_example].
      * destruct (negb (ex_trivial ek)).
        -- rewrite list_lookup_alter. destruct (decide (p = i)) as [->|Hpi].
           ++ rewrite list_lookup_alter_ne, He by assumption.
              eexists. split; [reflexivity|]. cbn. repeat split; auto.
              intros Hend. destruct (Hclosed Hend) as [_ Hp].
              exfalso. exact (Hp i r eq_refl eq_refl).
           ++ rewrite list_lookup_alter_ne, He by assumption. exists e.
              split; [reflexivity|apply same_example].
        -- rewrite list_lookup_alter_ne, He by assumption. exists e.
           split; [reflexivity|apply same_example].
  - intros w. destruct d; reflexivity.
  - destruct d; reflexivity.
  - destruct d; reflexivity.
  - replace (max_depth (after_stop discard k rest ek d)) with (max_depth d)
      by (destruct d; reflexivity).
    lia.
  - intros Hd. unfold after_stop. cbn [has_discards set_has_discards].
    rewrite Hd. destruct (index d =? ex_start ek), discard; reflexivity.
  - rewrite Hf. discriminate.
Qed.

Lemma extends_record_block n isf buf t below dep label d :
  Inv d -> frozen d = false -> example_stack d = t :: below ->
  examples d !! t = Some (mkExample dep label t (index d) None true None []) ->
  extends d (record_block n (bits_to_bytes n) isf buf t d).
Proof.
  intros HI Hf Hs Ht. constructor.
  - replace (buffer (record_block n (bits_to_bytes n) isf buf t d))
      with (buffer d ++ buf) by (destruct d; reflexivity).
    now apply prefix_app_r.
  - replace (blocks (record_block n (bits_to_bytes n) isf buf t d))
      with (blocks d ++ [new_block n (bits_to_bytes n) isf buf d])
      by (destruct d; reflexivity).
    now apply prefix_app_r.
  - intros i e He. unfold record_block.
    cbn [examples set_buffer set_blocks set_block_starts set_examples].
    rewrite list_lookup_alter. destruct (decide (t = i)) as [->|Hne].
    + rewrite He. eexists. split; [reflexivity|].
      assert (e = mkExample dep label i (index d) None true None []) as ->
        by congruence.
      cbn. repeat split; auto; congruence.
    + exists e. split; [assumption|apply same_example].
  - intros w.
    replace (block_starts (record_block n (bits_to_bytes n) isf buf t d))
      with (<[bits_to_bytes n :=
                default [] (block_starts d !! bits_to_bytes n) ++ [index d]]>
              (block_starts d)) by (destruct d; reflexivity).
    destruct (decide (bits_to_bytes n = w)) as [<-|Hw].
    + rewrite lookup_insert_eq. cbn [default]. now apply prefix_app_r.
    + rewrite lookup_insert_ne by assumption. reflexivity.
  - destruct d; reflexivity.
  - destruct d; reflexivity.
  - replace (max_depth (record_block n (bits_to_bytes n) isf buf t d))
      with (max_depth d) by (destruct d; reflexivity).
    lia.
  - destruct d; cbn. auto.
  - rewrite Hf. discriminate.
Qed.

Lemma extends_same_lists d d' :
  buffer d' = buffer d -> blocks d' = blocks d -> examples d' = examples d ->
  block_starts d' = block_starts d -> max_length d' = max_length d ->
  testcounter d' = testcounter d -> max_depth d' = max_depth d ->
  has_discards d' = has_discards d -> (frozen d = true -> frozen d' = true) ->
  extends d d'.
Proof.
  intros E1 E2 E3 E4 E5 E6 E7 E8 E9.
  constructor; rewrite ?E1, ?E2, ?E4, ?E7, ?E8; try reflexivity; auto.
  intros i e He. exists e. rewrite E3. split; [assumption|apply same_example].
Qed.

Lemma extends_apply_op o d : Inv d -> extends d (apply_op calc o d).
Proof.
  apply (R_apply_op calc extends).
  - apply extends_refl.
  - apply extends_trans.
  - apply extends_after_start.
  - apply extends_after_stop.
  - intros n isf buf t below dep label d0 HI Hf Hs Ht _ _ _ _.
    now apply (extends_record_block n isf buf t below dep label).
  - intros st ov origin d0 _ Hf. apply extends_same_lists;
      try (destruct d0; reflexivity).
    rewrite Hf. discriminate.
  - intros d0 _ _ _. apply extends_same_lists; try (destruct d0; reflexivity).
Qed.

(** Across every operation on a reachable record the record only grows:
    the old buffer, blocks and lists of block starts are prefixes of the new
    ones; every example keeps its index, label, depth and start, keeps the
    children it had, and stays non-trivial once it is; an example that was
    closed is not touched again; [max_length] and [testcounter] never
    change, [max_depth] never decreases, [has_discards] and [frozen] are
    never reset. *)
Theorem operations_only_extend_the_record o d :
  reachable calc d ->
  buffer d `prefix_of` buffer (apply_op calc o d)
  /\ blocks d `prefix_of` blocks (apply_op calc o d)
  /\ (forall w, default [] (block_starts d !! w)
                `prefix_of` default [] (block_starts (apply_op calc o d) !! w))
  /\ (forall i e, examples d !! i = Some e ->
        exists e', examples (apply_op calc o d) !! i = Some e'
          /\ ex_index e' = ex_index e /\ ex_label e' = ex_label e
          /\ ex_depth e' = ex_depth e /\ ex_start e' = ex_start e
          /\ ex_children e `prefix_of` ex_children e'
          /\ (ex_trivial e = false -> ex_trivial e' = false)
          /\ (ex_end e <> None -> e' = e))
  /\ max_length (apply_op calc o d) = max_length d
  /\ testcounter (apply_op calc o d) = testcounter d
  /\ max_depth d <= max_depth (apply_op calc o d)
  /\ (has_discards d = true -> has_discards (apply_op calc o d) = true)
  /\ (frozen d = true -> frozen (apply_op calc o d) = true).
Proof.
  intros Hreach.
  destruct (extends_apply_op o d (reachable_Inv _ _ Hreach))
    as [H1 H2 H3 H4 H5 H6 H7 H8 H9].
  repeat split; assumption.
Qed.

(** ** Closing an example *)

Lemma ex_set_trivial_same ep : ex_set_trivial (ex_trivial ep) ep = ep.
Proof. destruct ep; reflexivity. Qed.

(** [stop_example] on an unfrozen record.  With no open example it raises
    [IndexError] and changes nothing.  Otherwise it pops the top of the
    stack, stores the current buffer length as its [end] and the discard
    request as [discarded] (false for an empty region); the new top of the
    stack stays trivial only if it was and the closed example is; no other
    example, and neither the buffer nor the blocks, change. *)
Theorem stop_example_closes_top discard d :
  reachable calc d -> frozen d = false ->
  (example_stack d = [] -> stop_example discard d = (Raise IndexError, d))
  /\ (forall k rest ek,
        example_stack d = k :: rest -> examples d !! k = Some ek ->
        exists d',
          stop_example discard d = (Ok tt, d')
          /\ example_stack d' = rest
          /\ examples d' !! k
             = Some (ex_set_discarded (discard && negb (index d =? ex_start ek))
                       (ex_set_end (index d) ek))
          /\ (forall p r ep, rest = p :: r -> examples d !! p = Some ep ->
                examples d' !! p
                = Some (ex_set_trivial (ex_trivial ep && ex_trivial ek) ep))
          /\ (forall i, i <> k -> head rest <> Some i ->
                examples d' !! i = examples d !! i)
          /\ has_discards d'
             = has_discards d || (discard && negb (index d =? ex_start ek))
          /\ buffer d' = buffer d /\ blocks d' = blocks d
          /\ frozen d' = false).
Proof.
  intros Hreach Hf. pose proof (reachable_Inv _ _ Hreach) as HI.
  pose proof (Inv_stack_in_range _ HI) as Hr.
  split; [intros Hs; now apply stop_example_empty|].
  intros k rest ek Hs Hk.
  destruct (stop_example_step discard d k rest Hf Hr Hs) as (ek' & Hek' & Hstop).
  assert (ek' = ek) as -> by congruence.
  assert (Hfresh : k ∉ rest).
  { apply sorted_top_fresh. rewrite <- Hs.
    apply (e_sorted _ _ _ (inv_examples _ HI)). }
  assert (Hd : (if index d =? ex_start ek then false else discard)
               = discard && negb (index d =? ex_start ek))
    by (destruct (index d =? ex_start ek), discard; reflexivity).
  exists (after_stop discard k rest ek d).
  split; [exact Hstop|]. split; [reflexivity|].
  rewrite after_stop_examples, Hd. unfold closed.
  split; [|split; [|split; [|split; [|split; [|split]]]]].
  - rewrite list_lookup_alter_eq. destruct rest as [|p r].
    + rewrite list_lookup_alter_eq, Hk. reflexivity.
    + assert (p <> k) by (intros ->; apply Hfresh; left).
      destruct (negb (ex_trivial ek)).
      * rewrite list_lookup_alter_ne by assumption.
        rewrite list_lookup_alter_eq, Hk. reflexivity.
      * rewrite list_lookup_alter_eq, Hk. reflexivity.
  - intros p r ep -> Hp.
    assert (Hpk : k <> p) by (intros ->; apply Hfresh; left).
    rewrite list_lookup_alter_ne by assumption.
    destruct (ex_trivial ek); cbn [negb].
    + rewrite list_lookup_alter_ne, Hp by assumption.
      rewrite andb_true_r, ex_set_trivial_same. reflexivity.
    + rewrite list_lookup_alter_eq, list_lookup_alter_ne, Hp by assumption.
      rewrite andb_false_r. reflexivity.
  - intros i Hik Hhead. rewrite list_lookup_alter_ne by congruence.
    destruct rest as [|p r].
    + now rewrite list_lookup_alter_ne by congruence.
    + assert (p <> i) by (cbn in Hhead; congruence).
      destruct (negb (ex_trivial ek)).
      * rewrite list_lookup_alter_ne by assumption.
        now rewrite list_lookup_alter_ne by congruence.
      * now rewrite list_lookup_alter_ne by congruence.
  - unfold after_stop. cbn [has_discards set_has_discards]. rewrite Hd.
    destruct (has_discards d), (discard && negb (index d =? ex_start ek));
      reflexivity.
  - destruct d; reflexivity.
  - destruct d; reflexivity.
  - exact Hf.
Qed.

(** ** A draw is all or nothing, and can be replayed *)

(** [draw_bits] never records half a draw: when it raises, either the
    record is exactly as before the call, or the draw overran and the
    record was frozen with status [OVERRUN], its buffer, blocks and number
    of examples as before. *)
Theorem draw_bits_is_all_or_nothing src n forced d e d' :
  reachable calc d ->
  draw_bits calc src n forced d = (Raise e, d') ->
  d' = d
  \/ (e = StopTest (testcounter d)
      /\ frozen d = false
      /\ index d + bits_to_bytes n > max_length d
      /\ status d' = OVERRUN /\ frozen d' = true
      /\ buffer d' = buffer d /\ blocks d' = blocks d
      /\ block_starts d' = block_starts d
      /\ length (examples d') = length (examples d)).
Proof.
  intros Hreach Hdraw. pose proof (reachable_Inv _ _ Hreach) as HI.
  pose proof (Inv_stack_in_range _ HI) as Hr.
  destruct (draw_bits_cases calc src n forced d Hr)
    as [[e0 He]|[(Hf & Hcap & He)|(raw & buf & _ & _ & _ & _ & _ & He)]].
  - left. congruence.
  - right. rewrite He in Hdraw. injection Hdraw as <- <-.
    destruct (after_overrun_fields (bits_to_bytes n) d Hf Hr)
      as (_ & F2 & F3 & F4 & F5 & F6 & _).
    repeat (split; [assumption || reflexivity|]).
    unfold after_overrun.
    set (d0 := set_status OVERRUN
                 (set_overdraw (index d + bits_to_bytes n - max_length d) d)).
    destruct (after_freeze_fields d0) as (_ & _ & _ & _ & _ & _ & _ & _ & _ & F10 & _).
    + subst d0. destruct d; exact Hf.
    + subst d0. destruct d; exact Hr.
    + rewrite F10. subst d0. destruct d; reflexivity.
  - congruence.
Qed.

(** What a draw recorded can be replayed: a record with the buffer the
    draw started from, replaying the buffer the draw left, returns the
    same value from the same bytes, whatever source or forced value the
    original draw used. *)
Theorem replay_reproduces_draw src n forced d v d' e :
  reachable calc d -> reachable calc e ->
  frozen e = false -> buffer e = buffer d ->
  index e + bits_to_bytes n <= max_length e ->
  draw_bits calc src n forced d = (Ok v, d') ->
  exists e',
    draw_bits calc (replay_source (buffer d')) n None e = (Ok v, e')
    /\ buffer e' = buffer d'.
Proof.
  intros Hd He Hfe Hbuf Hcap Hdraw.
  pose proof (reachable_Inv _ _ Hd) as HId.
  pose proof (reachable_Inv _ _ He) as HIe.
  destruct (draw_bits_cases calc src n forced d (Inv_stack_in_range _ HId))
    as [[e0 H0]|[(_ & _ & H0)|(raw & buf & _ & _ & _ & Hlen & Hmask & Hok)]];
    [congruence..|].
  rewrite Hok in Hdraw. injection Hdraw as <- <-.
  destruct (mask_bytes_spec _ _ _ Hlen Hmask) as (Hn & Hbl & Hv).
  assert (Hlen' : Z.of_nat (length buf) = bits_to_bytes n) by lia.
  destruct (mask_bytes_total n buf Hn Hlen') as [buf' Hmask'].
  assert (buf' = buf) as -> by (eapply mask_bytes_id; eauto; lia).
  exists (after_draw (DRAW_BYTES_LABEL calc) n false buf e).
  rewrite !after_draw_buffer, Hbuf. split; [|reflexivity].
  apply (draw_bits_ok calc _ n None e buf buf); auto.
  - apply stack_in_range_top, Inv_stack_in_range, HIe.
  - cbn [raw_bytes]. unfold replay_source, index. rewrite Hbuf, <- Hlen'.
    now rewrite slice_app_r.
Qed.

End Structure.

(** * The further properties on concrete records *)

Lemma draw_bits_appends_encoding_witness :
  exists bytes,
    int_to_bytes 5 (bits_to_bytes 8) = Ok bytes
    /\ buffer drawn_demo = buffer fresh_demo ++ bytes
    /\ index drawn_demo = index fresh_demo + bits_to_bytes 8
    /\ index drawn_demo <= max_length fresh_demo
    /\ frozen drawn_demo = false
    /\ example_stack drawn_demo = example_stack fresh_demo
    /\ length (blocks drawn_demo) = S (length (blocks fresh_demo))
    /\ length (examples drawn_demo) = S (length (examples fresh_demo)).
Proof.
  apply (draw_bits_appends_encoding demo_label zero_source 8 (Some 5)
           fresh_demo 5 drawn_demo).
  - apply reachable_new.
  - vm_compute; reflexivity.
Defined.

Lemma draw_bits_buffers_agree_iff_values_agree_witness :
  buffer drawn_demo = buffer zero_drawn_demo <-> 5 = 0.
Proof.
  apply (draw_bits_buffers_agree_iff_values_agree demo_label
           zero_source zero_source 8 (Some 5) None fresh_demo fresh_demo
           5 0 drawn_demo zero_drawn_demo).
  - apply reachable_new.
  - apply reachable_new.
  - vm_compute; reflexivity.
  - vm_compute; reflexivity.
  - vm_compute; reflexivity.
Defined.

Lemma write_appends_string_witness :
  exists d' b,
    write demo_label zero_source [x05] fresh_demo = (Ok (Some [x05]), d')
    /\ buffer d' = buffer fresh_demo ++ [x05]
    /\ blocks d' = blocks fresh_demo ++ [b]
    /\ b_forced b = true
    /\ b_bits b = 8 * Z.of_nat (length [x05])
    /\ b_start b = index fresh_demo
    /\ b_end b = index fresh_demo + Z.of_nat (length [x05]).
Proof.
  apply (write_appends_string demo_label zero_source [x05] fresh_demo).
  - apply reachable_new.
  - vm_compute; reflexivity.
  - vm_compute. discriminate.
  - discriminate.
Defined.

Lemma draw_bytes_returns_source_bytes_witness :
  draw_bytes demo_label zero_source 0 fresh_demo = (Ok [], fresh_demo)
  /\ exists d',
       draw_bytes demo_label zero_source 1 fresh_demo = (Ok [x00], d')
       /\ buffer d' = buffer fresh_demo ++ [x00].
Proof.
  pose proof (draw_bytes_returns_source_bytes demo_label zero_source 1
                fresh_demo [x00] (reachable_new demo_label 8 0)) as [H0 H1].
  split; [exact H0|]. apply H1.
  - vm_compute; reflexivity.
  - lia.
  - vm_compute. discriminate.
  - vm_compute; reflexivity.
  - vm_compute; reflexivity.
Defined.

Lemma frozen_record_is_final_witness :
  apply_op demo_label (OpStartExample 3) frozen_demo = frozen_demo.
Proof.
  apply (frozen_record_is_final demo_label (OpStartExample 3) frozen_demo).
  vm_compute; reflexivity.
Defined.

Lemma freeze_closes_every_example_witness :
  exists d',
    freeze opened_demo = (Ok tt, d')
    /\ frozen d' = true
    /\ example_stack d' = []
    /\ buffer d' = buffer opened_demo
    /\ blocks d' = blocks opened_demo
    /\ status d' = status opened_demo
    /\ length (examples d') = length (examples opened_demo)
    /\ (forall i e, examples d' !! i = Some e ->
          exists en, ex_end e = Some en /\ en <= index opened_demo)
    /\ freeze d' = (Ok tt, d').
Proof.
  apply (freeze_closes_every_example demo_label opened_demo).
  - apply reachable_step, reachable_new.
  - vm_compute; reflexivity.
Defined.

Lemma conclude_test_freezes_with_status_witness :
  conclude_test VALID (Some 1) fresh_demo = (Raise AssertionError, fresh_demo)
  /\ exists d',
       conclude_test INTERESTING (Some 1) fresh_demo
       = (Raise (StopTest (testcounter fresh_demo)), d')
       /\ status d' = INTERESTING
       /\ interesting_origin d' = Some 1
       /\ frozen d' = true
       /\ example_stack d' = []
       /\ buffer d' = buffer fresh_demo
       /\ blocks d' = blocks fresh_demo
       /\ overdraw d' = overdraw fresh_demo.
Proof.
  split.
  - apply (proj1 (conclude_test_freezes_with_status demo_label VALID (Some 1)
                    fresh_demo (reachable_new demo_label 8 0)) 1).
    + vm_compute; reflexivity.
    + discriminate.
  - apply (proj2 (conclude_test_freezes_with_status demo_label INTERESTING
                    (Some 1) fresh_demo (reachable_new demo_label 8 0))).
    + vm_compute; reflexivity.
    + right. vm_compute; reflexivity.
Defined.

Lemma status_follows_life_cycle_witness :
  (status fresh_demo = VALID /\ overdraw fresh_demo = 0
   /\ interesting_origin fresh_demo = None)
  /\ (status overrun_demo = OVERRUN /\ 0 < overdraw overrun_demo
      /\ frozen overrun_demo = true)
  /\ example_stack overrun_demo = [].
Proof.
  pose proof (status_follows_life_cycle demo_label fresh_demo
                (reachable_new demo_label 8 0)) as (F1 & _).
  pose proof (status_follows_life_cycle demo_label overrun_demo
                (reachable_step demo_label _ _ (reachable_new demo_label 0 0)))
    as (_ & G2 & _ & G4 & _).
  split; [apply F1; vm_compute; reflexivity|]. split.
  - apply G2. vm_compute. discriminate.
  - apply G4. vm_compute; reflexivity.
Defined.

Lemma replay_draw_bytes_reads_input_witness :
  (exists d',
     draw_bytes demo_label (replay_source replay_input) 1 replay_demo
     = (Ok (slice replay_input (index replay_demo) (index replay_demo + 1)), d')
     /\ buffer d' = take (length (buffer d')) replay_input
     /\ index d' = index replay_demo + 1)
  /\ (exists d',
        draw_bytes demo_label (replay_source replay_input) 3 replay_demo
        = (Raise (StopTest (testcounter replay_demo)), d')
        /\ status d' = OVERRUN /\ frozen d' = true
        /\ buffer d' = buffer replay_demo
        /\ overdraw d' = index replay_demo + 3 - max_length replay_demo).
Proof.
  split.
  - apply (replay_draw_bytes_reads_input demo_label replay_input 1 replay_demo).
    + apply reachable_new.
    + vm_compute; reflexivity.
    + vm_compute; reflexivity.
    + vm_compute; reflexivity.
    + lia.
    + vm_compute. discriminate.
  - apply (replay_draw_bytes_reads_input demo_label replay_input 3 replay_demo).
    + apply reachable_new.
    + vm_compute; reflexivity.
    + vm_compute; reflexivity.
    + vm_compute; reflexivity.
    + lia.
    + vm_compute. reflexivity.
Defined.

Lemma draw_rejects_empty_or_too_deep_witness :
  draw no_find_strategy None (in_find_mode fresh_demo)
  = (Raise InvalidArgument, in_find_mode fresh_demo)
  /\ exists d',
       draw empty_strategy None (in_find_mode fresh_demo)
       = (Raise (StopTest (testcounter (in_find_mode fresh_demo))), d')
       /\ status d' = INVALID
       /\ interesting_origin d' = None
       /\ frozen d' = true
       /\ example_stack d' = []
       /\ buffer d' = buffer (in_find_mode fresh_demo)
       /\ blocks d' = blocks (in_find_mode fresh_demo)
       /\ length (examples d') = length (examples (in_find_mode fresh_demo)).
Proof.
  assert (Hr : stack_in_range (in_find_mode fresh_demo))
    by (repeat constructor).
  split.
  - apply (proj1 (draw_rejects_empty_or_too_deep no_find_strategy
                    None (in_find_mode fresh_demo) Hr eq_refl)).
    vm_compute; reflexivity.
  - apply (proj2 (draw_rejects_empty_or_too_deep empty_strategy
                    None (in_find_mode fresh_demo) Hr eq_refl)).
    + vm_compute; reflexivity.
    + left. vm_compute; reflexivity.
Defined.


Lemma draw_keeps_reachable_witness :
  reachable demo_label (snd (draw unit_strategy None fresh_demo)).
Proof.
  apply (draw_keeps_reachable demo_label unit_strategy None fresh_demo).
  - intros d0 H. exact H.
  - apply reachable_new.
Defined.

Lemma example_depths_follow_nesting_witness :
  (forall i e, examples drawn_demo !! i = Some e ->
     0 <= ex_depth e <= max_depth drawn_demo)
  /\ (forall e, examples drawn_demo !! 0%nat = Some e -> ex_depth e = 0)
  /\ (forall p c ep ec,
        examples drawn_demo !! p = Some ep -> c ∈ ex_children ep ->
        examples drawn_demo !! c = Some ec -> ex_depth ec = ex_depth ep + 1)
  /\ (forall t below e,
        example_stack drawn_demo = t :: below ->
        examples drawn_demo !! t = Some e ->
        ex_depth e = depth drawn_demo)
  /\ depth drawn_demo <= max_depth drawn_demo.
Proof.
  apply (example_depths_follow_nesting demo_label drawn_demo).
  apply reachable_step, reachable_new.
Defined.


Lemma block_flags_describe_bytes_witness :
  0 <= b_bits drawn_block
  /\ block_length drawn_block = bits_to_bytes (b_bits drawn_block)
  /\ Z.of_nat (length (block_bytes (buffer drawn_demo) drawn_block))
     = block_length drawn_block
  /\ (b_all_zero drawn_block = true
      <-> Forall (fun x => x = x00) (block_bytes (buffer drawn_demo) drawn_block))
  /\ (block_trivial drawn_block = true
      <-> b_forced drawn_block = true
          \/ Forall (fun x => x = x00)
               (block_bytes (buffer drawn_demo) drawn_block)).
Proof.
  apply (block_flags_describe_bytes demo_label drawn_demo drawn_block).
  - apply reachable_step, reachable_new.
  - vm_compute. left.
Defined.

Lemma block_starts_indexes_blocks_by_width_witness :
  default [] (block_starts drawn_demo !! 1)
  = b_start <$> filter (fun b => block_length b = 1) (blocks drawn_demo)
  /\ (block_starts drawn_demo !! 1 = None
      <-> forall b, b ∈ blocks drawn_demo -> block_length b <> 1).
Proof.
  apply (block_starts_indexes_blocks_by_width demo_label drawn_demo 1).
  apply reachable_step, reachable_new.
Defined.

Lemma operations_only_extend_the_record_witness :
  buffer fresh_demo `prefix_of` buffer drawn_demo
  /\ blocks fresh_demo `prefix_of` blocks drawn_demo
  /\ (forall w, default [] (block_starts fresh_demo !! w)
                `prefix_of` default [] (block_starts drawn_demo !! w))
  /\ (forall i e, examples fresh_demo !! i = Some e ->
        exists e', examples drawn_demo !! i = Some e'
          /\ ex_index e' = ex_index e /\ ex_label e' = ex_label e
          /\ ex_depth e' = ex_depth e /\ ex_start e' = ex_start e
          /\ ex_children e `prefix_of` ex_children e'
          /\ (ex_trivial e = false -> ex_trivial e' = false)
          /\ (ex_end e <> None -> e' = e))
  /\ max_length drawn_demo = max_length fresh_demo
  /\ testcounter drawn_demo = testcounter fresh_demo
  /\ max_depth fresh_demo <= max_depth drawn_demo
  /\ (has_discards fresh_demo = true -> has_discards drawn_demo = true)
  /\ (frozen fresh_demo = true -> frozen drawn_demo = true).
Proof.
  apply (operations_only_extend_the_record demo_label
           (OpDrawBits zero_source 8 (Some 5)) fresh_demo).
  apply reachable_new.
Defined.

Lemma stop_example_closes_top_witness :
  stop_example true closed_demo = (Raise IndexError, closed_demo)
  /\ exists d',
       stop_example true drawn_demo = (Ok tt, d')
       /\ example_stack d' = []
       /\ examples d' !! 0%nat
          = Some (ex_set_discarded
                    (true && negb (index drawn_demo =? ex_start drawn_top))
                    (ex_set_end (index drawn_demo) drawn_top))
       /\ (forall p r ep, [] = p :: r -> examples drawn_demo !! p = Some ep ->
             examples d' !! p
             = Some (ex_set_trivial (ex_trivial ep && ex_trivial drawn_top) ep))
       /\ (forall i, i <> 0%nat -> head (@nil nat) <> Some i ->
             examples d' !! i = examples drawn_demo !! i)
       /\ has_discards d'
          = has_discards drawn_demo
            || (true && negb (index drawn_demo =? ex_start drawn_top))
       /\ buffer d' = buffer drawn_demo /\ blocks d' = blocks drawn_demo
       /\ frozen d' = false.
Proof.
  split.
  - apply (proj1 (stop_example_closes_top demo_label true closed_demo
                    (reachable_step demo_label _ _ (reachable_new demo_label 8 0))
                    eq_refl)).
    vm_compute; reflexivity.
  - apply (proj2 (stop_example_closes_top demo_label true drawn_demo
                    (reachable_step demo_label _ _ (reachable_new demo_label 8 0))
                    eq_refl) 0%nat [] drawn_top).
    + vm_compute; reflexivity.
    + vm_compute; reflexivity.
Defined.

Lemma draw_bits_is_all_or_nothing_witness :
  overrun_demo = full_demo
  \/ (StopTest 0 = StopTest (testcounter full_demo)
      /\ frozen full_demo = false
      /\ index full_demo + bits_to_bytes 8 > max_length full_demo
      /\ status overrun_demo = OVERRUN /\ frozen overrun_demo = true
      /\ buffer overrun_demo = buffer full_demo
      /\ blocks overrun_demo = blocks full_demo
      /\ block_starts overrun_demo = block_starts full_demo
      /\ length (examples overrun_demo) = length (examples full_demo)).
Proof.
  apply (draw_bits_is_all_or_nothing demo_label zero_source 8 None full_demo
           (StopTest 0) overrun_demo).
  - apply reachable_new.
  - vm_compute; reflexivity.
Defined.

Lemma replay_reproduces_draw_witness :
  exists e',
    draw_bits demo_label (replay_source (buffer drawn_demo)) 8 None fresh_demo
    = (Ok 5, e')
    /\ buffer e' = buffer drawn_demo.
Proof.
  apply (replay_reproduces_draw demo_label zero_source 8 (Some 5) fresh_demo 5
           drawn_demo fresh_demo).
  - apply reachable_new.
  - apply reachable_new.
  - vm_compute; reflexivity.
  - vm_compute; reflexivity.
  - vm_compute. discriminate.
  - vm_compute; reflexivity.
Defined.
